(** * push50: slug resolution, configuration merge and authentication

    A shallow embedding of [push50.py].  Python values are modelled as the
    program uses them: [str] as [string], [None]-able values as [option],
    exceptions as the [Raise] case of an outcome, dict objects that the
    program mutates as cells of an explicit store, and the outside world
    (git, ssh, HTTP, the terminal, the YAML parser, the file system) as a
    record of answers, one per call the program makes. *)

From Stdlib Require Import ZArith Lia Ascii String.
From stdpp Require Import base option list strings gmap.

Set Default Proof Using "Type".
Set Warnings "-register-all".
Local Open Scope Z_scope.

(** ** Exceptions and outcomes *)

(** The exception classes the program defines or catches by name.  [Error]
    and [InvalidSlug] are the program's own ([InvalidSlug] is a subclass of
    [Error]); [GitError] is GitPython's base class; every other Python
    exception is kept by class name. *)
Inductive exn : Type :=
  | Error (msg : string)
  | InvalidSlug (msg : string)
  | GitError (msg : string)
  | PyExn (cls : string) (msg : string).

(** [isinstance(e, Error)], [isinstance(e, InvalidSlug)] and
    [isinstance(e, GitError)], as the [except] clauses test them. *)
Definition is_Error (e : exn) : bool :=
  match e with Error _ | InvalidSlug _ => true | _ => false end.

Definition is_InvalidSlug (e : exn) : bool :=
  match e with InvalidSlug _ => true | _ => false end.

Definition is_GitError (e : exn) : bool :=
  match e with GitError _ => true | _ => false end.

Inductive outcome (A : Type) : Type :=
  | Ok (a : A)
  | Raise (e : exn).
Arguments Ok {A} a.
Arguments Raise {A} e.

Definition obind {A B} (m : outcome A) (k : A -> outcome B) : outcome B :=
  match m with
  | Ok a => k a
  | Raise e => Raise e
  end.

(** ** Python string operations *)

Module Str.

(** [s.startswith(p)] *)
Definition startswith (s p : string) : bool := String.prefix p s.

(** [s[n:]] for [0 <= n] *)
Fixpoint slice_from (n : nat) (s : string) : string :=
  match n, s with
  | O, _ => s
  | S _, EmptyString => EmptyString
  | S n', String _ s' => slice_from n' s'
  end.

(** [s.endswith(p)] *)
Definition endswith (s p : string) : bool :=
  (String.length p <=? String.length s)%nat &&
  String.eqb (slice_from (String.length s - String.length p) s) p.

(** [s.find(sub, start)] for [0 <= start]: the lowest index at or after
    [start] where [sub] occurs, or [-1]. *)
Definition find (s sub : string) (start : Z) : Z :=
  match String.index (Z.to_nat start) sub s with
  | Some i => Z.of_nat i
  | None => -1
  end.

(** [s.split(sep)] for a one-character separator. *)
Fixpoint split (sep : ascii) (s : string) : list string :=
  match s with
  | EmptyString => [EmptyString]
  | String c s' =>
      if Ascii.eqb c sep then EmptyString :: split sep s'
      else match split sep s' with
           | [] => [String c EmptyString]
           | w :: ws => String c w :: ws
           end
  end.

(** [s.replace(old, new)] for a non-empty [old]: occurrences are replaced
    from the left and do not overlap.  [skip] counts the characters of an
    occurrence that are still to be dropped. *)
Fixpoint replace_from (old new : string) (skip : nat) (s : string) : string :=
  match s with
  | EmptyString => EmptyString
  | String c s' =>
      match skip with
      | S k => replace_from old new k s'
      | O =>
          if String.prefix old s
          then new +:+ replace_from old new (String.length old - 1) s'
          else String c (replace_from old new O s')
      end
  end.

Definition replace (s old new : string) : string := replace_from old new O s.

(** [s.lstrip("/")], [s.rstrip("/")] and [s.strip("/")]. *)
Fixpoint lstrip (c : ascii) (s : string) : string :=
  match s with
  | EmptyString => EmptyString
  | String a s' => if Ascii.eqb a c then lstrip c s' else s
  end.

Fixpoint rstrip (c : ascii) (s : string) : string :=
  match s with
  | EmptyString => EmptyString
  | String a s' =>
      match rstrip c s' with
      | EmptyString => if Ascii.eqb a c then EmptyString else String a EmptyString
      | r => String a r
      end
  end.

Definition strip (c : ascii) (s : string) : string := rstrip c (lstrip c s).

(** [c * n] for a one-character string. *)
Fixpoint repeat (c : ascii) (n : nat) : string :=
  match n with
  | O => EmptyString
  | S n' => String c (repeat c n')
  end.

End Str.

(** ** The outside world of slug resolution *)

(** What the program asks of its environment while resolving a slug.
    - [w_gettext] is the installed translation function [_];
    - [w_local_branches org repo] answers
      [map(str, Repo("~/.local/share/push50/{org}/{repo}").branches)];
    - [w_ls_remote url] answers [git.ls_remote(url, heads=True)]. *)
Record SlugWorld : Type := {
  w_gettext : string -> string;
  w_local_branches : string -> string -> outcome (list string);
  w_ls_remote : string -> outcome string
}.

(** ** [_parse_slug] *)

Definition LF : ascii := ascii_of_nat 10.
Definition TAB : ascii := ascii_of_nat 9.

(** One element of the generator
    [(line.split("\t")[1].replace("refs/heads/", "") for line in ...)]:
    it is computed only when the loop asks for it, and a line without a tab
    has no element of index 1. *)
Definition branch_of_line (line : string) : outcome string :=
  match Str.split TAB line !! 1%nat with
  | Some ref => Ok (Str.replace ref "refs/heads/" "")
  | None => Raise (PyExn "IndexError" "list index out of range")
  end.

(** The loop [for branch in branches: ... else: raise InvalidSlug(slug)]
    over a lazily produced sequence of branch names. *)
Fixpoint match_branch (slug remainder : string)
    (branches : list (outcome string)) : outcome (string * string) :=
  match branches with
  | [] => Raise (InvalidSlug slug)
  | Raise e :: _ => Raise e
  | Ok branch :: rest =>
      if Str.startswith remainder (branch +:+ "/")
      then Ok (branch, Str.slice_from (String.length branch + 1) remainder)
      else match_branch slug remainder rest
  end.

(** The body of the nested function [parse_branch].  Its only recursive call
    is [parse_branch(offline=True)] from the online case, which [self]
    stands for. *)
Definition parse_branch_body (w : SlugWorld) (slug org repo remainder : string)
    (self : outcome (string * string)) (offline : bool)
    : outcome (string * string) :=
  if negb offline then
    match self with
    | Ok r => Ok r
    | Raise e =>
        if is_InvalidSlug e then
          match w_ls_remote w ("https://github.com/" +:+ org +:+ "/" +:+ repo) with
          | Ok out =>
              match_branch slug remainder (map branch_of_line (Str.split LF out))
          | Raise e' =>
              if is_GitError e' then Raise (InvalidSlug slug) else Raise e'
          end
        else if is_GitError e then Raise (InvalidSlug slug)
        else Raise e
    end
  else
    match w_local_branches w org repo with
    | Ok bs => match_branch slug remainder (map Ok bs)
    | Raise e => if is_GitError e then Raise (InvalidSlug slug) else Raise e
    end.

Definition parse_branch (w : SlugWorld) (slug org repo remainder : string)
    (offline : bool) : outcome (string * string) :=
  parse_branch_body w slug org repo remainder
    (parse_branch_body w slug org repo remainder
       (Raise (InvalidSlug slug)) true)
    offline.

(** A [pathlib.Path] on a POSIX system, kept as its text: [path_arg p] is
    [str(p)], the constructor's argument once pathlib has normalised it. *)
Record Path : Type := { path_arg : string }.

(** The root pathlib splits off an argument that starts with [n] slashes:
    exactly two are kept, any other number is one. *)
Definition posix_root (n : nat) : string :=
  match n with
  | O => ""
  | 2%nat => "//"
  | _ => "/"
  end.

(** The components pathlib keeps: empty ones and ["."] are dropped, [".."]
    stays. *)
Definition kept_part (x : string) : bool :=
  negb (String.eqb x "") && negb (String.eqb x ".").

(** [str(pathlib.Path(arg))]: the root, the kept components joined by
    single slashes, and ["."] when nothing is left. *)
Definition posix_text (arg : string) : string :=
  let rel := Str.lstrip "/" arg in
  let root := posix_root (String.length arg - String.length rel) in
  match root +:+ String.concat "/" (List.filter kept_part (Str.split "/" rel)) with
  | EmptyString => "."
  | text => text
  end.

(** [pathlib.Path(arg)]. *)
Definition PosixPath (arg : string) : Path := {| path_arg := posix_text arg |}.

Definition msg_both (s : string) : string :=
  "Invalid slug. Did you mean " +:+ s +:+
  ", without the leading and trailing slashes?".
Definition msg_leading (s : string) : string :=
  "Invalid slug. Did you mean " +:+ s +:+ ", without the leading slash?".
Definition msg_trailing (s : string) : string :=
  "Invalid slug. Did you mean " +:+ s +:+ ", without the trailing slash?".

Definition _parse_slug (w : SlugWorld) (slug : string) (offline : bool)
    : outcome (string * string * string * Path) :=
  if Str.startswith slug "/" && Str.endswith slug "/" then
    Raise (InvalidSlug (w_gettext w (msg_both (Str.strip "/" slug))))
  else if Str.startswith slug "/" then
    Raise (InvalidSlug (w_gettext w (msg_leading (Str.strip "/" slug))))
  else if Str.endswith slug "/" then
    Raise (InvalidSlug (w_gettext w (msg_trailing (Str.strip "/" slug))))
  else
    let idx := Str.find slug "/" (Str.find slug "/" 0 + 1) in
    if idx =? -1 then Raise (InvalidSlug slug)
    else
      let remainder := Str.slice_from (Z.to_nat (idx + 1)) slug in
      match Str.split "/" slug !! 0%nat, Str.split "/" slug !! 1%nat with
      | Some org, Some repo =>
          obind (parse_branch w slug org repo remainder offline)
            (fun '(branch, problem) =>
               Ok (org, repo, branch, PosixPath problem))
      | _, _ => Raise (PyExn "IndexError" "list index out of range")
      end.


(** ** A state and exception monad *)

(** A computation over a state [S]: it ends with a value or with an
    exception, in a new state.  [None] is kept for runs that leave the
    modelled fragment (an address with no object behind it, a read from a
    terminal that delivers nothing more); the program itself never produces
    it. *)
Definition M (S A : Type) : Type := S -> option (outcome A * S).

Definition ret {S A} (a : A) : M S A := fun st => Some (Ok a, st).

Definition raise {S A} (e : exn) : M S A := fun st => Some (Raise e, st).

Definition bind {S A B} (m : M S A) (k : A -> M S B) : M S B :=
  fun st =>
    match m st with
    | Some (Ok a, st') => k a st'
    | Some (Raise e, st') => Some (Raise e, st')
    | None => None
    end.

Definition lift {S A} (o : outcome A) : M S A := fun st => Some (o, st).

Notation "'let*' x ':=' m 'in' k" := (bind m (fun x => k))
  (at level 10, x pattern, m at level 100, k at level 200).

(** [for x in xs: body(x)] *)
Fixpoint for_each {S A} (xs : list A) (body : A -> M S unit) : M S unit :=
  match xs with
  | [] => ret tt
  | x :: xs' => let* _ := body x in for_each xs' body
  end.

(** ** YAML values, dict objects and the object store *)

(** What [yaml.safe_load] builds below the two levels of dict objects that
    the merge works on (floats and dates are left out). *)
Inductive yaml : Type :=
  | YNone
  | YBool (b : bool)
  | YInt (n : Z)
  | YStr (s : string)
  | YList (items : list yaml)
  | YDict (items : list (string * yaml)).

(** [isinstance(v, list)] *)
Definition is_list (v : yaml) : bool :=
  match v with YList _ => true | _ => false end.

(** The built-in exceptions that occur.  Only the class of a [TypeError]
    matters below; the text Python gives it is not kept. *)
Definition KeyError (k : string) : exn := PyExn "KeyError" k.
Definition TypeError : exn := PyExn "TypeError" "unsupported operand".

(** [a + b] on these values. *)
Definition py_add (a b : yaml) : outcome yaml :=
  match a, b with
  | YList xs, YList ys => Ok (YList (xs ++ ys))
  | YStr s, YStr t => Ok (YStr (s +:+ t))
  | YInt m, YInt n => Ok (YInt (m + n))
  | YInt m, YBool c => Ok (YInt (m + Z.b2z c))
  | YBool b, YInt n => Ok (YInt (Z.b2z b + n))
  | YBool b, YBool c => Ok (YInt (Z.b2z b + Z.b2z c))
  | _, _ => Raise TypeError
  end.

(** A [dict] with [str] keys: its items in insertion order. *)
Module Dict.

Definition t (V : Type) : Type := list (string * V).

Fixpoint get {V} (k : string) (d : t V) : option V :=
  match d with
  | [] => None
  | (k', v) :: d' => if String.eqb k' k then Some v else get k d'
  end.

(** [k in d] *)
Definition has {V} (k : string) (d : t V) : bool :=
  match get k d with Some _ => true | None => false end.

(** [d[k] = v]: an existing key keeps its place, a new one goes last. *)
Fixpoint set {V} (k : string) (v : V) (d : t V) : t V :=
  match d with
  | [] => [(k, v)]
  | (k', v') :: d' =>
      if String.eqb k' k then (k', v) :: d' else (k', v') :: set k v d'
  end.

Definition keys {V} (d : t V) : list string := map fst d.

End Dict.

(** A tool's settings ([include], [required], ...) and a configuration (tool
    name to settings).  A configuration holds the addresses of its sections:
    an alias in the YAML text makes two tools hold the same address.  The
    dict objects of the store are thus the configurations and their
    sections, the objects [_merge_cs50_yaml] indexes and writes; what a
    section holds under a key is kept as a value, and a document in which
    such a value is itself, by an alias, one of these dict objects is not
    covered. *)
Abbreviation section := (Dict.t yaml).
Abbreviation config := (Dict.t nat).

Record store : Type := {
  configs : list (Dict.t nat);
  sections : list (Dict.t yaml)
}.

Definition read_config (a : nat) : M store config :=
  fun st => match configs st !! a with
            | Some c => Some (Ok c, st)
            | None => None
            end.

Definition read_section (a : nat) : M store section :=
  fun st => match sections st !! a with
            | Some s => Some (Ok s, st)
            | None => None
            end.

Definition set_config (st : store) (a : nat) (c : config) : store :=
  {| configs := <[a := c]> (configs st); sections := sections st |}.

Definition set_section (st : store) (a : nat) (s : section) : store :=
  {| configs := configs st; sections := <[a := s]> (sections st) |}.

Definition write_config (a : nat) (c : config) : M store unit :=
  fun st => Some (Ok tt, set_config st a c).

Definition write_section (a : nat) (s : section) : M store unit :=
  fun st => Some (Ok tt, set_section st a s).

(** [k in d], [d[k]], [d[k] = v] and [for k in d] on the dict object at an
    address. *)
Definition config_contains (a : nat) (k : string) : M store bool :=
  let* c := read_config a in ret (Dict.has k c).

Definition config_getitem (a : nat) (k : string) : M store nat :=
  let* c := read_config a in
  match Dict.get k c with
  | Some v => ret v
  | None => raise (KeyError k)
  end.

Definition config_setitem (a : nat) (k : string) (v : nat) : M store unit :=
  let* c := read_config a in write_config a (Dict.set k v c).

Definition config_keys (a : nat) : M store (list string) :=
  let* c := read_config a in ret (Dict.keys c).

Definition section_contains (a : nat) (k : string) : M store bool :=
  let* s := read_section a in ret (Dict.has k s).

Definition section_getitem (a : nat) (k : string) : M store yaml :=
  let* s := read_section a in
  match Dict.get k s with
  | Some v => ret v
  | None => raise (KeyError k)
  end.

Definition section_setitem (a : nat) (k : string) (v : yaml) : M store unit :=
  let* s := read_section a in write_section a (Dict.set k v s).

Definition section_keys (a : nat) : M store (list string) :=
  let* s := read_section a in ret (Dict.keys s).

(** ** [copy.deepcopy] of a configuration *)

(** The copy of the items of the top-level dict.  [memo] is deepcopy's memo
    table: a section met a second time is not copied again, so two tools
    that shared a section share its copy.  The values inside a section are
    never written by this program, and are kept as they are. *)
Fixpoint deepcopy_items (items : Dict.t nat) (memo : gmap nat nat)
    (secs : list (Dict.t yaml))
    : option (list (string * nat) * gmap nat nat * list (Dict.t yaml)) :=
  match items with
  | [] => Some ([], memo, secs)
  | (tool, a) :: items' =>
      match memo !! a with
      | Some a' =>
          '(copied, memo', secs') ← deepcopy_items items' memo secs;
          Some ((tool, a') :: copied, memo', secs')
      | None =>
          s ← secs !! a;
          '(copied, memo', secs') ←
            deepcopy_items items' (<[a := length secs]> memo) (secs ++ [s]);
          Some ((tool, length secs) :: copied, memo', secs')
      end
  end.

Definition deepcopy (a : nat) : M store nat :=
  fun st =>
    match configs st !! a with
    | Some c =>
        '(copied, _, secs') ← deepcopy_items c ∅ (sections st);
        Some (Ok (length (configs st)),
              {| configs := configs st ++ [copied]; sections := secs' |})
    | None => None
    end.

(** ** [_merge_cs50_yaml] *)

(** The body of [for key in cs50[tool]]. *)
Definition merge_key (cs50 root_cs50 result : nat) (tool key : string)
    : M store unit :=
  let* r := config_getitem root_cs50 tool in
  let* present := section_contains r key in
  let* append :=
    (if present then
       let* r := config_getitem root_cs50 tool in
       let* v := section_getitem r key in
       ret (is_list v)
     else ret false) in
  if append then
    let* t := config_getitem result tool in
    let* x := section_getitem t key in
    let* l := config_getitem cs50 tool in
    let* y := section_getitem l key in
    let* z := lift (py_add x y) in
    let* t := config_getitem result tool in
    section_setitem t key z
  else
    let* l := config_getitem cs50 tool in
    let* y := section_getitem l key in
    let* t := config_getitem result tool in
    section_setitem t key y.

(** The body of [for tool in cs50]. *)
Definition merge_tool (cs50 root_cs50 result : nat) (tool : string)
    : M store unit :=
  let* present := config_contains root_cs50 tool in
  if negb present then
    let* l := config_getitem cs50 tool in
    config_setitem result tool l
  else
    let* l := config_getitem cs50 tool in
    let* keys := section_keys l in
    for_each keys (merge_key cs50 root_cs50 result tool).

Definition _merge_cs50_yaml (cs50 root_cs50 : nat) : M store nat :=
  let* result := deepcopy root_cs50 in
  let* tools := config_keys cs50 in
  let* _ := for_each tools (merge_tool cs50 root_cs50 result) in
  ret result.

(** ** Stating the results of a merge *)

(** [d[tool][key]] read from a store, for stating results. *)
Definition lookup (st : store) (cfg : nat) (tool key : string) : option yaml :=
  c ← configs st !! cfg;
  a ← Dict.get tool c;
  s ← sections st !! a;
  Dict.get key s.

Definition has_tool (st : store) (cfg : nat) (tool : string) : bool :=
  match configs st !! cfg with
  | Some c => Dict.has tool c
  | None => false
  end.

(** A store as Python keeps it: the keys of a dict are distinct, and a
    configuration holds addresses of sections that exist. *)
Definition store_ok (st : store) : Prop :=
  Forall (fun c : Dict.t nat =>
            NoDup (Dict.keys c) /\
            Forall (fun ta : string * nat => (ta.2 < length (sections st))%nat) c)
         (configs st) /\
  Forall (fun s : Dict.t yaml => NoDup (Dict.keys s)) (sections st).

(** Whether [d[k]] exists and is a list. *)
Definition is_list_at (k : string) (d : Dict.t yaml) : bool :=
  match Dict.get k d with
  | Some v => is_list v
  | None => false
  end.

(** What [for key in cs50[tool]] does to the section [sa] it writes, in
    terms of the root section [sr] and the local section [sl] it reads: the
    outcome of the loop over the keys [ks] and the section left behind. *)
Fixpoint merge_keys (sr sl : Dict.t yaml) (ks : list string) (sa : Dict.t yaml)
    : outcome unit * Dict.t yaml :=
  match ks with
  | [] => (Ok tt, sa)
  | k :: ks' =>
      match Dict.get k sl with
      | None => (Raise (KeyError k), sa)
      | Some y =>
          if is_list_at k sr then
            match Dict.get k sa with
            | None => (Raise (KeyError k), sa)
            | Some x =>
                match py_add x y with
                | Ok z => merge_keys sr sl ks' (Dict.set k z sa)
                | Raise e => (Raise e, sa)
                end
            end
          else merge_keys sr sl ks' (Dict.set k y sa)
      end
  end.

(** While the merge works on [tool]: the three configurations, with the
    items [cr], [cl] and [cres], and the three sections in play, the root's
    at [ra] holding [sr], the local one at [la] holding [sl], and the one
    that is written, at [a], holding [sa]. *)
Definition tool_ready (cs50 root_cs50 result : nat) (tool : string)
    (cr cl cres : Dict.t nat) (ra la a : nat) (sr sl : Dict.t yaml)
    (st : store) (sa : Dict.t yaml) : Prop :=
  configs st !! root_cs50 = Some cr /\ Dict.get tool cr = Some ra /\
  sections st !! ra = Some sr /\
  configs st !! cs50 = Some cl /\ Dict.get tool cl = Some la /\
  sections st !! la = Some sl /\
  configs st !! result = Some cres /\ Dict.get tool cres = Some a /\
  sections st !! a = Some sa.

(** The section [sa] still has every key of [sr], with a list wherever [sr]
    has one. *)
Definition covers (sr sa : Dict.t yaml) : Prop :=
  forall k v, Dict.get k sr = Some v ->
    exists v', Dict.get k sa = Some v' /\ (is_list v = true -> is_list v' = true).

(** deepcopy's memo table [memo], midway: the sections [secs] are the
    original ones [orig] and then the copies made so far; the table sends an
    original address to the address of its copy, and no two to the same. *)
Definition memo_ok (orig : list (Dict.t yaml)) (memo : gmap nat nat)
    (secs : list (Dict.t yaml)) : Prop :=
  (exists news, secs = orig ++ news) /\
  (forall ra a, memo !! ra = Some a ->
     (length orig <= a)%nat /\
     exists s, orig !! ra = Some s /\ secs !! a = Some s) /\
  (forall ra ra' a, memo !! ra = Some a -> memo !! ra' = Some a -> ra = ra').

(** What holds of the store all along the merge, after the deep copy:
    the one new configuration and the new sections come after the objects
    of the store [st0] the merge started from, which are as they were; the
    new configuration sends each tool of the root (items [cr]) to the copy
    of its section; and each copy still covers its original. *)
Definition merge_inv (st0 : store) (cr : Dict.t nat) (memo : gmap nat nat)
    (st : store) : Prop :=
  exists cres news,
    configs st = configs st0 ++ [cres] /\
    sections st = sections st0 ++ news /\
    (forall tool ra, Dict.get tool cr = Some ra ->
       exists a, memo !! ra = Some a /\ Dict.get tool cres = Some a) /\
    (forall ra a, memo !! ra = Some a ->
       (length (sections st0) <= a)%nat /\
       exists sr sa, sections st0 !! ra = Some sr /\
                     sections st !! a = Some sa /\ covers sr sa) /\
    (forall ra ra' a, memo !! ra = Some a -> memo !! ra' = Some a -> ra = ra').

(** No tool that both configurations have (items [cl] and [cr]) shares its
    section of the root with another tool of the root. *)
Definition unshared (cr cl : Dict.t nat) : Prop :=
  forall tool tool' ra,
    tool ∈ Dict.keys cl ->
    Dict.get tool cr = Some ra -> Dict.get tool' cr = Some ra ->
    tool' = tool.

(** For [tool], no key holds a list in the root and something else
    locally. *)
Definition no_clash (st0 : store) (cs50 root_cs50 : nat) (tool : string) : Prop :=
  forall key xs v,
    lookup st0 root_cs50 tool key = Some (YList xs) ->
    lookup st0 cs50 tool key = Some v ->
    is_list v = true.

(** The merge rule in the words of the specification, for one tool and one
    key: [local] and [root] are the values on each side, if any.  The root's
    sequence followed by the local one when both are there and the root's is
    a sequence (nothing when the local value is then not a sequence); else
    the local value when there is one; else the root's. *)
Definition merged_value (local root : option yaml) : option yaml :=
  match local, root with
  | Some y, Some (YList xs) =>
      match y with
      | YList ys => Some (YList (xs ++ ys))
      | _ => None
      end
  | Some y, _ => Some y
  | None, _ => root
  end.

(** The same, exactly, when no two tools of the root share a section: once
    the tools [done] have been merged, the new configuration sends a tool of
    the root to the copy of its section and a merged tool that the root
    lacks to its local section; and the copy for a tool holds, key by key,
    the merged value if the tool has been merged and the root's value if it
    has not. *)
Definition merge_exact_inv (st0 : store) (cs50 : nat) (cr cl : Dict.t nat)
    (memo : gmap nat nat) (done : list string) (st : store) : Prop :=
  exists cres news,
    configs st = configs st0 ++ [cres] /\
    sections st = sections st0 ++ news /\
    (forall tool,
       Dict.get tool cres =
         match Dict.get tool cr with
         | Some ra => memo !! ra
         | None => if decide (tool ∈ done) then Dict.get tool cl else None
         end) /\
    (forall tool ra, Dict.get tool cr = Some ra ->
       exists a sr sa,
         memo !! ra = Some a /\ (length (sections st0) <= a)%nat /\
         sections st0 !! ra = Some sr /\ sections st !! a = Some sa /\
         forall key,
           Dict.get key sa =
             if decide (tool ∈ done)
             then merged_value (lookup st0 cs50 tool key) (Dict.get key sr)
             else Dict.get key sr).


(** ** Fetching and loading configuration: [connect] *)

(** What [yaml.safe_load] returns for a mapping of tools to mappings: the
    sections it built, and for each tool the index of its section among
    them. *)
Record document : Type := {
  doc_config : list (string * nat);
  doc_sections : list (Dict.t yaml)
}.

(** The outside world of [connect], besides the one of slug resolution.
    - [w_requests_get url] answers [requests.get(url)] with [r.ok] and
      [r.content];
    - [w_safe_load content] answers [yaml.safe_load(content)];
    - [w_isfile f] answers [os.path.isfile(f)];
    - [w_joinpath p name] is the text of [p / name]. *)
Record FetchWorld : Type := {
  w_requests_get : string -> outcome (bool * string);
  w_safe_load : string -> outcome document;
  w_isfile : string -> bool;
  w_joinpath : Path -> string -> string
}.

Definition _get_content_from (w : SlugWorld) (fw : FetchWorld)
    (org repo branch filepath : string) : outcome string :=
  let url := "https://github.com/" +:+ org +:+ "/" +:+ repo +:+ "/raw/"
             +:+ branch +:+ "/" +:+ filepath in
  obind (w_requests_get fw url)
    (fun '(ok, content) =>
       if negb ok then
         Raise (Error (w_gettext w
                  "Invalid slug. Did you mean to submit something else?"))
       else Ok content).

(** The objects of a loaded document are new objects of the store: its
    sections come after the sections there are, and its configuration
    after the configurations. *)
Definition install (d : document) (st : store) : store :=
  let off := length (sections st) in
  {| configs := configs st ++
                [map (fun '(tool, a) => (tool, (off + a)%nat)) (doc_config d)];
     sections := sections st ++ doc_sections d |}.

Definition load (d : document) : M store nat :=
  fun st => Some (Ok (length (configs st)), install d st).

Definition safe_load (fw : FetchWorld) (content : string) : M store nat :=
  let* d := lift (w_safe_load fw content) in load d.

(** The items of a list of strings; [None] for any other value. *)
Fixpoint str_items (items : list yaml) : option (list string) :=
  match items with
  | [] => Some []
  | YStr s :: items' => cons s <$> str_items items'
  | _ :: _ => None
  end.

Definition newline : string := String LF EmptyString.

Definition _check_required (w : SlugWorld) (fw : FetchWorld) (tool_yaml : nat)
    : M store unit :=
  let* s := read_section tool_yaml in
  match Dict.get "required" s with
  | None => ret tt
  | Some (YList items) =>
      match str_items items with
      | Some files =>
          let missing := List.filter (fun f => negb (w_isfile fw f)) files in
          match missing with
          | [] => ret tt
          | _ :: _ =>
              raise (Error (w_gettext w "You seem to be missing these files:"
                            +:+ newline +:+ String.concat newline missing
                            +:+ newline +:+
                            w_gettext w "Ensure you have the required files before submitting."))
          end
      | None => fun _ => None
      end
  | Some _ => fun _ => None
  end.

(** The end of [connect], on the configuration at [cs50_yaml]: the check of
    the required files of the tool, and the return of its section. *)
Definition connect_finish (w : SlugWorld) (fw : FetchWorld) (tool : string)
    (cs50_yaml : nat) : M store nat :=
  let* t := config_getitem cs50_yaml tool in
  let* _ := _check_required w fw t in
  config_getitem cs50_yaml tool.

(** [connect(org, branch, tool)]; the progress bar it shows is left out. *)
Definition connect (w : SlugWorld) (fw : FetchWorld) (org branch tool : string)
    : M store nat :=
  let* parsed := lift (_parse_slug w branch false) in
  let '(problem_org, problem_repo, problem_branch, problem_dir) := parsed in
  let* cs50_yaml_content :=
    lift (_get_content_from w fw problem_org problem_repo problem_branch
            (w_joinpath fw problem_dir ".cs50.yaml")) in
  let* cs50_yaml := safe_load fw cs50_yaml_content in
  let* present := config_contains cs50_yaml tool in
  if negb present then
    raise (InvalidSlug ("Invalid slug for " +:+ tool +:+
                        ", did you mean something else?"))
  else
    let* cs50_yaml :=
      match _get_content_from w fw problem_org problem_repo problem_branch
              ".cs50.yaml" with
      | Raise e => if is_Error e then ret cs50_yaml else raise e
      | Ok root_cs50_yaml_content =>
          let* root_cs50_yaml := safe_load fw root_cs50_yaml_content in
          _merge_cs50_yaml cs50_yaml root_cs50_yaml
      end in
    connect_finish w fw tool cs50_yaml.

(** ** Authentication *)

(** [User = namedtuple("User", ["name", "password", "email", "repo"])];
    [password=None] is [None]. *)
Record User : Type := {
  name : string;
  password : option string;
  email : string;
  repo : string
}.

(** An argument handed to GitPython: a string, or a Python object named in
    the source without quotes. *)
Inductive py_arg : Type :=
  | PyStr (s : string)
  | PyName (ident : string).

(** A call of a method of [git(c=config)] with positional arguments,
    keyword arguments and an [istream]. *)
Record git_call : Type := {
  g_config : list string;
  g_method : string;
  g_args : list py_arg;
  g_kwargs : list (string * string);
  g_stdin : option string
}.

(** What the program does to the world while it authenticates, in order. *)
Inductive event : Type :=
  | EMkdir (path : string)
  | ESpawn (cmd : string)
  | ESendline (cmd line : string)
  | EExpect (cmd : string) (patterns : list string)
  | EClose (cmd : string)
  | EInput (prompt : string)
  | EGetPassword (prompt : string)
  | EHttpGet (url : string) (username password : option string)
  | ELogDebug (what : string)
  | EGit (c : git_call)
  | EProgressStop.

(** [child.expect(patterns)] returns the index of the pattern that matched;
    [child.match.groups()] is then the text of its groups. *)
Record expect_result : Type := {
  matched : nat;
  groups : list string
}.

Record response : Type := {
  status_code : Z;
  headers : list (string * string);
  text : string;
  json_login : outcome string
}.

(** The outside world of authentication: the answer to each call.  Child
    processes are named by the command that spawned them; closing one is
    recorded and has no answer. *)
Record AuthWorld : Type := {
  w_home : string;
  w_mkdir : string -> outcome unit;
  w_spawn : string -> outcome unit;
  w_sendline : string -> outcome unit;
  w_expect : string -> outcome expect_result;
  w_input : string -> outcome string;
  w_get_password : string -> outcome string;
  w_api : string -> option string -> option string -> outcome response;
  w_git : git_call -> outcome string
}.

Definition IO (A : Type) : Type := M (list event) A.

(** One call to the world: it is recorded, and answered. *)
Definition call {A} (e : event) (answer : outcome A) : IO A :=
  fun trace => Some (answer, trace ++ [e]).

(** [try: m except: h(e)], the handler given the exception caught. *)
Definition try_catch {S A} (m : M S A) (h : exn -> M S A) : M S A :=
  fun st =>
    match m st with
    | Some (Raise e, st') => h e st'
    | r => r
    end.

Definition CR : ascii := ascii_of_nat 13.

Definition ssh_cmd : string := "ssh git@github.com".

Definition ssh_patterns : list string :=
  ["Hi (.+)! You've successfully authenticated";
   "Enter passphrase for key";
   "Permission denied";
   "Are you sure you want to continue connecting"].

(** [_authenticate_ssl(org)], a context manager: [body] is the block of the
    [with] statement, run at the [yield] with the value yielded. *)
Definition _authenticate_ssl {A} (w : AuthWorld) (org : string)
    (body : option User -> IO A) : IO A :=
  let* _ := call (ESpawn ssh_cmd) (w_spawn w ssh_cmd) in
  let* m := call (EExpect ssh_cmd ssh_patterns) (w_expect w ssh_cmd) in
  let* _ := call (EClose ssh_cmd) (Ok tt) in
  if (matched m =? 0)%nat then
    match groups m !! 0%nat with
    | Some username =>
        body (Some {| name := username;
                      password := None;
                      email := username +:+ "@users.noreply.github.com";
                      repo := "git@github.com/" +:+ org +:+ "/" +:+ username |})
    | None => raise (PyExn "IndexError" "tuple index out of range")
    end
  else body None.

(** The white space of [str.strip()] among the ASCII characters: tab to
    carriage return, the four separators FS to US, and the space. *)
Definition is_space (a : ascii) : bool :=
  let n := nat_of_ascii a in
  ((9 <=? n) && (n <=? 13) || (28 <=? n) && (n <=? 32))%nat.

Fixpoint lstrip_space (s : string) : string :=
  match s with
  | EmptyString => EmptyString
  | String a s' => if is_space a then lstrip_space s' else s
  end.

Fixpoint rstrip_space (s : string) : string :=
  match s with
  | EmptyString => EmptyString
  | String a s' =>
      match rstrip_space s' with
      | EmptyString => if is_space a then EmptyString else String a EmptyString
      | r => String a r
      end
  end.

Definition is_EOFError (e : exn) : bool :=
  match e with PyExn "EOFError" _ => true | _ => false end.

(** [_get_username(prompt)]: the line read, stripped; [None] at end of
    input. *)
Definition _get_username (w : AuthWorld) (prompt : string)
    : IO (option string) :=
  try_catch
    (let* line := call (EInput prompt) (w_input w prompt) in
     ret (Some (rstrip_space (lstrip_space line))))
    (fun e => if is_EOFError e then ret None else raise e).

(** [_get_password(prompt)]: the masked read from the terminal, taken from
    the world. *)
Definition _get_password (w : AuthWorld) (prompt : string) : IO string :=
  call (EGetPassword prompt) (w_get_password w prompt).

Definition lower (a : ascii) : ascii :=
  let n := nat_of_ascii a in
  if ((65 <=? n) && (n <=? 90))%nat then ascii_of_nat (n + 32) else a.

Fixpoint lower_str (s : string) : string :=
  match s with
  | EmptyString => EmptyString
  | String a s' => String (lower a) (lower_str s')
  end.

(** [name in res.headers]: the headers of a response compare without
    case. *)
Definition header_in (h : string) (hs : list (string * string)) : bool :=
  existsb (fun '(k, _) => String.eqb (lower_str k) (lower_str h)) hs.

(** [bool(x)] for an optional string: [None] and the empty string are
    false. *)
Definition truthy (x : option string) : bool :=
  match x with
  | None | Some EmptyString => false
  | Some _ => true
  end.

(** [_file_buffer(contents)]: [writelines] writes the items one after the
    other, with nothing between them. *)
Definition _file_buffer (contents : list string) : string :=
  String.concat "" contents.

Definition two_factor_msg : string :=
  "Looks like you have two-factor authentication enabled!" +:+
  " Please generate a personal access token and use it as your password." +:+
  " See https://help.github.com/articles/creating-a-personal-access-token-for-the-command-line for more info.".

Definition invalid_msg : string := "Invalid username and/or password.".
Definition failed_msg : string := "Could not authenticate user.".

Definition fill_cmd (socket : string) : string :=
  "git -c credential.helper='cache --socket " +:+ socket +:+ "' credential fill".

Definition fill_patterns : list string :=
  ["Username:"; "Password:";
   "username=([^" +:+ String CR "]+)" +:+ String CR (String LF "password=([^")
     +:+ String CR "]+)"].

Definition approve_call (username : string) (password : option string) : git_call :=
  {| g_config := ["credential.helper='cache --socket {socket} --timeout {timeout}";
                  "credentialcache.ignoresighub=true"];
     g_method := "credential";
     g_args := [PyStr "approve"];
     g_kwargs := [];
     g_stdin := Some (_file_buffer
                  ["username=" +:+ username;
                   "password=" +:+ default "None" password]) |}.

Definition cache_exit_call (socket : string) : git_call :=
  {| g_config := [];
     g_method := "credential_cache";
     g_args := [PyName "exit"];
     g_kwargs := [("socket", socket)];
     g_stdin := None |}.

Definition keychain_erase_call : git_call :=
  {| g_config := [];
     g_method := "credential_osxkeychain";
     g_args := [PyStr "erase"];
     g_kwargs := [];
     g_stdin := Some (_file_buffer ["host=github.com"; "protocol=https"]) |}.

Definition git (w : AuthWorld) (c : git_call) : IO string :=
  call (EGit c) (w_git w c).

Definition api_url : string := "https://api.github.com/user".

(** The [try] block of [_authenticate_https], in two parts.  First the
    credentials: from the cache through [git credential fill], or else
    asked of the user. *)
Definition https_credentials (w : AuthWorld) (socket : string)
    : IO (option string * option string) :=
  let cmd := fill_cmd socket in
  let* _ := call (ESpawn cmd) (w_spawn w cmd) in
  let* _ := call (ESendline cmd "") (w_sendline w cmd) in
  let* m := call (EExpect cmd fill_patterns) (w_expect w cmd) in
  let* cached :=
    (if (matched m =? 2)%nat then
       match groups m with
       | [u; p] => ret (Some u, Some p)
       | _ => raise (PyExn "ValueError" "unpack")
       end
     else ret (None, None)) in
  let* _ := call (EClose cmd) (Ok tt) in
  if negb (truthy (snd cached)) then
    let* u := _get_username w "Github username: " in
    let* p := _get_password w "Github password: " in
    ret (u, Some p)
  else ret cached.

(** Then their validation against the API, the approval into the cache and
    the [yield]: [body] is the block of the [with] statement. *)
Definition https_validate {A} (w : AuthWorld) (org : string)
    (username password : option string) (body : User -> IO A) : IO A :=
  let* res := call (EHttpGet api_url username password)
                (w_api w api_url username password) in
  if header_in "X-GitHub-OTP" (headers res) then raise (Error two_factor_msg)
  else if negb (status_code res =? 200) then
    let* _ := call (ELogDebug "headers") (Ok tt) in
    let* _ := call (ELogDebug "text") (Ok tt) in
    raise (Error (if status_code res =? 401 then invalid_msg else failed_msg))
  else
    let* username := lift (json_login res) in
    let* _ := git w (approve_call username password) in
    body {| name := username;
            password := password;
            email := username +:+ "@users.noreply.github.com";
            repo := "https://" +:+ username +:+ "@github.com/" +:+ org
                    +:+ "/" +:+ username |}.

Definition https_try {A} (w : AuthWorld) (org socket : string)
    (body : User -> IO A) : IO A :=
  let* credentials := https_credentials w socket in
  https_validate w org (fst credentials) (snd credentials) body.

(** The [except:] clause of [_authenticate_https], for the exception [e]
    it caught. *)
Definition https_except {A} (w : AuthWorld) (socket : string) (e : exn) : IO A :=
  let* _ := git w (cache_exit_call socket) in
  let* _ := try_catch
              (let* _ := git w keychain_erase_call in ret tt)
              (fun e' => if is_GitError e' then ret tt else raise e') in
  raise e.

Definition cache_dir (w : AuthWorld) : string :=
  w_home w +:+ "/.git-credential-cache".

Definition socket_path (w : AuthWorld) : string := cache_dir w +:+ "/push50".

Definition _authenticate_https {A} (w : AuthWorld) (org : string)
    (body : User -> IO A) : IO A :=
  let* _ := call (EMkdir (cache_dir w)) (w_mkdir w (cache_dir w)) in
  try_catch (https_try w org (socket_path w) body)
            (https_except w (socket_path w)).

(** A context manager yields [x] after the events [evs] and does nothing
    more: whatever the block of the [with] statement is, running the
    statement is running the block on [x], [evs] later. *)
Definition yields {X} (cm : forall A, (X -> IO A) -> IO A) (x : X)
    (evs : list event) : Prop :=
  forall A (body : X -> IO A) (t : list event),
    cm A body t = body x (t ++ evs).

(** It fails with [e] after the events [evs], before any [yield]. *)
Definition fails {X} (cm : forall A, (X -> IO A) -> IO A) (e : exn)
    (evs : list event) : Prop :=
  forall A (body : X -> IO A) (t : list event),
    cm A body t = Some (Raise e, t ++ evs).

(** It yields [x] after the events [evs] with the handler [h] around the
    block of the [with] statement. *)
Definition yields_under {X} (cm : forall A, (X -> IO A) -> IO A)
    (h : forall A, exn -> IO A) (x : X) (evs : list event) : Prop :=
  forall A (body : X -> IO A) (t : list event),
    cm A body t = try_catch (body x) (h A) (t ++ evs).

(** [authenticate(org)]: SSH first, HTTPS when SSH yields nothing. *)
Definition authenticate {A} (w : AuthWorld) (org : string)
    (body : User -> IO A) : IO A :=
  let* r := _authenticate_ssl w org
              (fun user =>
                 match user with
                 | Some u => let* x := body u in ret (Some x)
                 | None => ret None
                 end) in
  match r with
  | Some x => ret x
  | None =>
      let* _ := call EProgressStop (Ok tt) in
      _authenticate_https w org body
  end.

(** ** [check_dependencies] *)

(** What [check_dependencies] asks of the system: [shutil.which(cmd)], and
    [subprocess.check_output(argv).decode("utf-8")]. *)
Record DepWorld : Type := {
  w_which : string -> option string;
  w_check_output : list string -> outcome string
}.

(** [\d], on ASCII text. *)
Definition is_digit (c : ascii) : bool :=
  let n := nat_of_ascii c in
  ((48 <=? n) && (n <=? 57))%nat.

(** [\d+] where it is greedy: the digits at the head of [s], and what
    follows them. *)
Fixpoint span_digits (s : string) : string * string :=
  match s with
  | EmptyString => (EmptyString, EmptyString)
  | String c s' =>
      if is_digit c then
        let '(ds, rest) := span_digits s' in (String c ds, rest)
      else (EmptyString, s)
  end.

(** [.*$]: there is no line feed before the end of the text, or before the
    line feed that ends it. *)
Fixpoint to_end_of_line (s : string) : bool :=
  match s with
  | EmptyString => true
  | String c s' =>
      if Ascii.eqb c LF then String.eqb s' "" else to_end_of_line s'
  end.

(** [s] without the prefix [p], if it starts with it. *)
Definition strip_prefix (p s : string) : option string :=
  if Str.startswith s p then Some (Str.slice_from (String.length p) s)
  else None.

(** [\d+\.] *)
Definition digits_dot (s : string) : option (string * string) :=
  let '(ds, rest) := span_digits s in
  match ds with
  | EmptyString => None
  | String _ _ => r ← strip_prefix "." rest; Some (ds, r)
  end.

(** [re.search(r"^git version (\d+\.\d+\.\d+).*$", version)]: the first
    group of the match, if there is one.  Without flags [^] is the start of
    the text, so the search has one place to try; and a run of digits must
    be taken whole, since what follows it in the pattern is no digit, or
    is [.*$], which does not succeed earlier where it fails later. *)
Definition search_git_version (version : string) : option string :=
  r0 ← strip_prefix "git version " version;
  '(major, r1) ← digits_dot r0;
  '(minor, r2) ← digits_dot r1;
  let '(patch, r3) := span_digits r2 in
  match patch with
  | EmptyString => None
  | String _ _ =>
      if to_end_of_line r3
      then Some (major +:+ "." +:+ minor +:+ "." +:+ patch)
      else None
  end.

Definition digit_value (c : ascii) : N := N.of_nat (nat_of_ascii c - 48).

(** [int(s)] for a string of digits. *)
Fixpoint int_from (acc : N) (s : string) : N :=
  match s with
  | EmptyString => acc
  | String c s' => int_from (10 * acc + digit_value c)%N s'
  end.

Definition int (s : string) : N := int_from 0%N s.

(** Versions compare by their release numbers with the zeros at the end
    left out. *)
Fixpoint drop_trailing_zeros (xs : list N) : list N :=
  match xs with
  | [] => []
  | x :: xs' =>
      match drop_trailing_zeros xs' with
      | [] => if (x =? 0)%N then [] else [x]
      | r => x :: r
      end
  end.

(** What [pkg_resources.parse_version(v)] compares by, for a [v] made of
    numbers and dots. *)
Definition parse_version (v : string) : list N :=
  drop_trailing_zeros (map int (Str.split "." v)).

(** [a < b] on tuples of numbers. *)
Fixpoint tuple_lt (a b : list N) : bool :=
  match a, b with
  | _, [] => false
  | [], _ :: _ => true
  | x :: a', y :: b' => (x <? y)%N || ((x =? y)%N && tuple_lt a' b')
  end.

Definition no_git_msg : string :=
  "You don't have git. Install git, then re-run!".
Definition old_git_msg : string :=
  "You have an old version of git. Install version 2.7 or later, then re-run!".

Definition check_dependencies (w : SlugWorld) (dw : DepWorld) : outcome unit :=
  if negb (truthy (w_which dw "git")) then
    Raise (Error (w_gettext w no_git_msg))
  else
    obind (w_check_output dw ["git"; "--version"])
      (fun version =>
         match search_git_version version with
         | None => Raise (Error (w_gettext w old_git_msg))
         | Some found =>
             if tuple_lt (parse_version found) (parse_version "2.7.0")
             then Raise (Error (w_gettext w old_git_msg))
             else Ok tt
         end).

(** ** [_convert_yaml_to_exclude], [prepare], [upload] and [push] *)

(** What [prepare] asks of the system: [Repo.clone_from(url, git_dir,
    bare=True)] into a fresh temporary directory, and [glob.glob(pattern)]. *)
Record PrepWorld : Type := {
  w_clone_from : string -> outcome unit;
  w_glob : string -> list string
}.

(** [req not in includes] *)
Definition not_in (req : string) (includes : list string) : bool :=
  negb (existsb (String.eqb req) includes).

(** [_convert_yaml_to_exclude(tool_yaml)], for a section whose [include] and
    [required] are lists of strings; [None] for any other section. *)
Definition _convert_yaml_to_exclude (pw : PrepWorld) (tool_yaml : Dict.t yaml)
    : option string :=
  if negb (Dict.has "include" tool_yaml) then Some EmptyString
  else
    match Dict.get "include" tool_yaml with
    | Some (YList items) =>
        patterns ← str_items items;
        let includes :=
          fold_left (fun includes include => includes ++ w_glob pw include)
            patterns [] in
        includes ←
          (if Dict.has "required" tool_yaml then
             match Dict.get "required" tool_yaml with
             | Some (YList reqs) =>
                 required ← str_items reqs;
                 Some (includes ++
                       List.filter (fun req => not_in req includes) required)
             | _ => None
             end
           else Some includes);
        Some ("*" +:+ String.concat ""
                        (map (fun i => newline +:+ "!" +:+ i) includes))
    | _ => None
    end.

Definition DQUOTE : ascii := ascii_of_nat 34.

Definition not_enabled_msg (org : string) : string :=
  "Looks like " +:+ org +:+ " isn't enabled for your account yet. " +:+
  "Go to https://cs50.me/authorize and make sure you accept any pending invitations!".

Definition wrong_username_msg (org : string) : string :=
  "Looks like you have the wrong username in ~/.gitconfig or " +:+ org +:+
  " isn't yet enabled for your account. " +:+
  "Double-check ~/.gitconfig and then log into https://cs50.me/ in a browser, " +:+
  "click " +:+ String DQUOTE "Authorize application" +:+
  String DQUOTE " if prompted, and re-run " +:+ org +:+ " here.".

(** [prepare(org, branch, user, tool_yaml)], on the section [tool_yaml]; the
    progress bar is left out.  What is still to be written in the source
    does nothing here either. *)
Definition prepare (w : SlugWorld) (pw : PrepWorld) (org branch : string)
    (user : User) (tool_yaml : Dict.t yaml) : option (outcome unit) :=
  match w_clone_from pw (repo user) with
  | Raise e =>
      if is_GitError e then
        Some (Raise (Error (w_gettext w
                (if truthy (password user) then not_enabled_msg org
                 else wrong_username_msg org))))
      else Some (Raise e)
  | Ok _ =>
      exclude ← _convert_yaml_to_exclude pw tool_yaml;
      Some (Ok tt)
  end.

(** [upload(branch, password)]: nothing yet. *)
Definition upload (branch : string) (password : User) : outcome unit := Ok tt.

(** A step that leaves the state alone. *)
Definition pure_step {S A} (o : option (outcome A)) : M S A :=
  fun st => r ← o; Some (r, st).

(** [push(org, branch, tool)], on a store of dict objects and a trace of
    what authentication does. *)
Definition push (w : SlugWorld) (dw : DepWorld) (fw : FetchWorld)
    (aw : AuthWorld) (pw : PrepWorld) (org branch tool : string)
    (st : store) (t : list event)
    : option (outcome unit * store * list event) :=
  match check_dependencies w dw with
  | Raise e => Some (Raise e, st, t)
  | Ok _ =>
      match connect w fw org branch tool st with
      | None => None
      | Some (Raise e, st') => Some (Raise e, st', t)
      | Some (Ok tool_yaml, st') =>
          match sections st' !! tool_yaml with
          | None => None
          | Some s =>
              match authenticate aw org
                      (fun user =>
                         let* _ := pure_step (prepare w pw org branch user s) in
                         lift (upload branch user)) t with
              | None => None
              | Some (r, t') => Some (r, st', t')
              end
          end
      end
  end.

(** ** Reading a password from the terminal *)

Module Terminal.

(** The terminal behind standard input: whether it is one, its settings,
    the bytes it will deliver, and what has been printed. *)
Inductive mode : Type := Cooked | Raw.

Record tty : Type := {
  is_a_tty : bool;
  settings : mode;
  pending : list ascii;
  screen : list string
}.

Definition termios_error : exn :=
  PyExn "termios.error" "Inappropriate ioctl for device".

(** [termios.tcgetattr(fd)] *)
Definition tcgetattr : M tty mode :=
  fun st =>
    if is_a_tty st then Some (Ok (settings st), st)
    else Some (Raise termios_error, st).

(** [termios.tcsetattr(fd, termios.TCSADRAIN, m)] *)
Definition tcsetattr (m : mode) : M tty unit :=
  fun st =>
    if is_a_tty st then
      Some (Ok tt, {| is_a_tty := is_a_tty st; settings := m;
                      pending := pending st; screen := screen st |})
    else Some (Raise termios_error, st).

(** [tty.setraw(fd)] *)
Definition setraw : M tty unit := tcsetattr Raw.

(** [print(s, end="", flush=True)] *)
Definition print (s : string) : M tty unit :=
  fun st =>
    Some (Ok tt, {| is_a_tty := is_a_tty st; settings := settings st;
                    pending := pending st; screen := screen st ++ [s] |}).

(** [sys.stdin.buffer.read(1)[0]] on a terminal that has a byte to deliver.
    A terminal in raw mode has no end of input: with nothing more to deliver
    the read waits, or the terminal has hung up; neither is modelled. *)
Definition read1 : M tty ascii :=
  fun st =>
    match pending st with
    | [] => None
    | ch :: rest =>
        Some (Ok ch, {| is_a_tty := is_a_tty st; settings := settings st;
                        pending := rest; screen := screen st |})
    end.

(** [try: m finally: final] *)
Definition try_finally {S A} (m : M S A) (final : M S unit) : M S A :=
  fun st =>
    match m st with
    | Some (r, st') =>
        match final st' with
        | Some (Ok _, st'') => Some (r, st'')
        | Some (Raise e, st'') => Some (Raise e, st'')
        | None => None
        end
    | None => None
    end.

Definition BS : ascii := ascii_of_nat 8.

(** What [print("\r")] writes, and the text that wipes one star. *)
Definition end_of_line : string := String CR (String LF EmptyString).
Definition wipe : string := String BS (String " " (String BS EmptyString)).

Definition KeyboardInterrupt : exn := PyExn "KeyboardInterrupt" "".
Definition IndexError (msg : string) : exn := PyExn "IndexError" msg.

(** The loop [while True] of [_get_password]; each turn reads a byte, and
    [fuel] bounds the turns. *)
Fixpoint read_password (fuel : nat) (password : list ascii)
    : M tty (list ascii) :=
  match fuel with
  | O => fun _ => None
  | S fuel' =>
      let* ch := read1 in
      let n := nat_of_ascii ch in
      if ((n =? 13) || (n =? 10) || (n =? 4))%nat then
        let* _ := print end_of_line in
        ret password
      else if (n =? 127)%nat then
        match password with
        | [] => raise (IndexError "pop from empty list")
        | _ :: _ =>
            let* _ := print wipe in
            read_password fuel' (removelast password)
        end
      else if (n =? 3)%nat then
        let* _ := print "^C" in
        raise KeyboardInterrupt
      else
        let* _ := print "*" in
        read_password fuel' (password ++ [ch])
  end.

(** [_get_password(prompt)]; [decode] is [bytes(password).decode()].  Every
    turn of the loop takes one byte, so there are no more turns than bytes
    waiting. *)
Definition _get_password (decode : list ascii -> outcome string)
    (prompt : string) : M tty string :=
  let* old_settings := tcgetattr in
  let* _ := setraw in
  let* _ := print prompt in
  let* password :=
    try_finally
      (fun st => read_password (length (pending st)) [] st)
      (tcsetattr old_settings) in
  lift (decode password).

(** What the loop of [_get_password] makes of the bytes [input], starting
    from the bytes [password] it has kept: how it ends, the input it leaves
    unread, and what it prints; nothing when the bytes run out before the
    loop ends. *)
Fixpoint run_keys (input password : list ascii)
    : option (outcome (list ascii) * list ascii * list string) :=
  match input with
  | [] => None
  | ch :: input' =>
      let n := nat_of_ascii ch in
      if ((n =? 13) || (n =? 10) || (n =? 4))%nat then
        Some (Ok password, input', [end_of_line])
      else if (n =? 127)%nat then
        match password with
        | [] => Some (Raise (IndexError "pop from empty list"), input', [])
        | _ :: _ =>
            match run_keys input' (removelast password) with
            | Some (r, rest, out) => Some (r, rest, wipe :: out)
            | None => None
            end
        end
      else if (n =? 3)%nat then Some (Raise KeyboardInterrupt, input', ["^C"])
      else
        match run_keys input' (password ++ [ch]) with
        | Some (r, rest, out) => Some (r, rest, "*" :: out)
        | None => None
        end
  end.

(** A byte that is kept: not Enter, ctrl-d, DEL or ctrl-c. *)
Definition ordinary (ch : ascii) : bool :=
  let n := nat_of_ascii ch in
  negb ((n =? 13) || (n =? 10) || (n =? 4) || (n =? 127) || (n =? 3))%nat.

Definition DEL : ascii := ascii_of_nat 127.

Definition with_input (st : tty) (input : list ascii) : tty :=
  {| is_a_tty := is_a_tty st; settings := settings st;
     pending := input; screen := screen st |}.

End Terminal.

(** The characters of a string, for comparing messages. *)
Definition chars : string -> list ascii := list_ascii_of_string.

(** [m] ends with [r] after the events [evs], from any trace. *)
Definition settles {A} (m : IO A) (r : outcome A) (evs : list event) : Prop :=
  forall t, m t = Some (r, t ++ evs).

(** [m] ends, and a value it returns satisfies [P]. *)
Definition decided {A} (P : A -> Prop) (m : IO A) : Prop :=
  exists r evs, settles m r evs /\ forall a, r = Ok a -> P a.

(** A number in decimal: one digit or more. *)
Definition numeral (s : string) : bool :=
  match s with
  | EmptyString => false
  | String _ _ => forallb is_digit (chars s)
  end.

(** The message of [_check_required] for the files [missing]. *)
Definition missing_msg (w : SlugWorld) (missing : list string) : string :=
  w_gettext w "You seem to be missing these files:" +:+ newline +:+
  String.concat newline missing +:+ newline +:+
  w_gettext w "Ensure you have the required files before submitting.".

(** ** Sample inputs *)

(** The example of the specification: the local configuration, at address
    0, is [{"a": {"include": ["x"]}, "b": {"req": 1}}] and the root one, at
    address 1, is [{"a": {"include": ["y"]}, "c": {"req": 2}}]. *)
Definition example_store : store :=
  {| configs := [ [("a", 0%nat); ("b", 1%nat)]; [("a", 2%nat); ("c", 3%nat)] ];
     sections := [ [("include", YList [YStr "x"])]; [("req", YInt 1)];
                   [("include", YList [YStr "y"])]; [("req", YInt 2)] ] |}.

(** A root where the local value is a string under a key that holds a list
    in the root: local [{"a": {"include": "x"}}] at address 0, root
    [{"a": {"include": ["y"]}}] at address 1. *)
Definition clash_store : store :=
  {| configs := [ [("a", 0%nat)]; [("a", 1%nat)] ];
     sections := [ [("include", YStr "x")]; [("include", YList [YStr "y"])] ] |}.

(** A root whose tools [a] and [b] are one section, as a YAML alias makes
    them ([a: &s {include: [y]}] and [b: *s]): local
    [{"a": {"include": ["x"]}}] at address 0, the root at address 1. *)
Definition aliased_store : store :=
  {| configs := [ [("a", 0%nat)]; [("a", 1%nat); ("b", 1%nat)] ];
     sections := [ [("include", YList [YStr "x"])];
                   [("include", YList [YStr "y"])] ] |}.

(** A world for slug resolution: no translation catalogue, a cached clone
    with the branches [master] and [master-v2], and no network. *)
Definition sample_world : SlugWorld :=
  {| w_gettext := fun s => s;
     w_local_branches := fun _ _ => Ok ["master"; "master-v2"];
     w_ls_remote := fun _ => Raise (GitError "could not resolve host") |}.

(** A first run against a repository to which nothing has been pushed yet:
    there is no cached clone, and [git ls-remote --heads] prints nothing. *)
Definition empty_remote_world : SlugWorld :=
  {| w_gettext := fun s => s;
     w_local_branches := fun _ _ => Raise (GitError "no such path");
     w_ls_remote := fun _ => Ok "" |}.

(** What is served for [cs50/problems2/master/hello]: a local configuration
    for [check50] with nothing required, and, when the root has one, a root
    configuration. *)
Definition sample_local : document :=
  {| doc_config := [("check50", 0%nat)];
     doc_sections := [ [("include", YList [YStr "hello.c"])] ] |}.

Definition sample_root : document :=
  {| doc_config := [("check50", 0%nat)];
     doc_sections := [ [("include", YList [YStr "Makefile"])] ] |}.

Definition root_url : string :=
  "https://github.com/cs50/problems2/raw/master/.cs50.yaml".

(** A world for [connect] in which the request for the root configuration
    is answered by [root]. *)
Definition sample_fetch (root : outcome (bool * string)) : FetchWorld :=
  {| w_requests_get := fun url =>
       if String.eqb url root_url then root else Ok (true, "local");
     w_safe_load := fun content =>
       if String.eqb content "local" then Ok sample_local else Ok sample_root;
     w_isfile := fun _ => true;
     w_joinpath := fun p file => path_arg p +:+ "/" +:+ file |}.

Definition empty_store : store := {| configs := []; sections := [] |}.

(** A world for authentication: SSH answers [ssh] and the API answers [res];
    nothing is cached, the user types [octocat] and a password, and git
    commands are answered by [git_answer]. *)
Definition sample_auth (ssh : outcome expect_result) (res : outcome response)
    (git_answer : git_call -> outcome string) : AuthWorld :=
  {| w_home := "/home/octocat";
     w_mkdir := fun _ => Ok tt;
     w_spawn := fun _ => Ok tt;
     w_sendline := fun _ => Ok tt;
     w_expect := fun cmd =>
       if String.eqb cmd ssh_cmd then ssh
       else Ok {| matched := 0; groups := [] |};
     w_input := fun _ => Ok "octocat";
     w_get_password := fun _ => Ok "hunter2";
     w_api := fun _ _ _ => res;
     w_git := git_answer |}.

Definition permission_denied : outcome expect_result :=
  Ok {| matched := 2; groups := [] |}.

(** A response with the two-factor header, and the status 401 that goes
    with it. *)
Definition two_factor_response : response :=
  {| status_code := 401;
     headers := [("X-GitHub-OTP", "required; sms")];
     text := "";
     json_login := Raise (PyExn "KeyError" "login") |}.

Definition git_works : git_call -> outcome string := fun _ => Ok "".


(** A system with git at [/usr/bin/git], which answers [version]. *)
Definition sample_deps (version : string) : DepWorld :=
  {| w_which := fun _ => Some "/usr/bin/git";
     w_check_output := fun _ => Ok version |}.

(** A world for slug resolution with no cached clone, where the remote
    lists the heads [master] and [2019/x]. *)
Definition sample_heads : list (string * string) :=
  [("a3f1c0de", "master"); ("77b2e9aa", "2019/x")].

Definition remote_world : SlugWorld :=
  {| w_gettext := fun s => s;
     w_local_branches := fun _ _ => Raise (GitError "no such path");
     w_ls_remote := fun _ =>
       Ok ("a3f1c0de" +:+ String TAB "refs/heads/master" +:+ newline +:+
           "77b2e9aa" +:+ String TAB "refs/heads/2019/x") |}.

(** A section that includes C sources and requires two files, one of them
    matched by the pattern. *)
Definition sample_section : Dict.t yaml :=
  [("include", YList [YStr "*.c"]);
   ("required", YList [YStr "hello.c"; YStr "README.md"])].

(** A system where [*.c] matches [hello.c] and [util.c], and where git
    refuses every clone. *)
Definition sample_prep : PrepWorld :=
  {| w_clone_from := fun _ => Raise (GitError "repository not found");
     w_glob := fun pattern =>
       if String.eqb pattern "*.c" then ["hello.c"; "util.c"] else [] |}.

(** An answer of the API to valid credentials. *)
Definition ok_response : response :=
  {| status_code := 200;
     headers := [("Content-Type", "application/json")];
     text := "";
     json_login := Ok "octocat" |}.


(** The SSH banner for the user [octocat]. *)
Definition ssh_banner : outcome expect_result :=
  Ok {| matched := 0; groups := ["octocat"] |}.

(** A terminal in cooked mode on which [keys] are typed. *)
Definition sample_tty (keys : string) : Terminal.tty :=
  {| Terminal.is_a_tty := true; Terminal.settings := Terminal.Cooked;
     Terminal.pending := chars keys; Terminal.screen := [] |}.

Definition utf8 (bytes : list ascii) : outcome string :=
  Ok (string_of_list_ascii bytes).

(** A store with one section that requires two files, and a file system
    that has only [hello.c]. *)
Definition required_store : store :=
  {| configs := [ [("check50", 0%nat)] ]; sections := [ sample_section ] |}.

Definition only_hello : FetchWorld :=
  {| w_requests_get := fun _ => Ok (true, "local");
     w_safe_load := fun _ => Ok sample_local;
     w_isfile := fun f => String.eqb f "hello.c";
     w_joinpath := fun p file => path_arg p +:+ "/" +:+ file |}.

(** A problem whose configuration requires [hello.c] and [README.md], in a
    repository without a root configuration, and a directory that holds
    exactly these two files. *)
Definition requiring_local : document :=
  {| doc_config := [("check50", 0%nat)]; doc_sections := [ sample_section ] |}.

Definition both_present : FetchWorld :=
  {| w_requests_get := fun url =>
       if String.eqb url root_url then Ok (false, "") else Ok (true, "local");
     w_safe_load := fun _ => Ok requiring_local;
     w_isfile := fun f => String.eqb f "hello.c" || String.eqb f "README.md";
     w_joinpath := fun p file => path_arg p +:+ "/" +:+ file |}.

(** A world in which the credential cache answers with a name and a
    password. *)
Definition cached_auth : AuthWorld :=
  {| w_home := "/home/octocat";
     w_mkdir := fun _ => Ok tt;
     w_spawn := fun _ => Ok tt;
     w_sendline := fun _ => Ok tt;
     w_expect := fun _ => Ok {| matched := 2; groups := ["octocat"; "hunter2"] |};
     w_input := fun _ => Raise (PyExn "EOFError" "");
     w_get_password := fun _ => Ok "typed";
     w_api := fun _ _ _ => Ok ok_response;
     w_git := git_works |}.

(* ================================================================== *)
(** * Properties *)

(** ** Facts about the string operations *)

Section StringFacts.

Lemma append_nil (b : string) : "" +:+ b = b.
Proof. reflexivity. Qed.

Lemma append_cons (c : ascii) (a b : string) :
  String c a +:+ b = String c (a +:+ b).
Proof. reflexivity. Qed.

Lemma length_append (a b : string) :
  String.length (a +:+ b) = (String.length a + String.length b)%nat.
Proof.
  induction a as [|c a IH]; [done|].
  rewrite append_cons. simpl. by rewrite IH.
Qed.

Lemma append_assoc (a b c : string) : (a +:+ b) +:+ c = a +:+ (b +:+ c).
Proof.
  induction a as [|x a IH]; [done|].
  by rewrite !append_cons, IH.
Qed.

Lemma append_empty_r (a : string) : a +:+ "" = a.
Proof.
  induction a as [|x a IH]; [done|].
  by rewrite append_cons, IH.
Qed.

Lemma prefix_iff (p s : string) :
  String.prefix p s = true <-> exists r, s = p +:+ r.
Proof.
  revert s; induction p as [|c p IH]; intros s.
  - split; [intros _; exists s; done | intros _; by destruct s].
  - destruct s as [|d s]; simpl.
    + split; [done | intros [r Hr]; done].
    + destruct (ascii_dec c d) as [->|Hne].
      * rewrite IH. split; intros [r Hr]; exists r.
        -- by rewrite append_cons, Hr.
        -- rewrite append_cons in Hr. by injection Hr.
      * split; [done|]. intros [r Hr]. rewrite append_cons in Hr.
        injection Hr; congruence.
Qed.

Lemma startswith_iff (s p : string) :
  Str.startswith s p = true <-> exists r, s = p +:+ r.
Proof. apply prefix_iff. Qed.

Lemma startswith_false (s p : string) :
  Str.startswith s p = false <-> forall r, s <> p +:+ r.
Proof.
  rewrite <- Bool.not_true_iff_false, startswith_iff.
  split; [intros H r Hr; apply H; eauto | intros H [r Hr]; by apply (H r)].
Qed.

Lemma slice_from_append (p r : string) :
  Str.slice_from (String.length p) (p +:+ r) = r.
Proof.
  induction p as [|c p IH]; [by destruct r|].
  rewrite append_cons. simpl. done.
Qed.

Lemma slice_from_decompose (n : nat) (s : string) :
  (n <= String.length s)%nat ->
  exists p, s = p +:+ Str.slice_from n s /\ String.length p = n.
Proof.
  revert s; induction n as [|n IH]; intros s Hn.
  - exists ""; by destruct s.
  - destruct s as [|c s]; simpl in *; [lia|].
    destruct (IH s) as (p & Hp & Hl); [lia|].
    exists (String c p). rewrite append_cons. simpl.
    split; [by rewrite <- Hp | by rewrite Hl].
Qed.

Lemma endswith_iff (s p : string) :
  Str.endswith s p = true <-> exists r, s = r +:+ p.
Proof.
  unfold Str.endswith. rewrite andb_true_iff, Nat.leb_le, String.eqb_eq.
  split.
  - intros [Hle Hs].
    destruct (slice_from_decompose (String.length s - String.length p) s)
      as (r & Hr & _); [lia|].
    exists r. by rewrite Hs in Hr.
  - intros [r ->]. rewrite length_append. split; [lia|].
    replace (String.length r + String.length p - String.length p)%nat
      with (String.length r) by lia.
    apply slice_from_append.
Qed.

Lemma endswith_false (s p : string) :
  Str.endswith s p = false <-> forall r, s <> r +:+ p.
Proof.
  rewrite <- Bool.not_true_iff_false, endswith_iff.
  split; [intros H r Hr; apply H; eauto | intros H [r Hr]; by apply (H r)].
Qed.

End StringFacts.

(** ** Branch resolution: [parse_branch] *)

Section BranchResolution.

Variables slug remainder : string.

Lemma match_branch_ok (bs : list string) (b rest : string) :
  match_branch slug remainder (map Ok bs) = Ok (b, rest) <->
  exists pre post,
    bs = pre ++ b :: post /\
    remainder = b +:+ "/" +:+ rest /\
    forall b', b' ∈ pre -> Str.startswith remainder (b' +:+ "/") = false.
Proof.
  induction bs as [|b0 bs IH]; simpl.
  - split; [done | intros ([|??] & ? & ? & _); done].
  - destruct (Str.startswith remainder (b0 +:+ "/")) eqn:Hs.
    + split.
      * intros [= <- <-]. exists [], bs. split; [done|]. split.
        -- apply startswith_iff in Hs as [r ->].
           replace (String.length b0 + 1)%nat with (String.length (b0 +:+ "/"))
             by (rewrite length_append; done).
           by rewrite slice_from_append, append_assoc.
        -- intros b' Hb'. by apply elem_of_nil in Hb'.
      * intros ([|b1 pre] & post & Hbs & Hrem & Hpre); simpl in Hbs.
        -- injection Hbs as -> ->. do 2 f_equal.
           rewrite Hrem, <- append_assoc.
           replace (String.length b + 1)%nat with (String.length (b +:+ "/"))
             by (rewrite length_append; done).
           apply slice_from_append.
        -- injection Hbs as -> ->.
           rewrite Hpre in Hs; [done | apply list_elem_of_here].
    + rewrite IH. split.
      * intros (pre & post & -> & Hrem & Hpre).
        exists (b0 :: pre), post. split; [done|]. split; [done|].
        intros b' [->|Hb']%elem_of_cons; auto.
      * intros ([|b1 pre] & post & Hbs & Hrem & Hpre); simpl in Hbs.
        -- injection Hbs as -> ->.
           apply startswith_false with (r := rest) in Hs.
           by rewrite append_assoc in Hs.
        -- injection Hbs as -> ->. exists pre, post.
           split; [done|]. split; [done|].
           intros b' Hb'. apply Hpre. by apply list_elem_of_further.
Qed.

Lemma match_branch_raise (bs : list string) (e : exn) :
  match_branch slug remainder (map Ok bs) = Raise e ->
  e = InvalidSlug slug /\
  forall b, b ∈ bs -> Str.startswith remainder (b +:+ "/") = false.
Proof.
  induction bs as [|b0 bs IH]; simpl.
  - intros [= <-]. split; [done|]. intros b Hb. by apply elem_of_nil in Hb.
  - destruct (Str.startswith remainder (b0 +:+ "/")) eqn:Hs; [done|].
    intros [-> Hbs]%IH. split; [done|].
    intros b [->|Hb]%elem_of_cons; auto.
Qed.

Lemma match_branch_none (bs : list string) :
  (forall b, b ∈ bs -> Str.startswith remainder (b +:+ "/") = false) ->
  match_branch slug remainder (map Ok bs) = Raise (InvalidSlug slug).
Proof.
  induction bs as [|b0 bs IH]; simpl; [done|].
  intros H. rewrite H by apply list_elem_of_here.
  apply IH. intros b Hb. apply H. by apply list_elem_of_further.
Qed.

End BranchResolution.

(** The loop over the candidates: it returns the first candidate, in listing
    order, such that the remainder is that branch name followed by a slash and
    by what is returned as the rest; a candidate that is not followed by a
    slash in the remainder is passed over; and when no candidate fits, the
    loop raises [InvalidSlug]. *)
Lemma match_branch_first_match (slug remainder : string) (bs : list string) :
  (forall b rest,
     match_branch slug remainder (map Ok bs) = Ok (b, rest) <->
     exists pre post,
       bs = pre ++ b :: post /\
       remainder = b +:+ "/" +:+ rest /\
       forall b', b' ∈ pre -> forall rest', remainder <> b' +:+ "/" +:+ rest') /\
  (match_branch slug remainder (map Ok bs) = Raise (InvalidSlug slug) <->
     forall b, b ∈ bs -> forall rest, remainder <> b +:+ "/" +:+ rest) /\
  ((exists b rest, match_branch slug remainder (map Ok bs) = Ok (b, rest)) \/
   match_branch slug remainder (map Ok bs) = Raise (InvalidSlug slug)).
Proof.
  assert (Hfalse : forall b,
    Str.startswith remainder (b +:+ "/") = false <->
    forall rest, remainder <> b +:+ "/" +:+ rest).
  { intros b. rewrite startswith_false.
    split; intros H rest; specialize (H rest);
      [by rewrite append_assoc in H | by rewrite append_assoc]. }
  split; [|split].
  - intros b rest. split.
    + intros (pre & post & ? & ? & Hpre)%match_branch_ok.
      exists pre, post. split; [done|]. split; [done|].
      intros b' Hb'. by apply Hfalse, Hpre.
    + intros (pre & post & ? & ? & Hpre). apply match_branch_ok.
      exists pre, post. split; [done|]. split; [done|].
      intros b' Hb'. by apply Hfalse, Hpre.
  - split.
    + intros [_ H]%match_branch_raise b Hb. by apply Hfalse, H.
    + intros H. apply match_branch_none. intros b Hb. by apply Hfalse, H.
  - destruct (match_branch slug remainder (map Ok bs)) as [[b rest]|e] eqn:Hr.
    + left. by exists b, rest.
    + right. by apply match_branch_raise in Hr as [-> _].
Qed.

(** Offline, the branches of the cached clone are the candidates. *)
Lemma parse_branch_offline (w : SlugWorld) (slug org repo remainder : string)
    (bs : list string) :
  w_local_branches w org repo = Ok bs ->
  parse_branch w slug org repo remainder true
    = match_branch slug remainder (map Ok bs).
Proof.
  intros Hw. unfold parse_branch, parse_branch_body. simpl. by rewrite Hw.
Qed.

(** When the cached branches give no match (or cannot be listed), the online
    resolution runs the same loop over the remote's heads. *)
Lemma parse_branch_online (w : SlugWorld) (slug org repo remainder out : string) :
  parse_branch w slug org repo remainder true = Raise (InvalidSlug slug) ->
  w_ls_remote w ("https://github.com/" +:+ org +:+ "/" +:+ repo) = Ok out ->
  parse_branch w slug org repo remainder false
    = match_branch slug remainder (map branch_of_line (Str.split LF out)).
Proof.
  unfold parse_branch.
  set (inner := parse_branch_body w slug org repo remainder _ true).
  clearbody inner. intros -> Hout.
  unfold parse_branch_body. simpl. by rewrite Hout.
Qed.

Lemma parse_branch_offline_hit (w : SlugWorld) (slug org repo remainder : string)
    (r : string * string) :
  parse_branch w slug org repo remainder true = Ok r ->
  parse_branch w slug org repo remainder false = Ok r.
Proof.
  unfold parse_branch.
  set (inner := parse_branch_body w slug org repo remainder _ true).
  clearbody inner. by intros ->.
Qed.

(** ** Leading and trailing slashes: [_parse_slug] *)

Section Strip.

Variable c : ascii.
Abbreviation cs := (String c EmptyString).

Lemma repeat_snoc (n : nat) :
  Str.repeat c (S n) = Str.repeat c n +:+ cs.
Proof.
  induction n as [|n IH]; [done|].
  simpl in *. rewrite append_cons. by f_equal.
Qed.

Lemma lstrip_spec (s : string) :
  exists n, s = Str.repeat c n +:+ Str.lstrip c s /\
            Str.startswith (Str.lstrip c s) cs = false.
Proof.
  induction s as [|a s (n & Hn & Hs)]; simpl.
  - by exists O.
  - destruct (Ascii.eqb_spec a c) as [->|Hne].
    + exists (S n). split; [|done]. simpl. rewrite append_cons. by f_equal.
    + exists O. split; [done|].
      apply startswith_false. intros r. rewrite append_cons. congruence.
Qed.

Lemma rstrip_spec (s : string) :
  exists m, s = Str.rstrip c s +:+ Str.repeat c m /\
            Str.endswith (Str.rstrip c s) cs = false.
Proof.
  induction s as [|a s (m & Hm & Hs)]; simpl.
  - by exists O.
  - destruct (Str.rstrip c s) as [|x r] eqn:Hr.
    + rewrite append_nil in Hm.
      destruct (Ascii.eqb_spec a c) as [->|Hne].
      * exists (S m). split; [|done]. rewrite append_nil. simpl. by f_equal.
      * exists m. split; [rewrite append_cons, append_nil; by f_equal|].
        apply endswith_false. intros [|y q]; rewrite ?append_nil, ?append_cons.
        -- congruence.
        -- intros [= _ Hq]. by destruct q.
    + exists m. split; [rewrite append_cons; by f_equal|].
      apply endswith_false. intros [|y q]; rewrite ?append_nil, ?append_cons.
      * done.
      * intros [= _ Hq]. revert Hs. rewrite Hq.
        assert (Str.endswith (q +:+ cs) cs = true) as ->; [|done].
        apply endswith_iff. by exists q.
Qed.

Lemma repeat_startswith (n : nat) (s : string) :
  Str.startswith (Str.repeat c n +:+ s) cs = false -> n = O.
Proof.
  destruct n as [|n]; [done|].
  change (Str.repeat c (S n)) with (String c (Str.repeat c n)).
  rewrite append_cons. intros H.
  by destruct (proj1 (startswith_false _ _) H (Str.repeat c n +:+ s)).
Qed.

Lemma repeat_endswith (m : nat) (s : string) :
  Str.endswith (s +:+ Str.repeat c m) cs = false -> m = O.
Proof.
  destruct m as [|m]; [done|]. rewrite repeat_snoc, <- append_assoc.
  intros H. by destruct (proj1 (endswith_false _ _) H (s +:+ Str.repeat c m)).
Qed.

(** [strip] removes a run of [c] at each end, the whole of it, and nothing
    else. *)
Lemma strip_spec (s : string) :
  exists n m,
    s = Str.repeat c n +:+ Str.strip c s +:+ Str.repeat c m /\
    Str.startswith (Str.strip c s) cs = false /\
    Str.endswith (Str.strip c s) cs = false /\
    (Str.startswith s cs = false -> n = O) /\
    (Str.endswith s cs = false -> m = O).
Proof.
  unfold Str.strip.
  destruct (lstrip_spec s) as (n & Hn & Hl).
  destruct (rstrip_spec (Str.lstrip c s)) as (m & Hm & Hr).
  exists n, m. split; [by rewrite <- Hm|]. split; [|split; [done|split]].
  - apply startswith_false. intros r Hrr.
    apply startswith_false with (r := r +:+ Str.repeat c m) in Hl.
    apply Hl. by rewrite Hm at 1; rewrite Hrr, append_assoc.
  - rewrite Hn at 1. apply repeat_startswith.
  - rewrite Hn at 1. rewrite Hm at 1. rewrite <- append_assoc.
    apply repeat_endswith.
Qed.

End Strip.

Lemma chars_append (a b : string) : chars (a +:+ b) = chars a ++ chars b.
Proof.
  induction a as [|x a IH]; [done|].
  rewrite append_cons. simpl. by rewrite IH.
Qed.

(** Two strings whose last [n] characters differ are different, whatever
    comes before. *)
Lemma suffix_neq (n : nat) (x y s t : string) :
  take n (rev (chars s)) <> take n (rev (chars t)) ->
  (n <= length (chars s))%nat -> (n <= length (chars t))%nat ->
  x +:+ s <> y +:+ t.
Proof.
  intros Hne Hs Ht Heq. apply Hne.
  apply (f_equal (fun z => take n (rev (chars z)))) in Heq.
  rewrite !chars_append, !rev_app_distr in Heq.
  by rewrite !take_app_le in Heq by (rewrite length_rev; lia).
Qed.

Lemma slash_messages_distinct (a b : string) :
  msg_both a <> msg_leading b /\
  msg_both a <> msg_trailing b /\
  msg_leading a <> msg_trailing b.
Proof.
  unfold msg_both, msg_leading, msg_trailing.
  rewrite <- !append_assoc.
  split; [|split].
  - apply (suffix_neq 3); [by vm_compute | vm_compute; lia..].
  - apply (suffix_neq 3); [by vm_compute | vm_compute; lia..].
  - apply (suffix_neq 11); [by vm_compute | vm_compute; lia..].
Qed.

(** C8.  A slug with a leading slash, a trailing slash or both is rejected
    with [InvalidSlug]; the message is one of three, pairwise different
    whatever the slugs, chosen by which ends carry a slash, and it quotes the
    slug with the slashes at those ends, all of them and nothing else,
    removed. *)
Theorem parse_slug_rejects_slashes (w : SlugWorld) (slug : string) (offline : bool) :
  Str.startswith slug "/" = true \/ Str.endswith slug "/" = true ->
  let stripped := Str.strip "/" slug in
  let lead := Str.startswith slug "/" in
  let trail := Str.endswith slug "/" in
  (lead = true -> trail = true ->
     _parse_slug w slug offline
       = Raise (InvalidSlug (w_gettext w (msg_both stripped)))) /\
  (lead = true -> trail = false ->
     _parse_slug w slug offline
       = Raise (InvalidSlug (w_gettext w (msg_leading stripped)))) /\
  (lead = false -> trail = true ->
     _parse_slug w slug offline
       = Raise (InvalidSlug (w_gettext w (msg_trailing stripped)))) /\
  (exists n m,
     slug = Str.repeat "/" n +:+ stripped +:+ Str.repeat "/" m /\
     (lead = false -> n = O) /\ (trail = false -> m = O)) /\
  Str.startswith stripped "/" = false /\
  Str.endswith stripped "/" = false /\
  (forall a b,
     msg_both a <> msg_leading b /\
     msg_both a <> msg_trailing b /\
     msg_leading a <> msg_trailing b) /\
  (forall a b,
     (forall x y, w_gettext w x = w_gettext w y -> x = y) ->
     w_gettext w (msg_both a) <> w_gettext w (msg_leading b) /\
     w_gettext w (msg_both a) <> w_gettext w (msg_trailing b) /\
     w_gettext w (msg_leading a) <> w_gettext w (msg_trailing b)).
Proof.
  intros _. cbv zeta.
  destruct (strip_spec "/" slug) as (n & m & Hdec & Hs & He & Hn & Hm).
  split; [|split; [|split; [|split; [|split; [|split; [|split]]]]]].
  - intros Hl Ht. unfold _parse_slug. by rewrite Hl, Ht.
  - intros Hl Ht. unfold _parse_slug. by rewrite Hl, Ht.
  - intros Hl Ht. unfold _parse_slug. by rewrite Hl, Ht.
  - by exists n, m.
  - done.
  - done.
  - apply slash_messages_distinct.
  - intros a b Hinj.
    destruct (slash_messages_distinct a b) as (H1 & H2 & H3).
    split; [|split]; intros H%Hinj; done.
Qed.

(** ** Authentication *)

Lemma bind_call_ok {A B} (e : event) (a : A) (k : A -> IO B) (t : list event) :
  bind (call e (Ok a)) k t = k a (t ++ [e]).
Proof. reflexivity. Qed.

Lemma bind_call_raise {A B} (e : event) (x : exn) (k : A -> IO B)
    (t : list event) :
  bind (call e (Raise x : outcome A)) k t = Some (Raise x, t ++ [e]).
Proof. reflexivity. Qed.

Lemma bind_ret {S A B} (a : A) (k : A -> M S B) (st : S) :
  bind (ret a) k st = k a st.
Proof. reflexivity. Qed.

Lemma bind_raise {S A B} (e : exn) (k : A -> M S B) (st : S) :
  bind (raise e) k st = Some (Raise e, st).
Proof. reflexivity. Qed.

Lemma bind_assoc {S A B C} (m : M S A) (k : A -> M S B) (k' : B -> M S C)
    (st : S) :
  bind (bind m k) k' st = bind m (fun a => bind (k a) k') st.
Proof. unfold bind. destruct (m st) as [[[a|e] st']|]; reflexivity. Qed.

(** Rewrites a trace [((t ++ [a]) ++ [b]) ++ ...] as [t ++ [a; b; ...]]. *)
Ltac trace_norm := rewrite <- ?app_assoc; simpl.

Ltac io_unfold :=
  unfold bind, call, ret, raise, lift, try_catch, git; cbv beta.

Ltac io_run := io_unfold; simpl.


(** What the [except:] clause does with the exception it caught. *)
Lemma https_except_eq {A} (w : AuthWorld) (socket : string) (e : exn)
    (t : list event) :
  https_except (A := A) w socket e t =
    match w_git w (cache_exit_call socket) with
    | Raise e1 => Some (Raise e1, t ++ [EGit (cache_exit_call socket)])
    | Ok _ =>
        let t' := t ++ [EGit (cache_exit_call socket); EGit keychain_erase_call] in
        match w_git w keychain_erase_call with
        | Ok _ => Some (Raise e, t')
        | Raise e2 => if is_GitError e2 then Some (Raise e, t')
                      else Some (Raise e2, t')
        end
    end.
Proof.
  unfold https_except. io_run.
  destruct (w_git w (cache_exit_call socket)) as [?|e1]; [|done].
  destruct (w_git w keychain_erase_call) as [?|e2]; simpl.
  - by trace_norm.
  - destruct (is_GitError e2); simpl; by trace_norm.
Qed.

Lemma authenticate_https_eq {A} (w : AuthWorld) (org : string)
    (body : User -> IO A) (t : list event) :
  w_mkdir w (cache_dir w) = Ok tt ->
  _authenticate_https w org body t =
    try_catch (https_try w org (socket_path w) body)
      (https_except w (socket_path w)) (t ++ [EMkdir (cache_dir w)]).
Proof. intros Hmk. unfold _authenticate_https. io_run. by rewrite Hmk. Qed.


(** C5.  A response that carries the two-factor header ends the validation
    with the personal-access-token message, whatever its status code: nothing
    is logged, nothing else is asked of the world, and the messages of the
    invalid-password handling are other messages.  This exception is what
    the [except:] clause receives, and what the caller sees once the cleanup
    commands have run. *)
Theorem two_factor_short_circuits {A} (w : AuthWorld) (org : string)
    (body : User -> IO A) (username password : option string)
    (res : response) (t : list event) :
  w_api w api_url username password = Ok res ->
  header_in "X-GitHub-OTP" (headers res) = true ->
  https_validate w org username password body t
    = Some (Raise (Error two_factor_msg),
            t ++ [EHttpGet api_url username password]) /\
  two_factor_msg <> invalid_msg /\
  two_factor_msg <> failed_msg /\
  (forall t0 t1,
     w_mkdir w (cache_dir w) = Ok tt ->
     https_credentials w (socket_path w) (t0 ++ [EMkdir (cache_dir w)])
       = Some (Ok (username, password), t1) ->
     _authenticate_https w org body t0
       = https_except w (socket_path w) (Error two_factor_msg)
           (t1 ++ [EHttpGet api_url username password]) /\
     (forall out1,
        w_git w (cache_exit_call (socket_path w)) = Ok out1 ->
        (forall e2, w_git w keychain_erase_call = Raise e2 ->
                    is_GitError e2 = true) ->
        _authenticate_https w org body t0
          = Some (Raise (Error two_factor_msg),
                  t1 ++ [EHttpGet api_url username password;
                         EGit (cache_exit_call (socket_path w));
                         EGit keychain_erase_call]))).
Proof.
  intros Hapi Hotp.
  assert (Hval : forall t',
    https_validate w org username password body t'
      = Some (Raise (Error two_factor_msg),
              t' ++ [EHttpGet api_url username password])).
  { intros t'. unfold https_validate. io_run. rewrite Hapi. simpl.
    unfold headers in Hotp. unfold headers. by rewrite Hotp. }
  split; [apply Hval|]. split; [done|]. split; [done|].
  intros t0 t1 Hmk Hcred.
  assert (Hauth : _authenticate_https w org body t0
    = https_except w (socket_path w) (Error two_factor_msg)
        (t1 ++ [EHttpGet api_url username password])).
  { rewrite authenticate_https_eq by done.
    unfold try_catch, https_try, bind. rewrite Hcred. simpl.
    by rewrite Hval. }
  split; [done|].
  intros out1 Hexit Hkey. rewrite Hauth, https_except_eq, Hexit.
  destruct (w_git w keychain_erase_call) as [?|e2] eqn:Hk; simpl.
  - by trace_norm.
  - rewrite (Hkey e2) by done. by trace_norm.
Qed.

(** *** Computations that do not look at the trace *)

Section Settles.

Context {A B : Type}.

Lemma settles_call (e : event) (ans : outcome A) : settles (call e ans) ans [e].
Proof. by intros t. Qed.

Lemma settles_ret (a : A) : settles (ret a) (Ok a) [].
Proof. intros t. by rewrite app_nil_r. Qed.

Lemma settles_raise (e : exn) : settles (raise e : IO A) (Raise e) [].
Proof. intros t. by rewrite app_nil_r. Qed.

Lemma settles_lift (o : outcome A) : settles (lift o) o [].
Proof. intros t. by rewrite app_nil_r. Qed.

Lemma settles_bind_ok (m : IO A) (k : A -> IO B) a evs r evs' :
  settles m (Ok a) evs -> settles (k a) r evs' ->
  settles (bind m k) r (evs ++ evs').
Proof. intros Hm Hk t. unfold bind. by rewrite Hm, Hk, app_assoc. Qed.

Lemma settles_bind_raise (m : IO A) (k : A -> IO B) e evs :
  settles m (Raise e) evs -> settles (bind m k) (Raise e) evs.
Proof. intros Hm t. unfold bind. by rewrite Hm. Qed.

Lemma settles_inj (m : IO A) r evs r' evs' :
  settles m r evs -> settles m r' evs' -> r = r' /\ evs = evs'.
Proof.
  intros H H'. specialize (H []). rewrite H' in H. simpl in H.
  by injection H as -> ->.
Qed.

Lemma decided_call (P : A -> Prop) (e : event) (ans : outcome A) :
  (forall a, ans = Ok a -> P a) -> decided P (call e ans).
Proof. intros H. exists ans, [e]. split; [apply settles_call | done]. Qed.

Lemma decided_ret (P : A -> Prop) (a : A) : P a -> decided P (ret a).
Proof.
  intros H. exists (Ok a), []. split; [apply settles_ret|]. by intros ? [= <-].
Qed.

Lemma decided_raise (P : A -> Prop) (e : exn) : decided P (raise e).
Proof. exists (Raise e), []. split; [apply settles_raise | done]. Qed.

Lemma decided_bind (P : A -> Prop) (Q : B -> Prop) (m : IO A) (k : A -> IO B) :
  decided P m -> (forall a, P a -> decided Q (k a)) -> decided Q (bind m k).
Proof.
  intros ([a|e] & evs & Hm & HP) Hk.
  - destruct (Hk a) as (r & evs' & Hka & HQ); [by apply HP|].
    exists r, (evs ++ evs'). split; [by eapply settles_bind_ok | done].
  - exists (Raise e), evs. split; [by apply settles_bind_raise | done].
Qed.

Lemma decided_try_catch (P : A -> Prop) (m : IO A) (h : exn -> IO A) :
  decided P m -> (forall e, decided P (h e)) -> decided P (try_catch m h).
Proof.
  intros ([a|e] & evs & Hm & HP) Hh.
  - exists (Ok a), evs. split; [|done].
    intros t. unfold try_catch. by rewrite Hm.
  - destruct (Hh e) as (r & evs' & Hhe & HQ).
    exists r, (evs ++ evs'). split; [|done].
    intros t. unfold try_catch. by rewrite Hm, Hhe, app_assoc.
Qed.

End Settles.

(** The credentials step ends, and when it returns, a password is in hand. *)
Lemma https_credentials_decided (w : AuthWorld) (socket : string) :
  decided (fun c => is_Some (snd c)) (https_credentials w socket).
Proof.
  unfold https_credentials. cbv zeta.
  apply decided_bind with (P := fun _ => True); [by apply decided_call|].
  intros _ _.
  apply decided_bind with (P := fun _ => True); [by apply decided_call|].
  intros _ _.
  apply decided_bind with (P := fun _ => True); [by apply decided_call|].
  intros m _.
  apply decided_bind
    with (P := fun c => truthy (snd c) = true -> is_Some (snd c)).
  { destruct (matched m =? 2)%nat; [|by apply decided_ret].
    destruct (groups m) as [|u [|p [|]]]; try apply decided_raise.
    apply decided_ret. by eexists. }
  intros cached Hcached.
  apply decided_bind with (P := fun _ => True); [by apply decided_call|].
  intros _ _.
  destruct (truthy (snd cached)) eqn:Htr; simpl.
  - apply decided_ret. by apply Hcached.
  - apply decided_bind with (P := fun _ => True).
    { unfold _get_username. apply decided_try_catch.
      - apply decided_bind with (P := fun _ => True); [by apply decided_call|].
        intros ? _. by apply decided_ret.
      - intros e. destruct (is_EOFError e);
          [by apply decided_ret | apply decided_raise]. }
    intros u _.
    apply decided_bind with (P := fun _ => True); [by apply decided_call|].
    intros p _. apply decided_ret. by eexists.
Qed.

(** The [except:] clause ends, always with an exception. *)
Lemma https_except_settles (w : AuthWorld) (socket : string) (e : exn) :
  exists e' evs, forall A, settles (https_except (A := A) w socket e) (Raise e') evs.
Proof.
  destruct (w_git w (cache_exit_call socket)) as [?|e1] eqn:H1.
  - destruct (w_git w keychain_erase_call) as [?|e2] eqn:H2;
      [|destruct (is_GitError e2) eqn:HG];
      eexists _, _; intros A t; rewrite https_except_eq, H1, H2; simpl;
      rewrite ?HG; reflexivity.
  - eexists _, _. intros A t. rewrite https_except_eq, H1. reflexivity.
Qed.

(** The validation step either fails, or yields a user who carries the
    password that was sent to the API. *)
Lemma https_validate_cases (w : AuthWorld) (org : string)
    (username password : option string) :
  (exists e evs,
     fails (fun A => @https_validate A w org username password) e evs) \/
  (exists login evs,
     yields (fun A => @https_validate A w org username password)
       {| name := login;
          password := password;
          email := login +:+ "@users.noreply.github.com";
          repo := "https://" +:+ login +:+ "@github.com/" +:+ org
                  +:+ "/" +:+ login |} evs /\
     EHttpGet api_url username password ∈ evs).
Proof.
  unfold fails, yields, https_validate.
  destruct (w_api w api_url username password) as [res|e] eqn:Hapi;
    [|left; eexists _, _; intros A body t; io_run; reflexivity].
  destruct (header_in "X-GitHub-OTP" (headers res)) eqn:Hotp;
    [left; eexists _, _; intros A body t; io_run; rewrite ?Hotp;
     reflexivity|].
  destruct (status_code res =? 200) eqn:Hst;
    [|left; eexists _, _; intros A body t; io_run; rewrite ?Hotp, ?Hst;
      simpl; trace_norm; reflexivity].
  destruct (json_login res) as [login|e] eqn:Hjs;
    [|left; eexists _, _; intros A body t; io_run; rewrite ?Hotp, ?Hst;
      simpl; rewrite ?Hjs; reflexivity].
  destruct (w_git w (approve_call login password)) as [?|e] eqn:Hgit;
    [|left; eexists _, _; intros A body t; io_run; rewrite ?Hotp, ?Hst;
      simpl; rewrite ?Hjs, ?Hgit; simpl; trace_norm; reflexivity].
  right. exists login. eexists. split.
  - intros A body t. io_run. rewrite ?Hotp, ?Hst. simpl.
    rewrite ?Hjs, ?Hgit. simpl. trace_norm. reflexivity.
  - apply list_elem_of_here.
Qed.

(** HTTPS authentication either fails before it yields, or yields, with its
    [except:] clause around the caller's block, a user built from the
    password sent to the API and the login the API returned. *)
Lemma authenticate_https_cases (w : AuthWorld) (org : string) :
  (exists e evs, fails (fun A => @_authenticate_https A w org) e evs) \/
  (exists login pw uname evs,
     yields_under (fun A => @_authenticate_https A w org)
       (fun A => https_except w (socket_path w))
       {| name := login;
          password := Some pw;
          email := login +:+ "@users.noreply.github.com";
          repo := "https://" +:+ login +:+ "@github.com/" +:+ org
                  +:+ "/" +:+ login |} evs /\
     EHttpGet api_url uname (Some pw) ∈ evs).
Proof.
  destruct (w_mkdir w (cache_dir w)) as [[]|e] eqn:Hmk.
  2: { left. exists e, [EMkdir (cache_dir w)]. intros A body t.
       unfold _authenticate_https. io_run. by rewrite Hmk. }
  destruct (https_credentials_decided w (socket_path w))
    as ([[u pw]|e] & evs & Hcred & Hpw).
  - destruct (Hpw _ eq_refl) as [p Hp]. simpl in Hp. subst pw.
    destruct (https_validate_cases w org u (Some p))
      as [(e & evs' & Hfail)|(login & evs' & Hyield & Hin)].
    + destruct (https_except_settles w (socket_path w) e) as (e' & evs'' & Hex).
      left. exists e', ([EMkdir (cache_dir w)] ++ evs ++ evs' ++ evs'').
      intros A body t. rewrite authenticate_https_eq by done.
      unfold try_catch, https_try, bind. rewrite Hcred. simpl.
      rewrite Hfail, Hex. by rewrite <- !app_assoc.
    + right. exists login, p, u, ([EMkdir (cache_dir w)] ++ evs ++ evs').
      split.
      * intros A body t. rewrite authenticate_https_eq by done.
        unfold try_catch, https_try, bind. rewrite Hcred. simpl.
        rewrite Hyield. by rewrite <- !app_assoc.
      * rewrite !elem_of_app. auto.
  - destruct (https_except_settles w (socket_path w) e) as (e' & evs'' & Hex).
    left. exists e', ([EMkdir (cache_dir w)] ++ evs ++ evs'').
    intros A body t. rewrite authenticate_https_eq by done.
    unfold try_catch, https_try, bind. rewrite Hcred. simpl.
    rewrite Hex. by rewrite <- !app_assoc.
Qed.

(** The SSH probe either fails before it yields, or yields nothing, or
    yields a user without a password. *)
Lemma authenticate_ssl_cases (w : AuthWorld) (org : string) :
  (exists e evs, fails (fun A => @_authenticate_ssl A w org) e evs) \/
  (exists evs, yields (fun A => @_authenticate_ssl A w org) None evs) \/
  (exists username evs,
     yields (fun A => @_authenticate_ssl A w org)
       (Some {| name := username;
                password := None;
                email := username +:+ "@users.noreply.github.com";
                repo := "git@github.com/" +:+ org +:+ "/" +:+ username |})
       evs).
Proof.
  unfold fails, yields, _authenticate_ssl.
  destruct (w_spawn w ssh_cmd) as [[]|e] eqn:Hsp;
    [|left; eexists _, _; intros A body t; io_run; reflexivity].
  destruct (w_expect w ssh_cmd) as [m|e] eqn:Hex;
    [|left; eexists _, _; intros A body t; io_run; trace_norm; reflexivity].
  destruct (matched m =? 0)%nat eqn:Hm.
  - destruct (groups m !! 0%nat) as [username|] eqn:Hg.
    + right. right. eexists _, _. intros A body t. io_run.
      rewrite ?Hm, ?Hg. trace_norm. reflexivity.
    + left. eexists _, _. intros A body t. io_run.
      rewrite ?Hm, ?Hg. trace_norm. reflexivity.
  - right. left. eexists. intros A body t. io_run.
    rewrite ?Hm. trace_norm. reflexivity.
Qed.

(** C6.  A user yielded by HTTPS authentication carries a password, the one
    that was sent to the API; a user yielded by the SSH probe carries none.
    Either way the e-mail address is the name at [users.noreply.github.com];
    the remote is [https://{name}@github.com/{org}/{name}] for HTTPS and
    [git@github.com/{org}/{name}], with no colon, for SSH.  Each of the two
    either yields or fails, so the statement is about every run. *)
Theorem identity_fields (w : AuthWorld) (org : string) :
  (forall u evs,
     yields_under (fun A => @_authenticate_https A w org)
       (fun A => https_except w (socket_path w)) u evs ->
     exists uname pw,
       password u = Some pw /\
       EHttpGet api_url uname (Some pw) ∈ evs /\
       email u = name u +:+ "@users.noreply.github.com" /\
       repo u = "https://" +:+ name u +:+ "@github.com/" +:+ org
                +:+ "/" +:+ name u) /\
  (forall u evs,
     yields (fun A => @_authenticate_ssl A w org) (Some u) evs ->
     password u = None /\
     password u <> Some "" /\
     email u = name u +:+ "@users.noreply.github.com" /\
     repo u = "git@github.com/" +:+ org +:+ "/" +:+ name u) /\
  ((exists e evs, fails (fun A => @_authenticate_https A w org) e evs) \/
   (exists u evs,
      yields_under (fun A => @_authenticate_https A w org)
        (fun A => https_except w (socket_path w)) u evs)) /\
  ((exists e evs, fails (fun A => @_authenticate_ssl A w org) e evs) \/
   (exists x evs, yields (fun A => @_authenticate_ssl A w org) x evs)).
Proof.
  split; [|split; [|split]].
  - intros u evs Hy.
    destruct (authenticate_https_cases w org)
      as [(e & evs' & Hf)|(login & pw & uname & evs' & Hy' & Hin)].
    + specialize (Hy _ ret []). rewrite Hf in Hy. done.
    + specialize (Hy _ ret []). rewrite Hy' in Hy.
      unfold try_catch, ret in Hy. simpl in Hy.
      injection Hy as <- <-. by exists uname, pw.
  - intros u evs Hy.
    destruct (authenticate_ssl_cases w org)
      as [(e & evs' & Hf)|[(evs' & Hy')|(username & evs' & Hy')]];
      specialize (Hy _ ret []); rewrite ?Hf, ?Hy' in Hy; try done.
    unfold ret in Hy. injection Hy as <- _. done.
  - destruct (authenticate_https_cases w org)
      as [?|(login & pw & uname & evs' & Hy' & Hin)]; [by left|].
    right. by eexists _, _.
  - destruct (authenticate_ssl_cases w org)
      as [?|[(evs' & Hy')|(username & evs' & Hy')]]; [by left|..];
      right; by eexists _, _.
Qed.

(** ** Dict objects *)

Section DictFacts.

Context {V : Type}.
Implicit Types (d : Dict.t V) (k : string) (v : V).

Lemma get_set_eq d k v : Dict.get k (Dict.set k v d) = Some v.
Proof.
  induction d as [|[k' v'] d IH]; simpl.
  - by rewrite String.eqb_refl.
  - destruct (String.eqb_spec k' k) as [->|Hne]; simpl.
    + by rewrite String.eqb_refl.
    + by destruct (String.eqb_spec k' k).
Qed.

Lemma get_set_ne d k k' v : k <> k' -> Dict.get k' (Dict.set k v d) = Dict.get k' d.
Proof.
  intros Hne. induction d as [|[k0 v0] d IH]; simpl.
  - by destruct (String.eqb_spec k k').
  - destruct (String.eqb_spec k0 k) as [->|Hk0]; simpl.
    + by destruct (String.eqb_spec k k').
    + by rewrite IH.
Qed.

Lemma get_set d k k' v :
  Dict.get k' (Dict.set k v d) = if decide (k = k') then Some v else Dict.get k' d.
Proof.
  case_decide as H; [subst; apply get_set_eq | by apply get_set_ne].
Qed.

Lemma get_Some_keys d k v : Dict.get k d = Some v -> k ∈ Dict.keys d.
Proof.
  induction d as [|[k' v'] d IH]; simpl; [done|].
  destruct (String.eqb_spec k' k) as [->|Hne].
  - intros _. apply list_elem_of_here.
  - intros H. apply list_elem_of_further. by apply IH.
Qed.

Lemma keys_get_Some d k : k ∈ Dict.keys d -> is_Some (Dict.get k d).
Proof.
  induction d as [|[k' v'] d IH]; simpl.
  - by intros H%elem_of_nil.
  - intros H. destruct (String.eqb_spec k' k) as [->|Hne]; [by eexists|].
    apply elem_of_cons in H as [->|H]; [done | by apply IH].
Qed.

Lemma get_None_keys d k : Dict.get k d = None <-> k ∉ Dict.keys d.
Proof.
  split.
  - intros H Hin. apply keys_get_Some in Hin as [v Hv]. congruence.
  - intros H. destruct (Dict.get k d) as [v|] eqn:Hg; [|done].
    by apply get_Some_keys in Hg.
Qed.

Lemma has_true d k : Dict.has k d = true <-> is_Some (Dict.get k d).
Proof.
  unfold Dict.has. destruct (Dict.get k d); split; done.
Qed.

Lemma has_false d k : Dict.has k d = false <-> Dict.get k d = None.
Proof. unfold Dict.has. by destruct (Dict.get k d). Qed.

Lemma get_elem_of d k v : Dict.get k d = Some v -> (k, v) ∈ d.
Proof.
  induction d as [|[k' v'] d IH]; simpl; [done|].
  destruct (String.eqb_spec k' k) as [->|Hne].
  - intros [= ->]. apply list_elem_of_here.
  - intros H. apply list_elem_of_further. by apply IH.
Qed.

Lemma elem_of_get d k v : NoDup (Dict.keys d) -> (k, v) ∈ d -> Dict.get k d = Some v.
Proof.
  induction d as [|[k' v'] d IH]; simpl.
  - by intros _ H%elem_of_nil.
  - intros [Hk' Hd]%NoDup_cons [[= -> ->]|H]%elem_of_cons.
    + by rewrite String.eqb_refl.
    + destruct (String.eqb_spec k' k) as [->|Hne]; [|by apply IH].
      destruct Hk'. unfold Dict.keys.
      apply list_elem_of_fmap. by exists (k, v).
Qed.

Lemma keys_set_present d k v :
  is_Some (Dict.get k d) -> Dict.keys (Dict.set k v d) = Dict.keys d.
Proof.
  induction d as [|[k' v'] d IH]; simpl.
  - by intros [? ?].
  - destruct (String.eqb_spec k' k) as [->|Hne]; simpl; [done|].
    intros H. by rewrite IH.
Qed.

Lemma keys_set_absent d k v :
  Dict.get k d = None -> Dict.keys (Dict.set k v d) = Dict.keys d ++ [k].
Proof.
  induction d as [|[k' v'] d IH]; simpl; [done|].
  destruct (String.eqb_spec k' k) as [->|Hne]; simpl; [done|].
  intros H. by rewrite IH.
Qed.

End DictFacts.

(** ** Reading and writing the store *)

Lemma set_section_id (st : store) (a : nat) (s : section) :
  sections st !! a = Some s -> set_section st a s = st.
Proof.
  intros H. destruct st as [cs ss]. unfold set_section. simpl in *.
  by rewrite list_insert_id.
Qed.

Lemma set_section_twice (st : store) (a : nat) (s s' : section) :
  set_section (set_section st a s) a s' = set_section st a s'.
Proof. unfold set_section. simpl. by rewrite list_insert_insert_eq. Qed.

Lemma config_contains_eq (st : store) (a : nat) (c : config) (k : string) :
  configs st !! a = Some c ->
  config_contains a k st = Some (Ok (Dict.has k c), st).
Proof. intros H. unfold config_contains, bind, read_config. by rewrite H. Qed.

Lemma config_getitem_eq (st : store) (a : nat) (c : config) (k : string) :
  configs st !! a = Some c ->
  config_getitem a k st =
    Some (match Dict.get k c with
          | Some v => Ok v
          | None => Raise (KeyError k)
          end, st).
Proof.
  intros H. unfold config_getitem, bind, read_config. rewrite H.
  by destruct (Dict.get k c).
Qed.

Lemma config_setitem_eq (st : store) (a : nat) (c : config) (k : string) (v : nat) :
  configs st !! a = Some c ->
  config_setitem a k v st = Some (Ok tt, set_config st a (Dict.set k v c)).
Proof. intros H. unfold config_setitem, bind, read_config. by rewrite H. Qed.

Lemma config_keys_eq (st : store) (a : nat) (c : config) :
  configs st !! a = Some c -> config_keys a st = Some (Ok (Dict.keys c), st).
Proof. intros H. unfold config_keys, bind, read_config. by rewrite H. Qed.

Lemma section_contains_eq (st : store) (a : nat) (s : section) (k : string) :
  sections st !! a = Some s ->
  section_contains a k st = Some (Ok (Dict.has k s), st).
Proof. intros H. unfold section_contains, bind, read_section. by rewrite H. Qed.

Lemma section_getitem_eq (st : store) (a : nat) (s : section) (k : string) :
  sections st !! a = Some s ->
  section_getitem a k st =
    Some (match Dict.get k s with
          | Some v => Ok v
          | None => Raise (KeyError k)
          end, st).
Proof.
  intros H. unfold section_getitem, bind, read_section. rewrite H.
  by destruct (Dict.get k s).
Qed.

Lemma section_setitem_eq (st : store) (a : nat) (s : section) (k : string) (v : yaml) :
  sections st !! a = Some s ->
  section_setitem a k v st = Some (Ok tt, set_section st a (Dict.set k v s)).
Proof. intros H. unfold section_setitem, bind, read_section. by rewrite H. Qed.

Lemma section_keys_eq (st : store) (a : nat) (s : section) :
  sections st !! a = Some s -> section_keys a st = Some (Ok (Dict.keys s), st).
Proof. intros H. unfold section_keys, bind, read_section. by rewrite H. Qed.

(** ** The loops of the merge, one tool at a time *)

Section OneTool.

(** The three configurations, and for one tool the three sections in play:
    the root's at [ra], the local one at [la], the one written at [a]. *)
Variables (cs50 root_cs50 result : nat) (tool : string).
Variables (cr cl cres : Dict.t nat) (ra la a : nat) (sr sl : Dict.t yaml).

Local Abbreviation ready :=
  (tool_ready cs50 root_cs50 result tool cr cl cres ra la a sr sl).

Lemma ready_set_section (st : store) (sa sa' : Dict.t yaml) :
  a <> ra -> a <> la -> ready st sa -> ready (set_section st a sa') sa'.
Proof.
  intros Hra Hla (?&?&?&?&?&?&?&?&Ha). unfold tool_ready, set_section. simpl.
  rewrite !list_lookup_insert_ne by done.
  rewrite list_lookup_insert_eq by (by eapply lookup_lt_Some).
  done.
Qed.

Lemma merge_key_eq (st : store) (sa : Dict.t yaml) (key : string) :
  ready st sa ->
  merge_key cs50 root_cs50 result tool key st =
    Some (let '(r, sa') := merge_keys sr sl [key] sa in
          (r, set_section st a sa')).
Proof.
  intros (Hr & Hra & Hsr & Hl & Hla & Hsl & Hres & Ha & Hsa).
  pose proof (set_section_id _ _ _ Hsa) as Hid.
  unfold merge_key, config_getitem, section_contains, section_getitem,
    section_setitem, write_section, read_config, read_section, bind, ret,
    raise, lift, is_list_at, Dict.has, merge_keys.
  destruct (Dict.get key sr) as [v|] eqn:Hv;
    [destruct (is_list v) eqn:Hlist|];
    (destruct (Dict.get key sl) as [y|] eqn:Hy;
     [|destruct (Dict.get key sa) as [x|] eqn:Hx]);
    try (destruct (Dict.get key sa) as [x|] eqn:Hx;
         [destruct (py_add x y) as [z|e] eqn:Hadd|]);
    repeat (progress (rewrite ?Hr, ?Hra, ?Hsr, ?Hl, ?Hla, ?Hsl, ?Hres,
                        ?Ha, ?Hsa, ?Hv, ?Hy, ?Hx, ?Hlist, ?Hadd, ?Hid;
                      cbv beta iota));
    unfold is_list_at; rewrite ?Hv, ?Hlist, ?Hid; done.
Qed.

Lemma merge_keys_cons (k : string) (ks : list string) (sa : Dict.t yaml) :
  merge_keys sr sl (k :: ks) sa =
    match merge_keys sr sl [k] sa with
    | (Ok _, sa') => merge_keys sr sl ks sa'
    | (Raise e, sa') => (Raise e, sa')
    end.
Proof.
  simpl. destruct (Dict.get k sl) as [y|]; [|done].
  destruct (is_list_at k sr); [|done].
  destruct (Dict.get k sa) as [x|]; [|done].
  by destruct (py_add x y).
Qed.

(** The inner loop is [merge_keys] on the section at [a]. *)
Lemma merge_keys_loop (ks : list string) (st : store) (sa : Dict.t yaml) :
  a <> ra -> a <> la -> ready st sa ->
  for_each ks (merge_key cs50 root_cs50 result tool) st =
    Some (let '(r, sa') := merge_keys sr sl ks sa in
          (r, set_section st a sa')).
Proof.
  intros Hra Hla. revert st sa.
  induction ks as [|k ks IH]; intros st sa Hready.
  - simpl. unfold ret. rewrite set_section_id; [done|]. apply Hready.
  - rewrite merge_keys_cons. cbn [for_each]. unfold bind.
    rewrite (merge_key_eq _ _ _ Hready).
    destruct (merge_keys sr sl [k] sa) as [[[]|e] sa1]; [|done].
    rewrite (IH _ sa1) by by apply (ready_set_section _ sa).
    destruct (merge_keys sr sl ks sa1) as [r sa'].
    by rewrite set_section_twice.
Qed.

Lemma merge_tool_present (st : store) (sa : Dict.t yaml) :
  a <> ra -> a <> la -> ready st sa ->
  merge_tool cs50 root_cs50 result tool st =
    Some (let '(r, sa') := merge_keys sr sl (Dict.keys sl) sa in
          (r, set_section st a sa')).
Proof.
  intros Hra Hla Hready.
  pose proof Hready as (Hr & Hcr & Hsr & Hl & Hcl & Hsl & _).
  unfold merge_tool.
  unfold bind at 1. rewrite (config_contains_eq _ _ _ _ Hr).
  unfold Dict.has. rewrite Hcr. simpl.
  unfold bind at 1. rewrite (config_getitem_eq _ _ _ _ Hl), Hcl.
  unfold bind at 1. rewrite (section_keys_eq _ _ _ Hsl).
  by apply merge_keys_loop.
Qed.

Lemma merge_tool_absent (st : store) :
  configs st !! root_cs50 = Some cr -> Dict.get tool cr = None ->
  configs st !! cs50 = Some cl -> Dict.get tool cl = Some la ->
  configs st !! result = Some cres ->
  merge_tool cs50 root_cs50 result tool st =
    Some (Ok tt, set_config st result (Dict.set tool la cres)).
Proof.
  intros Hr Hcr Hl Hcl Hres. unfold merge_tool.
  unfold bind at 1. rewrite (config_contains_eq _ _ _ _ Hr).
  unfold Dict.has. rewrite Hcr. simpl.
  unfold bind at 1. rewrite (config_getitem_eq _ _ _ _ Hl), Hcl.
  by apply config_setitem_eq.
Qed.

End OneTool.

(** ** Loops with an invariant *)

(** [I done] holds of the state once the elements [done] have been
    processed; [E] holds of an exception and of the state it was raised
    in. *)
Lemma for_each_spec {S A} (I : list A -> S -> Prop) (E : exn -> S -> Prop)
    (xs : list A) (body : A -> M S unit) :
  (forall done x rest st,
     xs = done ++ x :: rest -> I done st ->
     exists r st', body x st = Some (r, st') /\
       match r with Ok _ => I (done ++ [x]) st' | Raise e => E e st' end) ->
  forall st, I [] st ->
  exists r st', for_each xs body st = Some (r, st') /\
    match r with Ok _ => I xs st' | Raise e => E e st' end.
Proof.
  intros Hbody.
  assert (Hgen : forall rest done st,
    xs = done ++ rest -> I done st ->
    exists r st', for_each rest body st = Some (r, st') /\
      match r with Ok _ => I xs st' | Raise e => E e st' end).
  { induction rest as [|x rest IH]; intros done st Hxs HI.
    - exists (Ok tt), st. rewrite app_nil_r in Hxs. by subst.
    - destruct (Hbody done x rest st Hxs HI) as ([[]|e] & st' & Hx & Hpost).
      + destruct (IH (done ++ [x]) st') as (r & st'' & Hrest & Hfinal);
          [by rewrite <- app_assoc | done |].
        exists r, st''. simpl. unfold bind. by rewrite Hx.
      + exists (Raise e), st'. simpl. unfold bind. by rewrite Hx. }
  intros st HI. by apply (Hgen xs []).
Qed.

(** ** [deepcopy] *)

Lemma deepcopy_items_spec (orig : list (Dict.t yaml)) (items : list (string * nat)) :
  Forall (fun ta : string * nat => (ta.2 < length orig)%nat) items ->
  forall memo secs, memo_ok orig memo secs ->
  exists copied memo' secs',
    deepcopy_items items memo secs = Some (copied, memo', secs') /\
    memo_ok orig memo' secs' /\
    Forall2 (fun ta ta' : string * nat =>
               ta.1 = ta'.1 /\ memo' !! ta.2 = Some ta'.2) items copied /\
    memo ⊆ memo'.
Proof.
  induction 1 as [|[tool ra] items Hra Hitems IH]; intros memo secs Hok.
  - exists [], memo, secs. simpl. done.
  - simpl in Hra. cbn [deepcopy_items].
    destruct (memo !! ra) as [a|] eqn:Hm.
    + destruct (IH memo secs Hok) as (copied & memo' & secs' & -> & Hok' & Hall & Hsub).
      exists ((tool, a) :: copied), memo', secs'. simpl.
      split; [done|]. split; [done|]. split; [|done].
      constructor; [|done]. simpl. split; [done|].
      by eapply lookup_weaken.
    + destruct Hok as ((news & ->) & Hmemo & Hinj).
      destruct (lookup_lt_is_Some_2 orig ra Hra) as [s Hs].
      rewrite (lookup_app_l_Some _ _ _ _ Hs). simpl.
      destruct (IH (<[ra := length (orig ++ news)]> memo) ((orig ++ news) ++ [s]))
        as (copied & memo' & secs' & -> & Hok' & Hall & Hsub).
      { split; [exists (news ++ [s]); by rewrite app_assoc|]. split.
        - intros ra0 a0. rewrite lookup_insert. case_decide as Heq.
          + intros [= <-]. subst ra0. split; [rewrite length_app; lia|].
            exists s. split; [done|]. by rewrite lookup_app_r, Nat.sub_diag.
          + intros [Hle (s0 & Hs0 & Hs0')]%Hmemo. split; [done|].
            exists s0. split; [done|]. by apply lookup_app_l_Some.
        - intros ra1 ra2 a0. rewrite !lookup_insert.
          repeat case_decide; subst; try done.
          + intros [= <-] (_ & s0 & _ & Hs0)%Hmemo.
            apply lookup_lt_Some in Hs0. lia.
          + intros (_ & s0 & _ & Hs0)%Hmemo [= <-].
            apply lookup_lt_Some in Hs0. lia.
          + apply Hinj. }
      exists ((tool, length (orig ++ news)) :: copied), memo', secs'.
      split; [done|]. split; [done|]. split.
      * constructor; [|done]. simpl. split; [done|].
        eapply lookup_weaken; [|done]. apply lookup_insert_eq.
      * etrans; [|done]. by apply insert_subseteq.
Qed.

Lemma copied_get (memo : gmap nat nat) (items copied : list (string * nat)) :
  Forall2 (fun ta ta' : string * nat =>
             ta.1 = ta'.1 /\ memo !! ta.2 = Some ta'.2) items copied ->
  forall tool,
    match Dict.get tool items with
    | Some ra => exists a, memo !! ra = Some a /\ Dict.get tool copied = Some a
    | None => Dict.get tool copied = None
    end.
Proof.
  induction 1 as [|[t ra] [t' a] items copied [Ht Hm] Hall IH]; intros tool.
  - done.
  - simpl in *. subst t'. destruct (String.eqb t tool); [by exists a | apply IH].
Qed.

(** ** What the merge keeps, whatever the aliases *)

Lemma py_add_list (x y : yaml) :
  is_list x = true ->
  if is_list y
  then exists z, py_add x y = Ok z /\ is_list z = true
  else py_add x y = Raise TypeError.
Proof.
  destruct x; try done. intros _. destruct y; try done. by eexists.
Qed.

Lemma covers_refl (s : Dict.t yaml) : covers s s.
Proof. intros k v Hk. by exists v. Qed.

Lemma covers_set (sr sa : Dict.t yaml) (k : string) (z : yaml) :
  covers sr sa ->
  (is_list_at k sr = true -> is_list z = true) ->
  covers sr (Dict.set k z sa).
Proof.
  intros Hcov Hz k' v Hv. rewrite get_set. case_decide as Hk.
  - subst k'. exists z. split; [done|]. intros Hl. apply Hz.
    unfold is_list_at. by rewrite Hv.
  - by apply Hcov.
Qed.

Lemma merge_keys_weak (sr sl : Dict.t yaml) (ks : list string) :
  forall sa r sa',
    merge_keys sr sl ks sa = (r, sa') ->
    covers sr sa ->
    (forall k, k ∈ ks -> is_Some (Dict.get k sl)) ->
    covers sr sa' /\
    (r = Ok tt \/ r = Raise TypeError) /\
    (r = Ok tt ->
     forall k y, k ∈ ks -> Dict.get k sl = Some y ->
                 is_list_at k sr = true -> is_list y = true).
Proof.
  induction ks as [|k ks IH]; intros sa r sa' Hm Hcov Hks; simpl in Hm.
  - injection Hm as <- <-. split; [done|]. split; [by left|].
    intros _ k y Hk. by apply elem_of_nil in Hk.
  - destruct (Hks k) as [y Hy]; [apply list_elem_of_here|]. rewrite Hy in Hm.
    assert (Hks' : forall k', k' ∈ ks -> is_Some (Dict.get k' sl))
      by (intros k' Hk'; apply Hks; by apply list_elem_of_further).
    destruct (is_list_at k sr) eqn:Hlist.
    + unfold is_list_at in Hlist.
      destruct (Dict.get k sr) as [v|] eqn:Hv; [|done].
      destruct (Hcov k v Hv) as (x & Hx & Hxl). rewrite Hx in Hm.
      pose proof (py_add_list x y (Hxl Hlist)) as Hadd.
      destruct (is_list y) eqn:Hyl.
      * destruct Hadd as (z & Hz & Hzl). rewrite Hz in Hm.
        destruct (IH _ _ _ Hm) as (Hcov' & Hr & Hok); [|done|].
        { by apply covers_set. }
        split; [done|]. split; [done|].
        intros Hrok k' y' [->|Hk']%elem_of_cons Hy' Hl'.
        -- congruence.
        -- by eapply Hok.
      * rewrite Hadd in Hm. injection Hm as <- <-.
        split; [done|]. split; [by right|]. done.
    + destruct (IH _ _ _ Hm) as (Hcov' & Hr & Hok); [|done|].
      { apply covers_set; [done|]. by rewrite Hlist. }
      split; [done|]. split; [done|].
      intros Hrok k' y' [->|Hk']%elem_of_cons Hy' Hl'.
      -- congruence.
      -- by eapply Hok.
Qed.

Section WeakInvariant.

Variables (st0 : store) (cs50 root_cs50 : nat) (cr cl : Dict.t nat).
Variable memo : gmap nat nat.
Hypothesis Hok : store_ok st0.
Hypothesis Hcl : configs st0 !! cs50 = Some cl.
Hypothesis Hcr : configs st0 !! root_cs50 = Some cr.

Local Abbreviation result := (length (configs st0)).

Lemma local_section (tool : string) (la : nat) :
  Dict.get tool cl = Some la -> is_Some (sections st0 !! la).
Proof using Hok Hcl.
  intros Hla. apply lookup_lt_is_Some_2.
  destruct Hok as [Hcfg _]. rewrite Forall_forall in Hcfg.
  destruct (Hcfg cl) as [_ Hcl']; [by eapply list_elem_of_lookup_2|].
  rewrite Forall_forall in Hcl'.
  by apply (Hcl' (tool, la)), get_elem_of.
Qed.

Lemma merge_tool_weak (tool : string) (st : store) :
  tool ∈ Dict.keys cl ->
  merge_inv st0 cr memo st ->
  exists r st',
    merge_tool cs50 root_cs50 result tool st = Some (r, st') /\
    merge_inv st0 cr memo st' /\
    (r = Ok tt \/ r = Raise TypeError) /\
    (r = Ok tt -> no_clash st0 cs50 root_cs50 tool).
Proof using Hok Hcl Hcr.
  intros Htool (cres & news & Hcs & Hss & Hres & Hmemo & Hinj).
  destruct (keys_get_Some _ _ Htool) as [la Hla].
  assert (Hcl' : configs st !! cs50 = Some cl)
    by (rewrite Hcs; by apply lookup_app_l_Some).
  assert (Hcr' : configs st !! root_cs50 = Some cr)
    by (rewrite Hcs; by apply lookup_app_l_Some).
  assert (Hcres : configs st !! result = Some cres)
    by (rewrite Hcs; by rewrite lookup_app_r, Nat.sub_diag).
  destruct (Dict.get tool cr) as [ra|] eqn:Hra.
  - destruct (Hres tool ra Hra) as (a & Hma & Ha).
    destruct (Hmemo ra a Hma) as (Hfresh & sr & sa & Hsr & Hsa & Hcov).
    destruct (local_section tool la Hla) as [sl Hsl].
    assert (Hlt_ra : (ra < length (sections st0))%nat) by by eapply lookup_lt_Some.
    assert (Hlt_la : (la < length (sections st0))%nat) by by eapply lookup_lt_Some.
    assert (Hready : tool_ready cs50 root_cs50 result tool cr cl cres
                       ra la a sr sl st sa).
    { unfold tool_ready. rewrite Hss.
      rewrite !(lookup_app_l_Some (sections st0)) with (x := sr) by done.
      split; [done|]. split; [done|]. split; [done|].
      split; [done|]. split; [done|].
      split; [by apply lookup_app_l_Some|].
      split; [done|]. split; [done|]. by rewrite <- Hss. }
    assert (Hne_ra : a <> ra) by lia.
    assert (Hne_la : a <> la) by lia.
    rewrite (merge_tool_present _ _ _ _ _ _ _ _ _ _ _ _ st sa Hne_ra Hne_la Hready).
    destruct (merge_keys sr sl (Dict.keys sl) sa) as [r sa'] eqn:Hmk.
    destruct (merge_keys_weak _ _ _ _ _ _ Hmk Hcov) as (Hcov' & Hr & Hclash).
    { intros k. apply keys_get_Some. }
    exists r, (set_section st a sa'). split; [done|]. split; [|split; [done|]].
    + exists cres, (<[(a - length (sections st0))%nat := sa']> news).
      split; [done|]. split.
      { unfold set_section. simpl. rewrite Hss.
        by rewrite insert_app_r_alt by lia. }
      split; [done|]. split; [|done].
      intros ra' a' Hma'. destruct (Hmemo ra' a' Hma')
        as (Hfresh' & sr' & sa0 & Hsr' & Hsa0 & Hcov0).
      split; [done|]. unfold set_section. simpl.
      destruct (decide (a' = a)) as [->|Hne].
      * assert (ra' = ra) as -> by by eapply Hinj.
        exists sr, sa'. split; [done|]. split; [|done].
        apply list_lookup_insert_eq. by eapply lookup_lt_Some.
      * exists sr', sa0. split; [done|]. split; [|done].
        by rewrite list_lookup_insert_ne.
    + intros Hrok key xs v Hroot Hlocal.
      unfold lookup in Hroot, Hlocal.
      rewrite Hcr in Hroot. rewrite Hcl in Hlocal. simpl in *.
      rewrite Hra in Hroot. rewrite Hla in Hlocal. simpl in *.
      rewrite Hsr in Hroot. rewrite Hsl in Hlocal. simpl in *.
      eapply (Hclash Hrok key v); [by eapply get_Some_keys | done |].
      unfold is_list_at. by rewrite Hroot.
  - rewrite (merge_tool_absent _ _ _ _ cr cl cres la st) by done.
    exists (Ok tt), (set_config st result (Dict.set tool la cres)).
    split; [done|]. split; [|split; [by left|]].
    + exists (Dict.set tool la cres), news. split.
      { unfold set_config. simpl. rewrite Hcs.
        rewrite insert_app_r_alt by lia. by rewrite Nat.sub_diag. }
      split; [done|]. split; [|done].
      intros tool' ra' Hra'. destruct (Hres tool' ra' Hra') as (a' & ? & ?).
      exists a'. split; [done|]. rewrite get_set_ne; [done|]. congruence.
    + intros _ key xs v Hroot. unfold lookup in Hroot.
      rewrite Hcr in Hroot. simpl in Hroot. by rewrite Hra in Hroot.
Qed.

End WeakInvariant.

Lemma store_ok_items (st : store) (a : nat) (c : Dict.t nat) :
  store_ok st -> configs st !! a = Some c ->
  NoDup (Dict.keys c) /\
  Forall (fun ta : string * nat => (ta.2 < length (sections st))%nat) c.
Proof.
  intros [Hcfg _] Ha. rewrite Forall_forall in Hcfg.
  apply Hcfg. by eapply list_elem_of_lookup_2.
Qed.

(** The deep copy sets up the invariant. *)
Lemma deepcopy_spec (st0 : store) (root_cs50 : nat) (cr : Dict.t nat) :
  store_ok st0 -> configs st0 !! root_cs50 = Some cr ->
  exists copied memo secs',
    deepcopy root_cs50 st0 =
      Some (Ok (length (configs st0)),
            {| configs := configs st0 ++ [copied]; sections := secs' |}) /\
    memo_ok (sections st0) memo secs' /\
    Forall2 (fun ta ta' : string * nat =>
               ta.1 = ta'.1 /\ memo !! ta.2 = Some ta'.2) cr copied.
Proof.
  intros Hok Hcr.
  destruct (store_ok_items _ _ _ Hok Hcr) as [_ Hclosed].
  destruct (deepcopy_items_spec (sections st0) cr Hclosed ∅ (sections st0))
    as (copied & memo & secs' & Hdc & Hmok & Hall & _).
  { split; [exists []; by rewrite app_nil_r|]. split.
    - intros ra a. by rewrite lookup_empty.
    - intros ra ra' a. by rewrite lookup_empty. }
  exists copied, memo, secs'. split; [|done].
  unfold deepcopy. rewrite Hcr. simpl. by rewrite Hdc.
Qed.

Lemma merge_weak (st0 : store) (cs50 root_cs50 : nat) (cr cl : Dict.t nat) :
  store_ok st0 ->
  configs st0 !! cs50 = Some cl ->
  configs st0 !! root_cs50 = Some cr ->
  exists r st' memo,
    _merge_cs50_yaml cs50 root_cs50 st0 = Some (r, st') /\
    merge_inv st0 cr memo st' /\
    ((r = Ok (length (configs st0)) /\
      forall tool, tool ∈ Dict.keys cl -> no_clash st0 cs50 root_cs50 tool) \/
     r = Raise TypeError).
Proof.
  intros Hok Hcl Hcr.
  destruct (deepcopy_spec _ _ _ Hok Hcr)
    as (copied & memo & secs' & Hdc & ((news & ->) & Hmemo & Hinj) & Hall).
  set (st1 := {| configs := configs st0 ++ [copied];
                 sections := sections st0 ++ news |}) in *.
  assert (Hinv1 : merge_inv st0 cr memo st1).
  { exists copied, news. split; [done|]. split; [done|]. split; [|split; [|done]].
    - intros tool ra Hra. pose proof (copied_get _ _ _ Hall tool) as Hget.
      by rewrite Hra in Hget.
    - intros ra a [Hfresh (s & Hs & Hs')]%Hmemo. split; [done|].
      exists s, s. split; [done|]. split; [done|]. apply covers_refl. }
  destruct (for_each_spec
              (fun done st => merge_inv st0 cr memo st /\
                              Forall (no_clash st0 cs50 root_cs50) done)
              (fun e st => merge_inv st0 cr memo st /\ e = TypeError)
              (Dict.keys cl)
              (merge_tool cs50 root_cs50 (length (configs st0))) )
    with (st := st1) as (r & st' & Hloop & Hpost).
  { intros done tool rest st Hsplit [Hinv Hdone].
    destruct (merge_tool_weak st0 cs50 root_cs50 cr cl memo Hok Hcl Hcr tool st)
      as (r & st' & Hstep & Hinv' & Hr & Hclash); [|done|].
    { rewrite Hsplit. rewrite elem_of_app, elem_of_cons. auto. }
    exists r, st'. split; [done|].
    destruct Hr as [->| ->]; [|done].
    split; [done|]. apply Forall_app. split; [done|].
    constructor; [by apply Hclash | constructor]. }
  { split; [done | constructor]. }
  exists (match r with Ok _ => Ok (length (configs st0)) | Raise e => Raise e end),
    st', memo.
  split.
  - unfold _merge_cs50_yaml. unfold bind at 1. rewrite Hdc.
    unfold bind at 1. rewrite (config_keys_eq st1 cs50 cl)
      by by apply lookup_app_l_Some.
    unfold bind at 1. rewrite Hloop. by destruct r.
  - destruct r as [[]|e].
    + destruct Hpost as [Hinv Hall']. split; [done|]. left. split; [done|].
      intros tool Htool. rewrite Forall_forall in Hall'. by apply Hall'.
    + destruct Hpost as [Hinv ->]. split; [done|]. by right.
Qed.

(** C7.  The merge writes only to objects it made itself: when it ends,
    with a result or with an exception, every configuration and every
    section of the store it started from is as it was, the local and the
    root configuration among them, and what it returns is a new object. *)
Theorem merge_leaves_inputs (st : store) (cs50 root_cs50 : nat) :
  store_ok st ->
  is_Some (configs st !! cs50) ->
  is_Some (configs st !! root_cs50) ->
  exists r st',
    _merge_cs50_yaml cs50 root_cs50 st = Some (r, st') /\
    (exists cres, configs st' = configs st ++ [cres]) /\
    (exists news, sections st' = sections st ++ news) /\
    (forall a c, configs st !! a = Some c -> configs st' !! a = Some c) /\
    (forall a s, sections st !! a = Some s -> sections st' !! a = Some s) /\
    (forall tool key,
       lookup st' cs50 tool key = lookup st cs50 tool key /\
       lookup st' root_cs50 tool key = lookup st root_cs50 tool key) /\
    (forall res, r = Ok res ->
       res = length (configs st) /\ res <> cs50 /\ res <> root_cs50 /\
       configs st !! res = None).
Proof.
  intros Hok [cl Hcl] [cr Hcr].
  destruct (merge_weak st cs50 root_cs50 cr cl Hok Hcl Hcr)
    as (r & st' & memo & Hmerge & (cres & news & Hcs & Hss & _) & Hr).
  assert (Hcfg : forall a c, configs st !! a = Some c -> configs st' !! a = Some c)
    by (intros a c Ha; rewrite Hcs; by apply lookup_app_l_Some).
  assert (Hsec : forall a s, sections st !! a = Some s -> sections st' !! a = Some s)
    by (intros a s Ha; rewrite Hss; by apply lookup_app_l_Some).
  assert (Hlookup : forall cfg c tool key,
            configs st !! cfg = Some c ->
            lookup st' cfg tool key = lookup st cfg tool key).
  { intros cfg c tool key Hc. unfold lookup. rewrite Hc, (Hcfg _ _ Hc). simpl.
    destruct (Dict.get tool c) as [a|] eqn:Ha; [simpl|done].
    destruct (store_ok_items _ _ _ Hok Hc) as [_ Hclosed].
    rewrite Forall_forall in Hclosed.
    pose proof (Hclosed (tool, a) (get_elem_of _ _ _ Ha)) as Hlt. simpl in Hlt.
    destruct (lookup_lt_is_Some_2 _ _ Hlt) as [s Hs].
    by rewrite Hs, (Hsec _ _ Hs). }
  exists r, st'. split; [done|]. split; [by exists cres|]. split; [by exists news|].
  split; [done|]. split; [done|]. split; [by eauto|].
  intros res ->. destruct Hr as [[[= ->] _]|]; [|done].
  apply lookup_lt_Some in Hcl as Hlt1. apply lookup_lt_Some in Hcr as Hlt2.
  split; [done|]. split; [lia|]. split; [lia|].
  by apply lookup_ge_None.
Qed.

(** C10.  The merge chooses between appending and overriding by the root's
    value alone: when, for some tool and key, the root holds a list and the
    local configuration holds something that is not a list, the merge ends
    with a [TypeError], and so with no merged configuration. *)
Theorem merge_list_with_other (st : store) (cs50 root_cs50 : nat)
    (tool key : string) (xs : list yaml) (v : yaml) :
  store_ok st ->
  lookup st root_cs50 tool key = Some (YList xs) ->
  lookup st cs50 tool key = Some v ->
  is_list v = false ->
  exists st',
    _merge_cs50_yaml cs50 root_cs50 st = Some (Raise TypeError, st') /\
    (forall res st'', _merge_cs50_yaml cs50 root_cs50 st <> Some (Ok res, st'')).
Proof.
  intros Hok Hroot Hlocal Hv.
  destruct (configs st !! cs50) as [cl|] eqn:Hcl;
    [|by unfold lookup in Hlocal; rewrite Hcl in Hlocal].
  destruct (configs st !! root_cs50) as [cr|] eqn:Hcr;
    [|by unfold lookup in Hroot; rewrite Hcr in Hroot].
  destruct (merge_weak st cs50 root_cs50 cr cl Hok Hcl Hcr)
    as (r & st' & memo & Hmerge & _ & [[-> Hclash]| ->]).
  - assert (Htool : tool ∈ Dict.keys cl).
    { unfold lookup in Hlocal. rewrite Hcl in Hlocal. simpl in Hlocal.
      destruct (Dict.get tool cl) as [la|] eqn:Hla; [|done].
      by eapply get_Some_keys. }
    pose proof (Hclash tool Htool key xs v Hroot Hlocal). congruence.
  - exists st'. split; [done|]. intros res st''. by rewrite Hmerge.
Qed.

(** ** The merge rule, when no two tools of the root share a section *)

Lemma is_list_YList (v : yaml) : is_list v = true -> exists xs, v = YList xs.
Proof. destruct v; try done. by eexists. Qed.

Lemma merge_keys_exact (sr sl : Dict.t yaml) (ks : list string) :
  NoDup ks ->
  forall sa,
    (forall k, k ∈ ks ->
       exists y, Dict.get k sl = Some y /\
                 (is_list_at k sr = true -> is_list y = true)) ->
    (forall k, k ∈ ks -> Dict.get k sa = Dict.get k sr) ->
    exists sa',
      merge_keys sr sl ks sa = (Ok tt, sa') /\
      forall k,
        Dict.get k sa' =
          if decide (k ∈ ks)
          then merged_value (Dict.get k sl) (Dict.get k sr)
          else Dict.get k sa.
Proof.
  induction 1 as [|k ks Hk Hnd IH]; intros sa Hsl Hsa.
  - exists sa. split; [done|]. intros k. case_decide as H; [|done].
    by apply elem_of_nil in H.
  - destruct (Hsl k) as (y & Hy & Hyl); [apply list_elem_of_here|].
    assert (Hsl' : forall k', k' ∈ ks ->
              exists y', Dict.get k' sl = Some y' /\
                         (is_list_at k' sr = true -> is_list y' = true))
      by (intros k' Hk'; apply Hsl; by apply list_elem_of_further).
    assert (Hstep : forall z,
              merged_value (Some y) (Dict.get k sr) = Some z ->
              merge_keys sr sl ks (Dict.set k z sa)
                = merge_keys sr sl (k :: ks) sa ->
              exists sa',
                merge_keys sr sl (k :: ks) sa = (Ok tt, sa') /\
                forall q,
                  Dict.get q sa' =
                    if decide (q ∈ k :: ks)
                    then merged_value (Dict.get q sl) (Dict.get q sr)
                    else Dict.get q sa).
    { intros z Hz Heq. destruct (IH (Dict.set k z sa) Hsl') as (sa' & Hm & Hget).
      { intros k' Hk'. rewrite get_set_ne by (intros ->; done).
        apply Hsa. by apply list_elem_of_further. }
      exists sa'. split; [by rewrite <- Heq|]. intros q. rewrite Hget.
      destruct (decide (q = k)) as [->|Hqk].
      - rewrite decide_False by done.
        rewrite decide_True by apply list_elem_of_here.
        by rewrite get_set_eq, Hy, Hz.
      - repeat case_decide; try done.
        + exfalso. apply H0. by apply list_elem_of_further.
        + apply elem_of_cons in H0 as [?|?]; done.
        + by rewrite get_set_ne. }
    pose proof (Hsa k (list_elem_of_here _ _)) as Hsak.
    destruct (is_list_at k sr) eqn:Hlist.
    + pose proof (Hyl eq_refl) as Hyl'. unfold is_list_at in Hlist.
      destruct (Dict.get k sr) as [v|] eqn:Hv; [|done].
      destruct (is_list_YList _ Hlist) as [xs ->].
      destruct (is_list_YList _ Hyl') as [ys ->].
      apply (Hstep (YList (xs ++ ys))); [done|].
      cbn [merge_keys]. rewrite Hy. unfold is_list_at. rewrite Hv. simpl.
      by rewrite Hsak.
    + apply (Hstep y).
      * unfold is_list_at in Hlist.
        destruct (Dict.get k sr) as [[]|]; done.
      * cbn [merge_keys]. by rewrite Hy, Hlist.
Qed.

Lemma get_inj_values {V} (d : Dict.t V) (k k' : string) (v : V) :
  NoDup (map snd d) -> Dict.get k d = Some v -> Dict.get k' d = Some v ->
  k = k'.
Proof.
  induction d as [|[k0 v0] d IH]; simpl; [done|].
  intros [Hv0 Hd]%NoDup_cons.
  assert (Hin : forall q, Dict.get q d = Some v0 -> False).
  { intros q Hq. apply Hv0. apply list_elem_of_fmap.
    exists (q, v0). split; [done|]. by apply get_elem_of. }
  destruct (String.eqb_spec k0 k) as [E|Hk];
    destruct (String.eqb_spec k0 k') as [E'|Hk'].
  - congruence.
  - intros [= ->] Hq. by destruct (Hin k').
  - intros Hq [= ->]. by destruct (Hin k).
  - by apply IH.
Qed.

Lemma unshared_of_NoDup (cr cl : Dict.t nat) :
  NoDup (map snd cr) -> unshared cr cl.
Proof.
  intros Hnd tool tool' ra _ Hra Hra'. by eapply (get_inj_values cr).
Qed.

Section ExactInvariant.

Variables (st0 : store) (cs50 root_cs50 : nat) (cr cl : Dict.t nat).
Variable memo : gmap nat nat.
Hypothesis Hok : store_ok st0.
Hypothesis Hcl : configs st0 !! cs50 = Some cl.
Hypothesis Hcr : configs st0 !! root_cs50 = Some cr.
Hypothesis Hunshared : unshared cr cl.
Hypothesis Hinj :
  forall ra ra' a, memo !! ra = Some a -> memo !! ra' = Some a -> ra = ra'.
Hypothesis Hcompat : forall tool, no_clash st0 cs50 root_cs50 tool.

Local Abbreviation result := (length (configs st0)).

Lemma merge_tool_exact (tool : string) (done : list string) (st : store) :
  tool ∈ Dict.keys cl -> tool ∉ done ->
  merge_exact_inv st0 cs50 cr cl memo done st ->
  exists st',
    merge_tool cs50 root_cs50 result tool st = Some (Ok tt, st') /\
    merge_exact_inv st0 cs50 cr cl memo (done ++ [tool]) st'.
Proof using Hok Hcl Hcr Hunshared Hinj Hcompat.
  intros Htool Hnew (cres & news & Hcs & Hss & Hres & Hsec).
  destruct (keys_get_Some _ _ Htool) as [la Hla].
  assert (Hcl' : configs st !! cs50 = Some cl)
    by (rewrite Hcs; by apply lookup_app_l_Some).
  assert (Hcr' : configs st !! root_cs50 = Some cr)
    by (rewrite Hcs; by apply lookup_app_l_Some).
  assert (Hcres : configs st !! result = Some cres)
    by (rewrite Hcs; by rewrite lookup_app_r, Nat.sub_diag).
  assert (Hdone : forall tool', tool' <> tool ->
            forall (X : Type) (x y : X),
              (if decide (tool' ∈ done ++ [tool]) then x else y)
              = (if decide (tool' ∈ done) then x else y)).
  { intros tool' Hne X x y. repeat case_decide; try done.
    - apply elem_of_app in H as [?|?%list_elem_of_singleton]; done.
    - exfalso. apply H. apply elem_of_app. by left. }
  destruct (Dict.get tool cr) as [ra|] eqn:Hra.
  - destruct (Hsec tool ra Hra)
      as (a & sr & sa & Hma & Hfresh & Hsr & Hsa & Hkeys).
    assert (Hagree : forall key, Dict.get key sa = Dict.get key sr)
      by (intros key; by rewrite Hkeys, decide_False).
    assert (Ha : Dict.get tool cres = Some a) by by rewrite Hres, Hra.
    destruct (local_section st0 cs50 cl Hok Hcl tool la Hla) as [sl Hsl].
    assert (Hlt_ra : (ra < length (sections st0))%nat) by by eapply lookup_lt_Some.
    assert (Hlt_la : (la < length (sections st0))%nat) by by eapply lookup_lt_Some.
    assert (Hne_ra : a <> ra) by lia.
    assert (Hne_la : a <> la) by lia.
    assert (Hready : tool_ready cs50 root_cs50 result tool cr cl cres
                       ra la a sr sl st sa).
    { unfold tool_ready. rewrite Hss.
      rewrite !(lookup_app_l_Some (sections st0)) with (x := sr) by done.
      split; [done|]. split; [done|]. split; [done|].
      split; [done|]. split; [done|].
      split; [by apply lookup_app_l_Some|].
      split; [done|]. split; [done|]. by rewrite <- Hss. }
    assert (Hlocal : forall key, lookup st0 cs50 tool key = Dict.get key sl).
    { intros key. unfold lookup. rewrite Hcl. simpl. rewrite Hla. simpl.
      by rewrite Hsl. }
    assert (Hroot : forall key, lookup st0 root_cs50 tool key = Dict.get key sr).
    { intros key. unfold lookup. rewrite Hcr. simpl. rewrite Hra. simpl.
      by rewrite Hsr. }
    destruct (merge_keys_exact sr sl (Dict.keys sl)) with (sa := sa)
      as (sa' & Hmk & Hget).
    { destruct Hok as [_ Hsecs]. rewrite Forall_forall in Hsecs.
      apply Hsecs. by eapply list_elem_of_lookup_2. }
    { intros k [y Hy]%keys_get_Some. exists y. split; [done|].
      unfold is_list_at. destruct (Dict.get k sr) as [v|] eqn:Hv; [|done].
      intros [xs ->]%is_list_YList.
      apply (Hcompat tool k xs y); by rewrite ?Hroot, ?Hlocal. }
    { done. }
    rewrite (merge_tool_present _ _ _ _ _ _ _ _ _ _ _ _ st sa Hne_ra Hne_la Hready).
    rewrite Hmk. exists (set_section st a sa'). split; [done|].
    exists cres, (<[(a - length (sections st0))%nat := sa']> news).
    split; [done|]. split.
    { unfold set_section. simpl. rewrite Hss.
      by rewrite insert_app_r_alt by lia. }
    split.
    + intros tool'. rewrite Hres.
      destruct (Dict.get tool' cr) eqn:Hra'; [done|].
      symmetry. apply Hdone. congruence.
    + intros tool' ra' Hra'.
      destruct (Hsec tool' ra' Hra')
        as (a' & sr' & sa0 & Hma' & Hfresh' & Hsr' & Hsa0 & Hkeys').
      unfold set_section. simpl.
      destruct (decide (tool' = tool)) as [->|Hne].
      * assert (ra' = ra) as -> by congruence.
        assert (a' = a) as -> by congruence.
        exists a, sr, sa'. split; [done|]. split; [done|]. split; [done|].
        split; [apply list_lookup_insert_eq; by eapply lookup_lt_Some|].
        intros key. rewrite decide_True
          by (apply elem_of_app; right; apply list_elem_of_here).
        rewrite Hget, Hlocal.
        destruct (decide (key ∈ Dict.keys sl)) as [Hkey|Hkey]; [done|].
        apply get_None_keys in Hkey. by rewrite Hkey, Hagree.
      * assert (ra' <> ra).
        { intros ->. apply Hne. by eapply (Hunshared tool). }
        assert (a' <> a) by (intros ->; eauto).
        exists a', sr', sa0. split; [done|]. split; [done|]. split; [done|].
        split; [by rewrite list_lookup_insert_ne|].
        intros key. rewrite Hkeys'. symmetry. by apply Hdone.
  - rewrite (merge_tool_absent _ _ _ _ cr cl cres la st) by done.
    exists (set_config st result (Dict.set tool la cres)). split; [done|].
    exists (Dict.set tool la cres), news. split.
    { unfold set_config. simpl. rewrite Hcs.
      rewrite insert_app_r_alt by lia. by rewrite Nat.sub_diag. }
    split; [done|]. split.
    + intros tool'. rewrite get_set. case_decide as Heq.
      * subst tool'. rewrite Hra.
        by rewrite decide_True
          by (apply elem_of_app; right; apply list_elem_of_here).
      * rewrite Hres. destruct (Dict.get tool' cr); [done|].
        symmetry. apply Hdone. congruence.
    + intros tool' ra' Hra'.
      destruct (Hsec tool' ra' Hra')
        as (a' & sr' & sa0 & Hma' & Hfresh' & Hsr' & Hsa0 & Hkeys').
      exists a', sr', sa0. split; [done|]. split; [done|]. split; [done|].
      split; [done|]. intros key. rewrite Hkeys'. symmetry. apply Hdone.
      congruence.
Qed.

End ExactInvariant.

Lemma merged_value_None_r (x : option yaml) : merged_value x None = x.
Proof. by destruct x. Qed.

(** C3, as the code has it.  In a well-formed store, when no tool that both
    configurations have shares its root section with another tool of the
    root, and no key holds a list in the root and something else locally,
    the merge returns a configuration where, for
    every tool and key, the value is given by the rule: the root's list
    followed by the local list when the key is on both sides and the root's
    value is a list, the local value for any other key that is on both
    sides or only local, the root's value for a key of the root alone; and a
    tool is in the result exactly if it is on either side.  The example of
    the specification is an instance. *)
Theorem merge_follows_rule (st : store) (cs50 root_cs50 : nat)
    (cl cr : Dict.t nat) :
  store_ok st ->
  configs st !! cs50 = Some cl ->
  configs st !! root_cs50 = Some cr ->
  unshared cr cl ->
  (forall tool, no_clash st cs50 root_cs50 tool) ->
  exists res st',
    _merge_cs50_yaml cs50 root_cs50 st = Some (Ok res, st') /\
    (forall tool key,
       lookup st' res tool key =
         merged_value (lookup st cs50 tool key) (lookup st root_cs50 tool key)) /\
    (forall tool,
       has_tool st' res tool =
         has_tool st cs50 tool || has_tool st root_cs50 tool).
Proof.
  intros Hok Hcl Hcr Hnd Hcompat.
  destruct (deepcopy_spec _ _ _ Hok Hcr)
    as (copied & memo & secs' & Hdc & ((news & ->) & Hmemo & Hinj) & Hall).
  set (st1 := {| configs := configs st ++ [copied];
                 sections := sections st ++ news |}) in *.
  destruct (store_ok_items _ _ _ Hok Hcl) as [Hndl _].
  assert (Hinv1 : merge_exact_inv st cs50 cr cl memo [] st1).
  { exists copied, news. split; [done|]. split; [done|]. split.
    - intros tool. pose proof (copied_get _ _ _ Hall tool) as Hget.
      destruct (Dict.get tool cr) as [ra|]; [|done].
      by destruct Hget as (a & -> & ->).
    - intros tool ra Hra. pose proof (copied_get _ _ _ Hall tool) as Hget.
      rewrite Hra in Hget. destruct Hget as (a & Hma & _).
      destruct (Hmemo ra a Hma) as (Hfresh & s & Hs & Hs').
      by exists a, s, s. }
  destruct (for_each_spec
              (merge_exact_inv st cs50 cr cl memo)
              (fun _ _ => False)
              (Dict.keys cl)
              (merge_tool cs50 root_cs50 (length (configs st))))
    with (st := st1) as (r & st' & Hloop & Hpost); [|done|].
  { intros done tool rest st2 Hsplit Hinv.
    destruct (merge_tool_exact st cs50 root_cs50 cr cl memo
                Hok Hcl Hcr Hnd Hinj Hcompat tool done st2)
      as (st3 & Hstep & Hinv'); [| |done|].
    - rewrite Hsplit. rewrite elem_of_app, elem_of_cons. auto.
    - rewrite Hsplit in Hndl. apply NoDup_app in Hndl as (_ & Hdisj & _).
      intros Hin. apply (Hdisj tool Hin), list_elem_of_here.
    - by exists (Ok tt), st3. }
  destruct r as [[]|e]; [|done].
  destruct Hpost as (cres & news' & Hcs & Hss & Hres & Hsec).
  assert (Hcres : configs st' !! length (configs st) = Some cres)
    by (rewrite Hcs; by rewrite lookup_app_r, Nat.sub_diag).
  exists (length (configs st)), st'. split; [|split].
  - unfold _merge_cs50_yaml. unfold bind at 1. rewrite Hdc.
    unfold bind at 1. rewrite (config_keys_eq st1 cs50 cl)
      by by apply lookup_app_l_Some.
    unfold bind at 1. by rewrite Hloop.
  - intros tool key. unfold lookup at 1. rewrite Hcres. simpl.
    rewrite Hres. unfold lookup at 2. rewrite Hcr. simpl.
    destruct (Dict.get tool cr) as [ra|] eqn:Hra; simpl.
    + destruct (Hsec tool ra Hra) as (a & sr & sa & -> & _ & -> & Hsa & Hkey).
      simpl. rewrite Hsa. simpl. rewrite Hkey.
      case_decide as Htool; [done|].
      unfold lookup. rewrite Hcl. simpl.
      apply get_None_keys in Htool. by rewrite Htool.
    + rewrite merged_value_None_r. unfold lookup. rewrite Hcl. simpl.
      case_decide as Htool.
      * destruct (Dict.get tool cl) as [la|] eqn:Hla; [simpl|done].
        destruct (local_section st cs50 cl Hok Hcl tool la Hla) as [sl Hsl].
        rewrite Hsl, Hss. by rewrite (lookup_app_l_Some _ _ _ _ Hsl).
      * apply get_None_keys in Htool. by rewrite Htool.
  - intros tool. unfold has_tool. rewrite Hcres, Hcl, Hcr.
    unfold Dict.has. rewrite Hres.
    destruct (Dict.get tool cr) as [ra|] eqn:Hra.
    + destruct (Hsec tool ra Hra) as (a & sr & sa & -> & _).
      by rewrite orb_true_r.
    + rewrite orb_false_r. case_decide as Htool; [done|].
      apply get_None_keys in Htool. by rewrite Htool.
Qed.

(** ** [connect] and the root configuration *)

(** C9, as the code has it.  Once the slug is resolved and the local
    configuration is fetched, loaded and found to have the tool, what
    [connect] does next depends on the fetch of the root configuration.  If
    that fetch raises the program's [Error], the exception is swallowed and
    [connect] ends on the local configuration alone.  If it raises anything
    else, the exception propagates.  If it succeeds, the root configuration
    is loaded and merged with the local one, and [connect] ends, check of
    the required files included, on the merged configuration. *)
Theorem connect_root_fetch (w : SlugWorld) (fw : FetchWorld)
    (org branch tool : string) (st : store)
    (po pr pb : string) (pd : Path) (content : string) (d : document) :
  _parse_slug w branch false = Ok (po, pr, pb, pd) ->
  _get_content_from w fw po pr pb (w_joinpath fw pd ".cs50.yaml") = Ok content ->
  w_safe_load fw content = Ok d ->
  has_tool (install d st) (length (configs st)) tool = true ->
  connect w fw org branch tool st =
    match _get_content_from w fw po pr pb ".cs50.yaml" with
    | Raise e =>
        if is_Error e
        then connect_finish w fw tool (length (configs st)) (install d st)
        else Some (Raise e, install d st)
    | Ok root_content =>
        (let* root_cs50_yaml := safe_load fw root_content in
         let* merged := _merge_cs50_yaml (length (configs st)) root_cs50_yaml in
         connect_finish w fw tool merged) (install d st)
    end.
Proof.
  intros Hparse Hlocal Hload Htool.
  unfold has_tool in Htool.
  destruct (configs (install d st) !! length (configs st)) as [c|] eqn:Hc;
    [|done].
  unfold connect. unfold bind at 1, lift. rewrite Hparse.
  unfold bind at 1. rewrite Hlocal.
  unfold bind at 1, safe_load. unfold bind at 1, lift. rewrite Hload.
  unfold load.
  unfold bind at 1. rewrite (config_contains_eq _ _ _ _ Hc), Htool. simpl.
  destruct (_get_content_from w fw po pr pb ".cs50.yaml") as [root_content|e].
  - apply bind_assoc.
  - by destruct (is_Error e).
Qed.

(** * Instances *)

(** Decides a closed, decidable statement by computing. *)
Ltac decide_closed := apply (bool_decide_unpack _); vm_compute; exact I.

Lemma example_store_ok : store_ok example_store.
Proof. unfold store_ok. decide_closed. Qed.

Lemma clash_store_ok : store_ok clash_store.
Proof. unfold store_ok. decide_closed. Qed.

Lemma aliased_store_ok : store_ok aliased_store.
Proof. unfold store_ok. decide_closed. Qed.

(** The example of the specification, run. *)
Example merge_example :
  exists st',
    _merge_cs50_yaml 0 1 example_store = Some (Ok 2%nat, st') /\
    configs st' !! 2%nat = Some [("a", 4%nat); ("c", 5%nat); ("b", 1%nat)] /\
    lookup st' 2 "a" "include" = Some (YList [YStr "y"; YStr "x"]) /\
    lookup st' 2 "b" "req" = Some (YInt 1) /\
    lookup st' 2 "c" "req" = Some (YInt 2) /\
    take 2 (configs st') = configs example_store /\
    take 4 (sections st') = sections example_store.
Proof. eexists. split; [vm_compute; reflexivity|]. by vm_compute. Qed.

(** The counterexamples to C3 as stated, both in well-formed stores.  With a
    root list and a local string under the same key of the same tool, the
    merge returns no configuration.  With a root whose tools [a] and [b]
    are one section, merging the local [a] changes [b] too, a tool that the
    local configuration does not have. *)
Lemma merge_rule_fails :
  (store_ok clash_store /\
   lookup clash_store 1 "a" "include" = Some (YList [YStr "y"]) /\
   lookup clash_store 0 "a" "include" = Some (YStr "x") /\
   ~ exists res st', _merge_cs50_yaml 0 1 clash_store = Some (Ok res, st')) /\
  (store_ok aliased_store /\
   lookup aliased_store 0 "b" "include" = None /\
   lookup aliased_store 1 "b" "include" = Some (YList [YStr "y"]) /\
   exists st',
     _merge_cs50_yaml 0 1 aliased_store = Some (Ok 2%nat, st') /\
     lookup st' 2 "b" "include" = Some (YList [YStr "y"; YStr "x"]) /\
     lookup st' 2 "b" "include"
       <> merged_value (lookup aliased_store 0 "b" "include")
                       (lookup aliased_store 1 "b" "include")).
Proof.
  split.
  - split; [apply clash_store_ok|]. split; [done|]. split; [done|].
    intros (res & st' & H). vm_compute in H. discriminate.
  - split; [apply aliased_store_ok|]. split; [done|]. split; [done|].
    eexists. split; [vm_compute; reflexivity|]. by vm_compute.
Qed.

Lemma example_no_clash (tool : string) : no_clash example_store 0 1 tool.
Proof.
  intros key xs v. unfold lookup. cbn -[String.eqb].
  destruct (String.eqb_spec "a" tool) as [<-|Ha]; cbn -[String.eqb].
  - destruct (String.eqb_spec "include" key) as [<-|Hk]; [|done].
    by intros _ [= <-].
  - destruct (String.eqb_spec "c" tool) as [<-|Hc]; [|done].
    vm_compute. intros _ H. discriminate H.
Qed.

Lemma merge_follows_rule_witness :
  exists res st',
    _merge_cs50_yaml 0 1 example_store = Some (Ok res, st') /\
    lookup st' res "a" "include" = Some (YList [YStr "y"; YStr "x"]) /\
    lookup st' res "b" "req" = Some (YInt 1) /\
    lookup st' res "c" "req" = Some (YInt 2).
Proof.
  destruct (merge_follows_rule example_store 0 1
              [("a", 0%nat); ("b", 1%nat)] [("a", 2%nat); ("c", 3%nat)])
    as (res & st' & Hmerge & Hrule & _).
  - apply example_store_ok.
  - reflexivity.
  - reflexivity.
  - apply unshared_of_NoDup. simpl. decide_closed.
  - apply example_no_clash.
  - exists res, st'. split; [exact Hmerge|].
    rewrite !Hrule. repeat split; reflexivity.
Defined.

Lemma merge_leaves_inputs_witness :
  exists r st',
    _merge_cs50_yaml 0 1 aliased_store = Some (r, st') /\
    (forall tool key,
       lookup st' 0 tool key = lookup aliased_store 0 tool key /\
       lookup st' 1 tool key = lookup aliased_store 1 tool key).
Proof.
  destruct (merge_leaves_inputs aliased_store 0 1)
    as (r & st' & Hmerge & _ & _ & _ & _ & Hsame & _).
  - apply aliased_store_ok.
  - by eexists.
  - by eexists.
  - exists r, st'. split; [exact Hmerge | exact Hsame].
Defined.

Lemma merge_list_with_other_witness :
  exists st', _merge_cs50_yaml 0 1 clash_store = Some (Raise TypeError, st').
Proof.
  destruct (merge_list_with_other clash_store 0 1 "a" "include"
              [YStr "y"] (YStr "x")) as (st' & Hmerge & _).
  - apply clash_store_ok.
  - reflexivity.
  - reflexivity.
  - reflexivity.
  - exists st'. exact Hmerge.
Defined.

Lemma parse_slug_rejects_slashes_witness :
  _parse_slug sample_world "/cs50/problems2/master/hello/" false
    = Raise (InvalidSlug
        ("Invalid slug. Did you mean cs50/problems2/master/hello, " +:+
         "without the leading and trailing slashes?")) /\
  _parse_slug sample_world "cs50/problems2/master/hello/" true
    = Raise (InvalidSlug
        ("Invalid slug. Did you mean cs50/problems2/master/hello, " +:+
         "without the trailing slash?")).
Proof.
  split.
  - destruct (parse_slug_rejects_slashes sample_world
                "/cs50/problems2/master/hello/" false) as (H & _).
    + left. reflexivity.
    + exact (H eq_refl eq_refl).
  - destruct (parse_slug_rejects_slashes sample_world
                "cs50/problems2/master/hello/" true) as (_ & _ & H & _).
    + right. reflexivity.
    + exact (H eq_refl eq_refl).
Defined.


Lemma two_factor_short_circuits_witness :
  exists t,
    _authenticate_https
      (sample_auth permission_denied (Ok two_factor_response) git_works)
      "cs50" ret []
    = Some (Raise (Error two_factor_msg), t) /\
    ELogDebug "headers" ∉ t.
Proof.
  destruct (two_factor_short_circuits
              (sample_auth permission_denied (Ok two_factor_response) git_works)
              "cs50" (ret (A := User)) (Some "octocat") (Some "hunter2")
              two_factor_response [])
    as (_ & _ & _ & Hwhole).
  - reflexivity.
  - reflexivity.
  - edestruct (Hwhole []) as [_ Hrun].
    + reflexivity.
    + vm_compute. reflexivity.
    + eexists. split.
      * apply (Hrun ""); [reflexivity | intros e2 H; discriminate H].
      * vm_compute. intros H.
        repeat (apply elem_of_cons in H as [H|H]; [discriminate H|]).
        by apply elem_of_nil in H.
Defined.



Lemma connect_root_fetch_witness :
  connect sample_world (sample_fetch (Ok (false, "")))
    "check50" "cs50/problems2/master/hello" "check50" empty_store
  = Some (Ok 0%nat, install sample_local empty_store).
Proof.
  rewrite (connect_root_fetch sample_world (sample_fetch (Ok (false, "")))
             "check50" "cs50/problems2/master/hello" "check50" empty_store
             "cs50" "problems2" "master" {| path_arg := "hello" |}
             "local" sample_local).
  - reflexivity.
  - reflexivity.
  - reflexivity.
  - reflexivity.
  - reflexivity.
Defined.

(** The counterexample to C9 as stated: the request for the root
    configuration fails in the transport, with an exception that is not the
    program's [Error]; [connect] raises it, though on the local
    configuration alone it would have returned the tool's section. *)
Lemma connect_transport_failure_propagates :
  connect sample_world
    (sample_fetch (Raise (PyExn "ConnectionError" "connection refused")))
    "check50" "cs50/problems2/master/hello" "check50" empty_store
  = Some (Raise (PyExn "ConnectionError" "connection refused"),
          install sample_local empty_store) /\
  connect_finish sample_world
    (sample_fetch (Raise (PyExn "ConnectionError" "connection refused")))
    "check50" 0 (install sample_local empty_store)
  = Some (Ok 0%nat, install sample_local empty_store).
Proof. split; reflexivity. Qed.

(* ================================================================== *)
(** * Further properties *)

(** ** Slugs: the first two slashes *)

Section Slashes.

Variable c : ascii.

Local Abbreviation sep := (String c EmptyString).

Lemma prefix_char (s : string) :
  String.prefix sep s = match s with
                        | String d _ => bool_decide (c = d)
                        | EmptyString => false
                        end.
Proof.
  destruct s as [|d s]; [done|]. simpl.
  destruct (ascii_dec c d); case_bool_decide; try done. by destruct s.
Qed.

(** The first occurrence of a character, from the start of a string. *)
Lemma index_char (s : string) :
  match String.index 0 sep s with
  | Some i =>
      exists a b, s = a +:+ String c b /\ String.length a = i /\ c ∉ chars a
  | None => c ∉ chars s
  end.
Proof.
  induction s as [|d s IH].
  - simpl. apply not_elem_of_nil.
  - cbn [String.index]. rewrite prefix_char. case_bool_decide as Hd.
    + subst d. exists "", s. split; [done|]. split; [done|].
      apply not_elem_of_nil.
    + destruct (String.index 0 sep s) as [i|].
      * destruct IH as (a & b & -> & <- & Ha).
        exists (String d a), b. split; [by rewrite append_cons|].
        split; [done|]. unfold chars in *. simpl.
        rewrite not_elem_of_cons. split; [congruence | done].
      * unfold chars in *. simpl. rewrite not_elem_of_cons.
        split; [congruence | done].
Qed.

(** The occurrences at or after [n] are those of the text from [n] on. *)
Lemma index_from (n : nat) (s : string) :
  String.index n sep s
  = (fun i => (n + i)%nat) <$> String.index 0 sep (Str.slice_from n s).
Proof.
  revert s. induction n as [|n IH]; intros s.
  - simpl. by destruct (String.index 0 sep s).
  - destruct s as [|d s]; [done|].
    cbn [String.index Str.slice_from]. rewrite IH.
    by destruct (String.index 0 sep (Str.slice_from n s)).
Qed.

Lemma split_head (a rest : string) :
  c ∉ chars a ->
  Str.split c (a +:+ String c rest) = a :: Str.split c rest.
Proof.
  induction a as [|d a IH]; intros Ha.
  - rewrite append_nil. simpl. by rewrite Ascii.eqb_refl.
  - unfold chars in Ha. simpl in Ha. apply not_elem_of_cons in Ha as [Hd Ha].
    rewrite append_cons. simpl.
    destruct (Ascii.eqb_spec d c) as [->|_]; [done|].
    by rewrite IH.
Qed.

End Slashes.

Lemma slice_from_skip (a : string) (d : ascii) (b : string) :
  Str.slice_from (S (String.length a)) (a +:+ String d b) = b.
Proof.
  induction a as [|e a IH]; [done|]. rewrite append_cons. simpl. apply IH.
Qed.

(** How [_parse_slug] cuts a slug that has no slash at either end: at its
    first two slashes, or not at all. *)
Lemma parse_slug_cut (w : SlugWorld) (slug : string) (offline : bool) :
  Str.startswith slug "/" = false ->
  Str.endswith slug "/" = false ->
  (("/"%char ∉ chars slug) \/
   (exists a b, slug = a +:+ "/" +:+ b /\
                ("/"%char ∉ chars a) /\ ("/"%char ∉ chars b))) /\
    _parse_slug w slug offline = Raise (InvalidSlug slug)
  \/
  exists org repo remainder,
    slug = org +:+ "/" +:+ repo +:+ "/" +:+ remainder /\
    ("/"%char ∉ chars org) /\ ("/"%char ∉ chars repo) /\
    _parse_slug w slug offline =
      obind (parse_branch w slug org repo remainder offline)
        (fun '(branch, problem) =>
           Ok (org, repo, branch, PosixPath problem)).
Proof.
  intros Hs He. unfold _parse_slug. rewrite Hs, He. cbn [andb]. cbv zeta.
  assert (Hfind : forall n : nat, Str.find slug "/" (Z.of_nat n) =
            match String.index n "/" slug with
            | Some i => Z.of_nat i
            | None => -1
            end).
  { intros n. unfold Str.find. by rewrite Nat2Z.id. }
  pose proof (Hfind 0%nat) as Hf0. change (Z.of_nat 0) with 0 in Hf0.
  rewrite Hf0. clear Hf0.
  pose proof (index_char "/" slug) as H1.
  destruct (String.index 0 "/" slug) as [i|] eqn:Hi.
  - destruct H1 as (a & b & Hslug & <- & Ha).
    replace (Z.of_nat (String.length a) + 1)
      with (Z.of_nat (S (String.length a))) by lia.
    assert (Hsl : Str.slice_from (S (String.length a)) slug = b)
      by (rewrite Hslug; apply slice_from_skip).
    rewrite Hfind, index_from, Hsl.
    pose proof (index_char "/" b) as H2.
    destruct (String.index 0 "/" b) as [j|] eqn:Hj.
    + destruct H2 as (b1 & b2 & Hb & <- & Hb1). right.
      exists a, b1, b2. rewrite Hb in Hslug. clear Hsl.
      split; [by rewrite Hslug, !append_cons, !append_nil|].
      split; [done|]. split; [done|]. cbn [fmap option_fmap option_map].
      destruct (_ =? -1) eqn:Hneg; [apply Z.eqb_eq in Hneg; lia|].
      assert (Hsplit : Str.split "/" slug = a :: b1 :: Str.split "/" b2).
      { rewrite Hslug. rewrite split_head by done. by rewrite split_head. }
      rewrite Hsplit. cbn [lookup list_lookup].
      replace (Z.to_nat (Z.of_nat (S (String.length a) + String.length b1) + 1))
        with (S (String.length (a +:+ String "/" b1))).
      2: { rewrite length_append. simpl. lia. }
      assert (slug = (a +:+ String "/" b1) +:+ String "/" b2) as Hslug'.
      { by rewrite Hslug, append_assoc, append_cons. }
      assert (Hrem : Str.slice_from (S (String.length (a +:+ String "/" b1))) slug
                     = b2) by (rewrite Hslug'; apply slice_from_skip).
      by rewrite Hrem.
    + left. split; [|done]. right. exists a, b.
      split; [by rewrite Hslug, append_cons, append_nil|]. done.
  - left. split; [by left|]. change (-1 + 1) with (Z.of_nat 0).
    by rewrite Hfind, Hi.
Qed.

(** ** Slugs: what branch resolution returns and raises *)

Lemma match_branch_sound (slug remainder : string)
    (branches : list (outcome string)) (b rest : string) :
  match_branch slug remainder branches = Ok (b, rest) ->
  remainder = b +:+ "/" +:+ rest.
Proof.
  induction branches as [|[b0|e] branches IH]; simpl; [done| |done].
  destruct (Str.startswith remainder (b0 +:+ "/")) eqn:Hs; [|done].
  intros [= <- <-]. apply startswith_iff in Hs as [r ->].
  replace (String.length b0 + 1)%nat with (String.length (b0 +:+ "/"))
    by (rewrite length_append; done).
  by rewrite slice_from_append, append_assoc.
Qed.

Lemma match_branch_raises (slug remainder : string)
    (branches : list (outcome string)) (e : exn) :
  match_branch slug remainder branches = Raise e ->
  e = InvalidSlug slug \/ Raise e ∈ branches.
Proof.
  induction branches as [|[b0|e0] branches IH]; simpl.
  - intros [= <-]. by left.
  - destruct (Str.startswith remainder (b0 +:+ "/")); [done|].
    intros [->|Hin]%IH; [by left | right; by apply list_elem_of_further].
  - intros [= ->]. right. apply list_elem_of_here.
Qed.

Lemma parse_branch_sound (w : SlugWorld) (slug org repo remainder : string)
    (offline : bool) (b rest : string) :
  parse_branch w slug org repo remainder offline = Ok (b, rest) ->
  remainder = b +:+ "/" +:+ rest.
Proof.
  assert (Hoff : parse_branch w slug org repo remainder true = Ok (b, rest) ->
                 remainder = b +:+ "/" +:+ rest).
  { unfold parse_branch, parse_branch_body. simpl.
    destruct (w_local_branches w org repo) as [bs|e].
    - apply match_branch_sound.
    - by destruct (is_GitError e). }
  destruct offline; [done|].
  unfold parse_branch in *.
  set (inner := parse_branch_body w slug org repo remainder _ true) in *.
  unfold parse_branch_body at 1. simpl.
  destruct inner as [r|e]; [by intros [= ->]; apply Hoff|].
  destruct (is_InvalidSlug e).
  - destruct (w_ls_remote w _) as [out|e'].
    + apply match_branch_sound.
    + by destruct (is_GitError e').
  - by destruct (is_GitError e).
Qed.

Lemma branch_of_line_raises (line : string) (e : exn) :
  branch_of_line line = Raise e -> is_GitError e = false.
Proof.
  unfold branch_of_line. destruct (Str.split TAB line !! 1%nat); [done|].
  by intros [= <-].
Qed.

Lemma parse_branch_raises (w : SlugWorld) (slug org repo remainder : string)
    (offline : bool) (e : exn) :
  parse_branch w slug org repo remainder offline = Raise e ->
  is_GitError e = false.
Proof.
  assert (Hoff : forall e,
            parse_branch w slug org repo remainder true = Raise e ->
            is_GitError e = false).
  { intros e'. unfold parse_branch, parse_branch_body. simpl.
    destruct (w_local_branches w org repo) as [bs|e0].
    - intros [->|Hin]%match_branch_raises; [done|].
      apply list_elem_of_fmap in Hin as (? & ? & ?). done.
    - destruct (is_GitError e0) eqn:HG; intros [= <-]; done. }
  destruct offline; [by apply Hoff|].
  unfold parse_branch in *.
  set (inner := parse_branch_body w slug org repo remainder _ true) in *.
  unfold parse_branch_body at 1. simpl.
  destruct inner as [r|e0] eqn:Hinner; [done|].
  destruct (is_InvalidSlug e0).
  - destruct (w_ls_remote w _) as [out|e'].
    + intros [->|Hin]%match_branch_raises; [done|].
      apply list_elem_of_fmap in Hin as (line & Hline & _).
      by eapply branch_of_line_raises.
    + destruct (is_GitError e') eqn:HG; intros [= <-]; done.
  - destruct (is_GitError e0) eqn:HG; intros [= <-]; done.
Qed.

Lemma parse_slug_slashed (w : SlugWorld) (slug : string) (offline : bool) :
  Str.startswith slug "/" = true \/ Str.endswith slug "/" = true ->
  exists msg, _parse_slug w slug offline = Raise (InvalidSlug msg).
Proof.
  unfold _parse_slug.
  destruct (Str.startswith slug "/"), (Str.endswith slug "/"); simpl;
    intros [?|?]; try done; by eexists.
Qed.

Lemma not_slashed (w : SlugWorld) (slug : string) (offline : bool) r :
  _parse_slug w slug offline = Ok r ->
  Str.startswith slug "/" = false /\ Str.endswith slug "/" = false.
Proof.
  intros Hr.
  destruct (Str.startswith slug "/") eqn:Hs.
  { destruct (parse_slug_slashed w slug offline) as [msg Hm]; [by left|].
    congruence. }
  destruct (Str.endswith slug "/") eqn:He; [|done].
  destruct (parse_slug_slashed w slug offline) as [msg Hm]; [by right|].
  congruence.
Qed.

Lemma count_slashes (a b : string) (c : ascii) :
  count_occ ascii_dec (chars (a +:+ String c b)) c
    = S (count_occ ascii_dec (chars a) c + count_occ ascii_dec (chars b) c).
Proof.
  rewrite chars_append, count_occ_app. unfold chars. simpl.
  destruct (ascii_dec c c); [lia | done].
Qed.

(** X1.  A slug with fewer than two slashes, and none at its ends, is rejected
    as it is: the message is the slug itself, and nothing is asked of git,
    cached or remote. *)
Theorem parse_slug_too_short (w : SlugWorld) (slug : string) (offline : bool) :
  Str.startswith slug "/" = false ->
  Str.endswith slug "/" = false ->
  (count_occ ascii_dec (chars slug) "/"%char < 2)%nat ->
  _parse_slug w slug offline = Raise (InvalidSlug slug).
Proof.
  intros Hs He Hcount.
  destruct (parse_slug_cut w slug offline Hs He)
    as [[_ ?]|(org & repo & rem & Hslug & _)]; [done|].
  rewrite Hslug in Hcount.
  rewrite !append_cons, !append_nil in Hcount.
  rewrite !count_slashes in Hcount. lia.
Qed.

Lemma split_whole (c : ascii) (a : string) :
  c ∉ chars a -> Str.split c a = [a].
Proof.
  induction a as [|d a IH]; intros Ha; [done|].
  unfold chars in Ha. simpl in Ha. apply not_elem_of_cons in Ha as [Hd Ha].
  simpl. destruct (Ascii.eqb_spec d c) as [->|_]; [done|]. by rewrite IH.
Qed.

(** A text that is already the way pathlib writes a relative path, components
    that are neither empty nor ["."] with one slash between them, is the text
    of the path built from it. *)
Lemma split_concat (c : ascii) (parts : list string) :
  parts <> [] ->
  Forall (fun x => c ∉ chars x) parts ->
  Str.split c (String.concat (String c "") parts) = parts.
Proof.
  induction parts as [|x parts IH]; [done|]. intros _ Hall.
  apply Forall_cons in Hall as [Hx Hall].
  destruct parts as [|y parts]; [by apply split_whole|].
  change (String.concat (String c "") (x :: y :: parts))
    with (x +:+ String c "" +:+ String.concat (String c "") (y :: parts)).
  rewrite append_cons, append_nil.
  rewrite split_head by done. by rewrite IH.
Qed.

Lemma posix_text_normal (parts : list string) :
  parts <> [] ->
  Forall (fun x => x <> "" /\ x <> "." /\ "/"%char ∉ chars x) parts ->
  posix_text (String.concat "/" parts) = String.concat "/" parts.
Proof.
  intros Hne Hall. unfold posix_text.
  assert (Hhead : exists d t, String.concat "/" parts = String d t /\
                              d <> "/"%char).
  { destruct parts as [|x parts]; [done|].
    apply Forall_cons in Hall as [(Hx & _ & Hsl) _].
    destruct x as [|d x]; [done|]. exists d.
    unfold chars in Hsl. simpl in Hsl. apply not_elem_of_cons in Hsl as [Hd _].
    destruct parts as [|y parts].
    - exists x. by split; [|congruence].
    - exists (x +:+ "/" +:+ String.concat "/" (y :: parts)).
      split; [|congruence].
      change (String.concat "/" (String d x :: y :: parts))
        with (String d x +:+ "/" +:+ String.concat "/" (y :: parts)).
      by rewrite append_cons. }
  destruct Hhead as (d & t & Htext & Hd).
  assert (Hrel : Str.lstrip "/" (String.concat "/" parts)
                 = String.concat "/" parts).
  { rewrite Htext. simpl. by destruct (Ascii.eqb_spec d "/"). }
  rewrite Hrel, Nat.sub_diag. cbn [posix_root].
  rewrite (split_concat "/" parts Hne)
    by (eapply Forall_impl; [exact Hall|]; by intros x (_ & _ & ?)).
  assert (Hkeep : List.filter kept_part parts = parts).
  { clear -Hall. induction Hall as [|x parts (Hx & Hdot & _) _ IH]; [done|].
    assert (Hx' : kept_part x = true).
    { unfold kept_part.
      destruct (String.eqb_spec x "") as [|_]; [done|].
      by destruct (String.eqb_spec x ".") as [|_]. }
    cbn [List.filter]. by rewrite Hx', IH. }
  rewrite Hkeep. change ("" +:+ String.concat "/" parts)
    with (String.concat "/" parts).
  by rewrite Htext.
Qed.

(** X2.  A slug that resolves is the organisation, the repository, the branch
    and a text, with a slash between them, and the problem is the path pathlib
    builds from that text; the organisation and the repository are what stands
    before the first and the second slash, and neither the organisation nor
    the text is empty.  Where the text is already the way pathlib writes a
    relative path, the problem's own text is that text, so that the slug is
    its four parts as they are returned. *)
Theorem parse_slug_decomposes (w : SlugWorld) (slug : string) (offline : bool)
    (org repo branch : string) (problem : Path) :
  _parse_slug w slug offline = Ok (org, repo, branch, problem) ->
  exists text,
    slug = org +:+ "/" +:+ repo +:+ "/" +:+ branch +:+ "/" +:+ text /\
    problem = PosixPath text /\
    ("/"%char ∉ chars org) /\ ("/"%char ∉ chars repo) /\
    org <> "" /\ text <> "" /\
    (forall parts,
       parts <> [] ->
       Forall (fun x => x <> "" /\ x <> "." /\ "/"%char ∉ chars x) parts ->
       text = String.concat "/" parts ->
       path_arg problem = text).
Proof.
  intros Hr. destruct (not_slashed _ _ _ _ Hr) as [Hs He].
  destruct (parse_slug_cut w slug offline Hs He)
    as [[_ Hraise]|(org' & repo' & rem & Hslug & Horg & Hrepo & Heq)];
    [congruence|].
  rewrite Heq in Hr.
  destruct (parse_branch w slug org' repo' rem offline) as [[b rest]|e] eqn:Hpb;
    [|done].
  simpl in Hr. injection Hr as -> -> -> <-.
  apply parse_branch_sound in Hpb. subst rem. exists rest.
  split; [done|]. split; [done|]. split; [done|]. split; [done|].
  split; [|split].
  - intros ->.
    apply (proj1 (startswith_false _ _) Hs
             (repo +:+ "/" +:+ branch +:+ "/" +:+ rest)).
    by rewrite Hslug, !append_nil.
  - intros ->.
    apply (proj1 (endswith_false _ _) He
             (org +:+ "/" +:+ repo +:+ "/" +:+ branch)).
    rewrite Hslug. by rewrite !append_assoc.
  - intros parts Hne Hall ->. simpl. by apply posix_text_normal.
Qed.

(** X3.  No [GitError] leaves slug resolution: what git raises while branches
    are listed is turned into [InvalidSlug]. *)
Theorem parse_slug_no_git_error (w : SlugWorld) (slug : string) (offline : bool)
    (e : exn) :
  _parse_slug w slug offline = Raise e -> is_GitError e = false.
Proof.
  intros Hr.
  destruct (Str.startswith slug "/") eqn:Hs.
  { destruct (parse_slug_slashed w slug offline) as [msg Hm]; [by left|].
    rewrite Hm in Hr. by injection Hr as <-. }
  destruct (Str.endswith slug "/") eqn:He.
  { destruct (parse_slug_slashed w slug offline) as [msg Hm]; [by right|].
    rewrite Hm in Hr. by injection Hr as <-. }
  destruct (parse_slug_cut w slug offline Hs He)
    as [[_ Hraise]|(org & repo & rem & Hslug & _ & _ & Heq)].
  - rewrite Hraise in Hr. by injection Hr as <-.
  - rewrite Heq in Hr.
    destruct (parse_branch w slug org repo rem offline) as [[b rest]|e0] eqn:Hpb;
      [done|].
    simpl in Hr. injection Hr as <-. by eapply parse_branch_raises.
Qed.

(** X4.  The cached clone comes first: whatever a slug resolves to offline it
    resolves to online, whatever the remote would answer; and offline the remote
    plays no part at all. *)
Theorem parse_slug_prefers_cache (w : SlugWorld) (slug : string) :
  (forall remote r,
     _parse_slug w slug true = Ok r ->
     _parse_slug {| w_gettext := w_gettext w;
                    w_local_branches := w_local_branches w;
                    w_ls_remote := remote |} slug false = Ok r) /\
  (forall remote,
     _parse_slug {| w_gettext := w_gettext w;
                    w_local_branches := w_local_branches w;
                    w_ls_remote := remote |} slug true
     = _parse_slug w slug true).
Proof.
  assert (Hoff : forall remote,
     _parse_slug {| w_gettext := w_gettext w;
                    w_local_branches := w_local_branches w;
                    w_ls_remote := remote |} slug true
     = _parse_slug w slug true) by done.
  split; [|done]. intros remote r Hr. rewrite <- (Hoff remote) in Hr.
  revert Hr. generalize {| w_gettext := w_gettext w;
                           w_local_branches := w_local_branches w;
                           w_ls_remote := remote |}.
  clear. intros w Hr. destruct (not_slashed _ _ _ _ Hr) as [Hs He].
  revert Hr. unfold _parse_slug. rewrite Hs, He. simpl.
  destruct (_ =? -1); [done|].
  destruct (Str.split "/" slug !! 0%nat) as [o|]; [|done].
  destruct (Str.split "/" slug !! 1%nat) as [p|]; [|done].
  destruct (parse_branch w slug o p _ true) as [x|] eqn:Hoff; [|done].
  by rewrite (parse_branch_offline_hit _ _ _ _ _ _ Hoff).
Qed.

(** ** Slugs: the listing of the remote's heads *)

Lemma split_lines (lines : list string) :
  lines <> [] ->
  Forall (fun line => LF ∉ chars line) lines ->
  Str.split LF (String.concat newline lines) = lines.
Proof.
  unfold newline.
  induction lines as [|l lines IH]; [done|]. intros _ Hall.
  apply Forall_cons in Hall as [Hl Hall].
  destruct lines as [|l' lines]; [by apply split_whole|].
  change (String.concat (String LF "") (l :: l' :: lines))
    with (l +:+ String LF "" +:+ String.concat (String LF "") (l' :: lines)).
  rewrite append_cons, append_nil.
  rewrite split_head by done. by rewrite IH.
Qed.

Lemma replace_skip (old new : string) (t b : string) :
  Str.replace_from old new (String.length t) (t +:+ b)
    = Str.replace_from old new 0 b.
Proof.
  induction t as [|d t IH]; [by rewrite append_nil|].
  rewrite append_cons. simpl. apply IH.
Qed.

Lemma replace_absent (old new : string) (b : string) :
  old <> "" ->
  String.index 0 old b = None -> Str.replace_from old new 0 b = b.
Proof.
  intros Hold. induction b as [|d b IH]; [done|].
  cbn [String.index Str.replace_from].
  destruct (String.prefix old (String d b)); [done|].
  destruct (String.index 0 old b); [done|]. intros _. by rewrite IH.
Qed.

Lemma replace_prefix (old b : string) :
  old <> "" ->
  String.index 0 old b = None -> Str.replace (old +:+ b) old "" = b.
Proof.
  intros Hold Hb. destruct old as [|c t]; [done|].
  unfold Str.replace. rewrite append_cons. cbn [Str.replace_from].
  assert (String.prefix (String c t) (String c (t +:+ b)) = true) as ->.
  { apply prefix_iff. exists b. by rewrite append_cons. }
  rewrite append_nil.
  replace (String.length (String c t) - 1)%nat with (String.length t)
    by (simpl; lia).
  rewrite replace_skip. by apply replace_absent.
Qed.

Lemma branch_of_head (sha b : string) :
  TAB ∉ chars sha -> TAB ∉ chars b ->
  String.index 0 "refs/heads/" b = None ->
  branch_of_line (sha +:+ String TAB ("refs/heads/" +:+ b)) = Ok b.
Proof.
  intros Hsha Hb Hidx. unfold branch_of_line.
  rewrite split_head by done. rewrite split_whole.
  - cbn -[Str.replace String.append]. by rewrite replace_prefix.
  - rewrite chars_append, not_elem_of_app. split; [|done].
    vm_compute. intros H. by repeat (apply elem_of_cons in H as [H|H]; [done|]);
      apply elem_of_nil in H.
Qed.

(** Each line [<sha> TAB refs/heads/<branch>] of a listing gives back its
    branch, in the order of the listing. *)
Lemma heads_of_listing (heads : list (string * string)) :
  heads <> [] ->
  Forall (fun head =>
            (TAB ∉ chars head.1) /\ (LF ∉ chars head.1) /\
            (TAB ∉ chars head.2) /\ (LF ∉ chars head.2) /\
            String.index 0 "refs/heads/" head.2 = None) heads ->
  map branch_of_line
    (Str.split LF
       (String.concat newline
          (map (fun head => head.1 +:+ String TAB ("refs/heads/" +:+ head.2))
               heads)))
  = map (fun head => Ok head.2) heads.
Proof.
  intros Hne Hall. rewrite split_lines.
  - rewrite map_map. apply map_ext_Forall.
    eapply Forall_impl; [exact Hall|]. intros [sha b]. simpl.
    intros (? & ? & ? & ? & ?). by apply branch_of_head.
  - by destruct heads.
  - apply Forall_fmap. eapply Forall_impl; [exact Hall|].
    intros [sha b]. simpl. intros (? & ? & ? & ? & ?).
    rewrite chars_append. change (chars (String TAB ("refs/heads/" +:+ b)))
      with (TAB :: chars ("refs/heads/" +:+ b)).
    rewrite chars_append.
    rewrite !not_elem_of_app, not_elem_of_cons, not_elem_of_app.
    split; [done|]. split; [done|]. split; [|done].
    vm_compute. intros H4.
    by repeat (apply elem_of_cons in H4 as [H4|H4]; [done|]);
      apply elem_of_nil in H4.
Qed.

(** What git raises while the remote is listed is turned into
    [InvalidSlug]. *)
Lemma parse_branch_online_git_error (w : SlugWorld)
    (slug org repo remainder msg : string) :
  parse_branch w slug org repo remainder true = Raise (InvalidSlug slug) ->
  w_ls_remote w ("https://github.com/" +:+ org +:+ "/" +:+ repo)
    = Raise (GitError msg) ->
  parse_branch w slug org repo remainder false = Raise (InvalidSlug slug).
Proof.
  unfold parse_branch.
  set (inner := parse_branch_body w slug org repo remainder _ true).
  clearbody inner. intros -> Hout.
  unfold parse_branch_body. simpl. by rewrite Hout.
Qed.

(** C1.  Branch resolution, offline and online.  The loop returns the first
    candidate, in listing order, such that the remainder is that branch name
    followed by a slash and by what is returned as the rest; a candidate that
    is not followed by a slash in the remainder is passed over (so
    [master-v2/ps1] resolves to [master-v2] among [master; master-v2]); and
    when no candidate fits, the loop raises [InvalidSlug].  Offline the
    candidates are the branches of the cached clone.  Online the cached clone
    is asked first and what it resolves stands; when it resolves nothing, the
    heads that the remote lists are the candidates, and a remote that cannot
    be listed gives [InvalidSlug].  One case is missed: a remote that lists no
    head.  Its empty listing is one empty line to the loop, the line has no
    second field, and resolution ends with [IndexError] where, no candidate
    matching, [InvalidSlug] is due; so it is for the slug
    [cs50/problems2/master/hello] on a first run against a repository without
    branches. *)
Theorem parse_branch_resolution (w : SlugWorld)
    (slug org repo remainder : string) :
  (forall bs : list string,
     (forall b rest,
        match_branch slug remainder (map Ok bs) = Ok (b, rest) <->
        exists pre post,
          bs = pre ++ b :: post /\
          remainder = b +:+ "/" +:+ rest /\
          forall b', b' ∈ pre ->
                     forall rest', remainder <> b' +:+ "/" +:+ rest') /\
     (match_branch slug remainder (map Ok bs) = Raise (InvalidSlug slug) <->
        forall b, b ∈ bs -> forall rest, remainder <> b +:+ "/" +:+ rest) /\
     ((exists b rest, match_branch slug remainder (map Ok bs) = Ok (b, rest)) \/
      match_branch slug remainder (map Ok bs) = Raise (InvalidSlug slug))) /\
  match_branch slug "master-v2/ps1" (map Ok ["master"; "master-v2"])
    = Ok ("master-v2", "ps1") /\
  (forall bs,
     w_local_branches w org repo = Ok bs ->
     parse_branch w slug org repo remainder true
       = match_branch slug remainder (map Ok bs)) /\
  (forall r,
     parse_branch w slug org repo remainder true = Ok r ->
     parse_branch w slug org repo remainder false = Ok r) /\
  (parse_branch w slug org repo remainder true = Raise (InvalidSlug slug) ->
   (forall heads : list (string * string),
      heads <> [] ->
      Forall (fun head =>
                (TAB ∉ chars head.1) /\ (LF ∉ chars head.1) /\
                (TAB ∉ chars head.2) /\ (LF ∉ chars head.2) /\
                String.index 0 "refs/heads/" head.2 = None) heads ->
      w_ls_remote w ("https://github.com/" +:+ org +:+ "/" +:+ repo)
        = Ok (String.concat newline
                (map (fun head =>
                        head.1 +:+ String TAB ("refs/heads/" +:+ head.2))
                     heads)) ->
      parse_branch w slug org repo remainder false
        = match_branch slug remainder (map Ok (map snd heads))) /\
   (forall msg,
      w_ls_remote w ("https://github.com/" +:+ org +:+ "/" +:+ repo)
        = Raise (GitError msg) ->
      parse_branch w slug org repo remainder false
        = Raise (InvalidSlug slug)) /\
   (w_ls_remote w ("https://github.com/" +:+ org +:+ "/" +:+ repo) = Ok "" ->
    parse_branch w slug org repo remainder false
      = Raise (PyExn "IndexError" "list index out of range"))) /\
  _parse_slug empty_remote_world "cs50/problems2/master/hello" true
    = Raise (InvalidSlug "cs50/problems2/master/hello") /\
  _parse_slug empty_remote_world "cs50/problems2/master/hello" false
    = Raise (PyExn "IndexError" "list index out of range").
Proof.
  split; [intros bs; apply match_branch_first_match|].
  split; [reflexivity|].
  split; [intros bs; apply parse_branch_offline|].
  split; [intros r; apply parse_branch_offline_hit|].
  split; [|split; reflexivity].
  intros Hlocal. split; [|split].
  - intros heads Hne Hall Hout.
    rewrite (parse_branch_online _ _ _ _ _ _ Hlocal Hout).
    rewrite heads_of_listing by done. by rewrite map_map.
  - intros msg Hout. by eapply parse_branch_online_git_error.
  - intros Hout. by rewrite (parse_branch_online _ _ _ _ _ _ Hlocal Hout).
Qed.

(** X5.  When the cached clone does not resolve the slug, the heads that the
    remote lists are the candidates, in the order of the listing: each line
    [<sha> TAB refs/heads/<branch>] gives back its branch.  A listing with no
    line at all still has one empty line to the loop, which has no second field:
    the loop then ends with an [IndexError], not with [InvalidSlug]. *)
Theorem remote_heads_are_candidates (w : SlugWorld)
    (slug org repo remainder : string) :
  parse_branch w slug org repo remainder true = Raise (InvalidSlug slug) ->
  (forall heads : list (string * string),
     heads <> [] ->
     Forall (fun head =>
               (TAB ∉ chars head.1) /\ (LF ∉ chars head.1) /\
               (TAB ∉ chars head.2) /\ (LF ∉ chars head.2) /\
               String.index 0 "refs/heads/" head.2 = None) heads ->
     w_ls_remote w ("https://github.com/" +:+ org +:+ "/" +:+ repo)
       = Ok (String.concat newline
               (map (fun head => head.1 +:+ String TAB ("refs/heads/" +:+ head.2))
                    heads)) ->
     parse_branch w slug org repo remainder false
       = match_branch slug remainder (map (fun head => Ok head.2) heads)) /\
  (w_ls_remote w ("https://github.com/" +:+ org +:+ "/" +:+ repo) = Ok "" ->
   parse_branch w slug org repo remainder false
     = Raise (PyExn "IndexError" "list index out of range")).
Proof.
  intros Hlocal. split.
  - intros heads Hne Hall Hout.
    rewrite (parse_branch_online _ _ _ _ _ _ Hlocal Hout).
    by rewrite heads_of_listing.
  - intros Hout. by rewrite (parse_branch_online _ _ _ _ _ _ Hlocal Hout).
Qed.

(** ** The version of git: [check_dependencies] *)

Lemma numeral_digits (s : string) :
  numeral s = true ->
  s <> "" /\ forall c, c ∈ chars s -> is_digit c = true.
Proof.
  destruct s as [|d s]; [done|]. unfold numeral. rewrite forallb_forall.
  intros H. split; [done|]. intros c Hc. apply H. by apply list_elem_of_In.
Qed.

Lemma digits_without (s : string) (c : ascii) :
  (forall d, d ∈ chars s -> is_digit d = true) ->
  is_digit c = false -> c ∉ chars s.
Proof. intros Hs Hc Hin. apply Hs in Hin. congruence. Qed.

Lemma span_digits_app (ds rest : string) :
  (forall d, d ∈ chars ds -> is_digit d = true) ->
  (forall c r, rest = String c r -> is_digit c = false) ->
  span_digits (ds +:+ rest) = (ds, rest).
Proof.
  intros Hds Hrest. induction ds as [|d ds IH].
  - rewrite append_nil. destruct rest as [|c r]; [done|]. simpl.
    by rewrite (Hrest c r).
  - rewrite append_cons. simpl. rewrite Hds by apply list_elem_of_here.
    rewrite IH; [done|]. intros d' Hd'. apply Hds. by apply list_elem_of_further.
Qed.

Lemma strip_prefix_app (p r : string) : strip_prefix p (p +:+ r) = Some r.
Proof.
  unfold strip_prefix.
  assert (Str.startswith (p +:+ r) p = true) as -> by (apply startswith_iff; eauto).
  by rewrite slice_from_append.
Qed.

Lemma digits_dot_app (ds rest : string) :
  numeral ds = true ->
  digits_dot (ds +:+ "." +:+ rest) = Some (ds, rest).
Proof.
  intros [Hne Hds]%numeral_digits. unfold digits_dot.
  rewrite span_digits_app; [|done|].
  - destruct ds; [done|]. by rewrite strip_prefix_app.
  - intros c r. rewrite append_cons. by intros [= <- _].
Qed.

Lemma to_end_of_line_spec (line ending : string) :
  LF ∉ chars line -> ending = "" \/ ending = newline ->
  to_end_of_line (line +:+ ending) = true.
Proof.
  intros Hline Hend. induction line as [|c line IH].
  - rewrite append_nil. by destruct Hend as [-> | ->].
  - unfold chars in Hline. simpl in Hline.
    apply not_elem_of_cons in Hline as [Hc Hline].
    rewrite append_cons. simpl.
    destruct (Ascii.eqb_spec c LF) as [->|_]; [done|]. by apply IH.
Qed.

Lemma search_git_version_spec (major minor patch rest : string) :
  numeral major = true -> numeral minor = true -> numeral patch = true ->
  (forall c r, rest = String c r -> is_digit c = false) ->
  search_git_version
    ("git version " +:+ major +:+ "." +:+ minor +:+ "." +:+ patch +:+ rest)
  = if to_end_of_line rest
    then Some (major +:+ "." +:+ minor +:+ "." +:+ patch) else None.
Proof.
  intros Hmaj Hmin Hpat Hrest. unfold search_git_version.
  rewrite strip_prefix_app. cbn [mbind option_bind].
  rewrite digits_dot_app by done. cbn [mbind option_bind].
  rewrite digits_dot_app by done. cbn [mbind option_bind].
  apply numeral_digits in Hpat as [Hne Hpat].
  rewrite span_digits_app by done.
  by destruct patch.
Qed.

Lemma parse_version_triple (major minor patch : string) :
  numeral major = true -> numeral minor = true -> numeral patch = true ->
  parse_version (major +:+ "." +:+ minor +:+ "." +:+ patch)
  = drop_trailing_zeros [int major; int minor; int patch].
Proof.
  intros [_ Hmaj]%numeral_digits [_ Hmin]%numeral_digits [_ Hpat]%numeral_digits.
  unfold parse_version. rewrite !append_cons, !append_nil.
  rewrite split_head by by apply digits_without.
  rewrite split_head by by apply digits_without.
  rewrite split_whole by by apply digits_without.
  done.
Qed.

Lemma version_lt_2_7 (a b c : N) :
  tuple_lt (drop_trailing_zeros [a; b; c]) (parse_version "2.7.0")
  = ((a <? 2) || (a =? 2) && (b <? 7))%N.
Proof.
  change (parse_version "2.7.0") with [2%N; 7%N]. simpl.
  destruct (N.eqb_spec c 0), (N.eqb_spec b 0), (N.eqb_spec a 0); subst; simpl;
    try done;
    repeat match goal with
           | |- context [(?x <? ?y)%N] => destruct (N.ltb_spec x y)
           | |- context [(?x =? ?y)%N] => destruct (N.eqb_spec x y)
           end; simpl; try done; lia.
Qed.

(** X6.  Versions of git are compared number by number, not as text: an
    answer [git version <major>.<minor>.<patch>], alone on its line and
    followed, if by anything, by an ASCII character that is no digit, passes
    exactly when the major number is above 2, or is 2 with a minor number of 7
    or more (so 2.10.0 passes, and the patch number plays no part). *)
Theorem git_version_by_numbers (w : SlugWorld) (dw : DepWorld)
    (path major minor patch line ending : string) :
  w_which dw "git" = Some path -> path <> "" ->
  numeral major = true -> numeral minor = true -> numeral patch = true ->
  (forall c r, line = String c r ->
     is_digit c = false /\ (nat_of_ascii c < 128)%nat) ->
  (LF ∉ chars line) ->
  ending = "" \/ ending = newline ->
  w_check_output dw ["git"; "--version"]
    = Ok ("git version " +:+ major +:+ "." +:+ minor +:+ "." +:+ patch
          +:+ line +:+ ending) ->
  check_dependencies w dw =
    if ((int major <? 2) || (int major =? 2) && (int minor <? 7))%N
    then Raise (Error (w_gettext w old_git_msg))
    else Ok tt.
Proof.
  intros Hwhich Hpath Hmaj Hmin Hpat Hline Hlf Hend Hout.
  unfold check_dependencies. rewrite Hwhich, Hout.
  assert (truthy (Some path) = true) as -> by by destruct path.
  cbn [negb obind].
  rewrite search_git_version_spec; [|done..|].
  - rewrite to_end_of_line_spec by done.
    rewrite parse_version_triple by done. rewrite version_lt_2_7.
    by destruct (_ || _)%N.
  - intros c r. destruct line as [|c' line'].
    + rewrite append_nil. destruct Hend as [-> | ->]; [done|].
      by intros [= <- _].
    + rewrite append_cons. intros [= <- _]. by eapply (Hline c').
Qed.

Lemma span_digits_spec (s : string) :
  s = (span_digits s).1 +:+ (span_digits s).2 /\
  forallb is_digit (chars (span_digits s).1) = true.
Proof.
  induction s as [|c s [IH1 IH2]]; [done|]. simpl.
  destruct (is_digit c) eqn:Hc; [|done].
  destruct (span_digits s) as [ds rest]. simpl in *.
  rewrite append_cons, <- IH1. split; [done|].
  unfold chars in *. simpl. by rewrite Hc.
Qed.

Lemma strip_prefix_Some (p s r : string) :
  strip_prefix p s = Some r -> s = p +:+ r.
Proof.
  unfold strip_prefix. destruct (Str.startswith s p) eqn:Hs; [|done].
  apply startswith_iff in Hs as [r' ->]. rewrite slice_from_append.
  by intros [= ->].
Qed.

Lemma digits_dot_Some (s ds r : string) :
  digits_dot s = Some (ds, r) ->
  s = ds +:+ "." +:+ r /\ numeral ds = true.
Proof.
  unfold digits_dot. destruct (span_digits_spec s) as [Hs Hds].
  destruct (span_digits s) as [ds' rest]. simpl in *.
  destruct ds' as [|d ds']; [done|].
  destruct (strip_prefix "." rest) as [r'|] eqn:Hr; [|done].
  intros [= <- <-]. apply strip_prefix_Some in Hr. by subst.
Qed.

Lemma search_git_version_Some (version found : string) :
  search_git_version version = Some found ->
  exists major minor patch rest,
    version = "git version " +:+ major +:+ "." +:+ minor +:+ "." +:+ patch
              +:+ rest /\
    found = major +:+ "." +:+ minor +:+ "." +:+ patch /\
    numeral major = true /\ numeral minor = true /\ numeral patch = true.
Proof.
  unfold search_git_version.
  destruct (strip_prefix "git version " version) as [r0|] eqn:H0; [|done].
  apply strip_prefix_Some in H0. cbn [mbind option_bind].
  destruct (digits_dot r0) as [[major r1]|] eqn:H1; [|done].
  apply digits_dot_Some in H1 as [H1 Hmaj]. cbn [mbind option_bind].
  destruct (digits_dot r1) as [[minor r2]|] eqn:H2; [|done].
  apply digits_dot_Some in H2 as [H2 Hmin]. cbn [mbind option_bind].
  destruct (span_digits_spec r2) as [H3 Hpat].
  destruct (span_digits r2) as [patch r3]. simpl in *.
  destruct patch as [|d patch]; [done|].
  destruct (to_end_of_line r3); [|done]. intros [= <-].
  exists major, minor, (String d patch), r3. subst. done.
Qed.

(** X7.  The check passes only on a usable git:  [git] was found, and its answer
    starts with [git version <major>.<minor>.<patch>] for three numbers of which
    the first is above 2, or is 2 with a second of 7 or more. *)
Theorem check_dependencies_sound (w : SlugWorld) (dw : DepWorld) :
  check_dependencies w dw = Ok tt ->
  exists path major minor patch rest,
    w_which dw "git" = Some path /\
    w_check_output dw ["git"; "--version"]
      = Ok ("git version " +:+ major +:+ "." +:+ minor +:+ "." +:+ patch
            +:+ rest) /\
    numeral major = true /\ numeral minor = true /\ numeral patch = true /\
    (2 < int major \/ int major = 2 /\ 7 <= int minor)%N.
Proof.
  unfold check_dependencies.
  destruct (w_which dw "git") as [path|]; [|done].
  destruct (truthy (Some path)); [|done]. cbn [negb].
  destruct (w_check_output dw ["git"; "--version"]) as [version|e]; [|done].
  cbn [obind].
  destruct (search_git_version version) as [found|] eqn:Hfound; [|done].
  apply search_git_version_Some in Hfound
    as (major & minor & patch & rest & -> & -> & Hmaj & Hmin & Hpat).
  rewrite parse_version_triple by done. rewrite version_lt_2_7.
  destruct (_ || _)%N eqn:Hlt; [done|]. intros _.
  exists path, major, minor, patch, rest.
  split; [done|]. split; [done|]. split; [done|]. split; [done|].
  split; [done|].
  apply orb_false_iff in Hlt as [H1 H2]. apply N.ltb_ge in H1.
  apply andb_false_iff in H2 as [H2|H2].
  - apply N.eqb_neq in H2. lia.
  - apply N.ltb_ge in H2. lia.
Qed.

(** ** Required files: [_check_required] and [connect] *)

Lemma bind_ok_inv {S A B} (m : M S A) (k : A -> M S B) (st st' : S) (b : B) :
  bind m k st = Some (Ok b, st') ->
  exists a st1, m st = Some (Ok a, st1) /\ k a st1 = Some (Ok b, st').
Proof.
  unfold bind. destruct (m st) as [[[a|e] st1]|]; [|done..].
  intros H. by exists a, st1.
Qed.

Lemma filter_nil_iff {A} (p : A -> bool) (xs : list A) :
  List.filter p xs = [] <-> forall x, x ∈ xs -> p x = false.
Proof.
  induction xs as [|x xs IH]; simpl.
  - split; [|done]. intros _ x Hx. by apply elem_of_nil in Hx.
  - destruct (p x) eqn:Hp.
    + split; [done|]. intros H. rewrite H in Hp; [done|]. apply list_elem_of_here.
    + rewrite IH. split.
      * intros H y [->|Hy]%elem_of_cons; auto.
      * intros H y Hy. apply H. by apply list_elem_of_further.
Qed.

Lemma check_required_eq (w : SlugWorld) (fw : FetchWorld) (st : store)
    (a : nat) (s : Dict.t yaml) (items : list yaml) (files : list string) :
  sections st !! a = Some s ->
  Dict.get "required" s = Some (YList items) ->
  str_items items = Some files ->
  _check_required w fw a st =
    Some (match List.filter (fun f => negb (w_isfile fw f)) files with
          | [] => Ok tt
          | missing => Raise (Error (missing_msg w missing))
          end, st).
Proof.
  intros Hs Hreq Hitems. unfold _check_required, bind, read_section.
  rewrite Hs, Hreq, Hitems.
  by destruct (List.filter _ files).
Qed.

(** X8.  The check of the required files passes exactly when each of them is a
    file; the store is left as it is either way.  When it fails, the message
    lists the files that are missing, and only those, one to a line in the order
    of the configuration.  A section without [required] passes without a look at
    the file system. *)
Theorem check_required_spec (w : SlugWorld) (fw : FetchWorld) (st : store)
    (a : nat) (s : Dict.t yaml) :
  sections st !! a = Some s ->
  (Dict.get "required" s = None ->
   _check_required w fw a st = Some (Ok tt, st)) /\
  (forall items files,
     Dict.get "required" s = Some (YList items) ->
     str_items items = Some files ->
     exists r,
       _check_required w fw a st = Some (r, st) /\
       (r = Ok tt <-> forall f, f ∈ files -> w_isfile fw f = true) /\
       (forall e, r = Raise e ->
          exists missing,
            e = Error (w_gettext w "You seem to be missing these files:"
                       +:+ newline +:+ String.concat newline missing
                       +:+ newline +:+
                       w_gettext w "Ensure you have the required files before submitting.") /\
            sublist missing files /\
            forall f, f ∈ missing <-> f ∈ files /\ w_isfile fw f = false)).
Proof.
  intros Hs. split.
  - intros Hreq. unfold _check_required, bind, read_section.
    by rewrite Hs, Hreq.
  - intros items files Hreq Hitems.
    rewrite (check_required_eq w fw st a s items files) by done.
    pose proof (filter_nil_iff (fun f => negb (w_isfile fw f)) files) as Hnil.
    assert (Hin : forall f,
              f ∈ List.filter (fun f => negb (w_isfile fw f)) files
              <-> f ∈ files /\ w_isfile fw f = false).
    { intros f. rewrite !list_elem_of_In, filter_In, negb_true_iff. done. }
    assert (Hsub : sublist (List.filter (fun f => negb (w_isfile fw f)) files)
                     files).
    { clear. induction files as [|f files IH]; simpl; [done|].
      destruct (negb (w_isfile fw f)); by constructor. }
    destruct (List.filter _ files) as [|m missing] eqn:Hf.
    + exists (Ok tt). split; [done|]. split; [|done].
      split; [|done]. intros _ f Hf'. apply (proj1 Hnil eq_refl) in Hf'.
      by apply negb_false_iff.
    + eexists. split; [done|]. split.
      * split; [done|]. intros Hall. exfalso.
        destruct (proj1 (Hin m)) as [Hm Hm']; [apply list_elem_of_here|].
        rewrite Hall in Hm'; done.
      * intros e [= <-]. exists (m :: missing). done.
Qed.

Lemma config_getitem_frame (a : nat) (k : string) (st st' : store) r :
  config_getitem a k st = Some (r, st') -> st' = st.
Proof.
  unfold config_getitem, bind, read_config.
  destruct (configs st !! a) as [c|]; [|done].
  destruct (Dict.get k c); by intros [= _ <-].
Qed.

Lemma check_required_frame (w : SlugWorld) (fw : FetchWorld) (a : nat)
    (st st' : store) r :
  _check_required w fw a st = Some (r, st') -> st' = st.
Proof.
  unfold _check_required, bind, read_section.
  destruct (sections st !! a) as [s|]; [|done].
  destruct (Dict.get "required" s) as [[| | | |items|]|]; try done.
  - destruct (str_items items) as [files|]; [|done].
    destruct (List.filter _ files); by intros [= _ <-].
  - by intros [= _ <-].
Qed.

Lemma check_required_section (w : SlugWorld) (fw : FetchWorld) (a : nat)
    (st st' : store) r :
  _check_required w fw a st = Some (r, st') -> is_Some (sections st !! a).
Proof.
  unfold _check_required, bind, read_section.
  by destruct (sections st !! a) as [s|].
Qed.

Lemma connect_finish_ok (w : SlugWorld) (fw : FetchWorld) (tool : string)
    (cfg : nat) (st st' : store) (sec : nat) :
  connect_finish w fw tool cfg st = Some (Ok sec, st') ->
  st' = st /\
  exists s, sections st !! sec = Some s /\
            _check_required w fw sec st = Some (Ok tt, st).
Proof.
  unfold connect_finish. intros (t & st1 & Hget & Hrest)%bind_ok_inv.
  apply bind_ok_inv in Hrest as ([] & st2 & Hcheck & Hget').
  pose proof (config_getitem_frame _ _ _ _ _ Hget) as ->.
  pose proof (check_required_frame _ _ _ _ _ _ Hcheck) as ->.
  pose proof (config_getitem_frame _ _ _ _ _ Hget') as ->.
  assert (sec = t) as -> by congruence.
  split; [done|].
  destruct (check_required_section _ _ _ _ _ _ Hcheck) as [s Hs]. eauto.
Qed.

Lemma connect_ends (w : SlugWorld) (fw : FetchWorld) (org branch tool : string)
    (st st' : store) (sec : nat) :
  connect w fw org branch tool st = Some (Ok sec, st') ->
  exists cfg st1, connect_finish w fw tool cfg st1 = Some (Ok sec, st').
Proof.
  unfold connect. intros ([[[po pr] pb] pd] & st1 & _ & H)%bind_ok_inv.
  apply bind_ok_inv in H as (content & st2 & _ & H).
  apply bind_ok_inv in H as (cs50_yaml & st3 & _ & H).
  apply bind_ok_inv in H as (present & st4 & _ & H).
  destruct present; [|done]. simpl in H.
  apply bind_ok_inv in H as (cfg & st5 & _ & H). eauto.
Qed.

(** X9.  What [connect] returns has passed the check: the section it returns is
    in the store, and if it lists required files, each of them is a file. *)
Theorem connect_returns_checked_section (w : SlugWorld) (fw : FetchWorld)
    (org branch tool : string) (st st' : store) (sec : nat) :
  connect w fw org branch tool st = Some (Ok sec, st') ->
  exists s,
    sections st' !! sec = Some s /\
    forall items files,
      Dict.get "required" s = Some (YList items) ->
      str_items items = Some files ->
      forall f, f ∈ files -> w_isfile fw f = true.
Proof.
  intros (cfg & st1 & Hfin)%connect_ends.
  apply connect_finish_ok in Hfin as (-> & s & Hs & Hcheck).
  exists s. split; [done|]. intros items files Hreq Hitems f Hf.
  rewrite (check_required_eq w fw st1 sec s items files) in Hcheck by done.
  destruct (List.filter _ files) as [|m missing] eqn:Hmissing; [|done].
  apply (proj1 (filter_nil_iff _ _) Hmissing) in Hf.
  by apply negb_false_iff.
Qed.

(** X10.  The directory's own configuration is not optional.  When it cannot be
    fetched, [connect] fails with what the fetch raised, the program's [Error]
    for an answer that is not a success included, and the store is untouched;
    when it lacks the tool, [connect] fails with [InvalidSlug], whatever the
    root configuration would have held. *)
Theorem connect_needs_local_config (w : SlugWorld) (fw : FetchWorld)
    (org branch tool : string) (st : store)
    (po pr pb : string) (pd : Path) :
  _parse_slug w branch false = Ok (po, pr, pb, pd) ->
  let url := "https://github.com/" +:+ po +:+ "/" +:+ pr +:+ "/raw/" +:+ pb
             +:+ "/" +:+ w_joinpath fw pd ".cs50.yaml" in
  (forall e,
     w_requests_get fw url = Raise e ->
     connect w fw org branch tool st = Some (Raise e, st)) /\
  (forall body,
     w_requests_get fw url = Ok (false, body) ->
     connect w fw org branch tool st =
       Some (Raise (Error (w_gettext w
               "Invalid slug. Did you mean to submit something else?")), st)) /\
  (forall content d,
     w_requests_get fw url = Ok (true, content) ->
     w_safe_load fw content = Ok d ->
     has_tool (install d st) (length (configs st)) tool = false ->
     connect w fw org branch tool st =
       Some (Raise (InvalidSlug ("Invalid slug for " +:+ tool +:+
                                 ", did you mean something else?")),
             install d st)).
Proof.
  intros Hparse url.
  assert (Hget : _get_content_from w fw po pr pb (w_joinpath fw pd ".cs50.yaml")
                 = obind (w_requests_get fw url)
                     (fun '(ok, content) =>
                        if negb ok then
                          Raise (Error (w_gettext w
                            "Invalid slug. Did you mean to submit something else?"))
                        else Ok content)) by done.
  clearbody url.
  assert (Hconn : forall o : outcome string,
            _get_content_from w fw po pr pb (w_joinpath fw pd ".cs50.yaml") = o ->
            connect w fw org branch tool st =
              match o with
              | Raise e => Some (Raise e, st)
              | Ok content =>
                  (let* cs50_yaml := safe_load fw content in
                   let* present := config_contains cs50_yaml tool in
                   if negb present then
                     raise (InvalidSlug ("Invalid slug for " +:+ tool +:+
                                         ", did you mean something else?"))
                   else
                     let* cs50_yaml :=
                       match _get_content_from w fw po pr pb ".cs50.yaml" with
                       | Raise e => if is_Error e then ret cs50_yaml else raise e
                       | Ok root_cs50_yaml_content =>
                           let* root_cs50_yaml := safe_load fw root_cs50_yaml_content in
                           _merge_cs50_yaml cs50_yaml root_cs50_yaml
                       end in
                     connect_finish w fw tool cs50_yaml) st
              end).
  { intros o Ho. unfold connect. rewrite Hparse.
    unfold bind at 1, lift at 1. cbv beta iota. rewrite Ho.
    unfold bind at 1, lift at 1. by destruct o. }
  split; [|split].
  - intros e He. rewrite He in Hget. by rewrite (Hconn _ Hget).
  - intros body He. rewrite He in Hget. by rewrite (Hconn _ Hget).
  - intros content d He Hload Htool. rewrite He in Hget.
    rewrite (Hconn _ Hget). cbn [obind negb].
    unfold safe_load. rewrite Hload.
    unfold bind at 1. unfold bind at 1, lift at 1, load. cbv beta iota.
    unfold bind at 1, config_contains, bind, read_config, ret.
    unfold has_tool in Htool.
    destruct (configs (install d st) !! length (configs st)) as [c|] eqn:Hc.
    + by rewrite Htool.
    + unfold install in Hc. simpl in Hc.
      rewrite lookup_app_r, Nat.sub_diag in Hc by lia. done.
Qed.

(** ** When the merge fails *)

Lemma merge_keys_clash (sr sl : Dict.t yaml) (ks : list string) :
  forall sa sa',
    merge_keys sr sl ks sa = (Raise TypeError, sa') ->
    covers sr sa ->
    (forall k, k ∈ ks -> is_Some (Dict.get k sl)) ->
    exists k y, k ∈ ks /\ Dict.get k sl = Some y /\
                is_list_at k sr = true /\ is_list y = false.
Proof.
  induction ks as [|k ks IH]; intros sa sa' Hm Hcov Hks; simpl in Hm; [done|].
  destruct (Hks k) as [y Hy]; [apply list_elem_of_here|]. rewrite Hy in Hm.
  assert (Hks' : forall k', k' ∈ ks -> is_Some (Dict.get k' sl))
    by (intros k' Hk'; apply Hks; by apply list_elem_of_further).
  assert (Hnext : forall z,
            (is_list_at k sr = true -> is_list z = true) ->
            merge_keys sr sl ks (Dict.set k z sa) = (Raise TypeError, sa') ->
            exists k0 y0, k0 ∈ k :: ks /\ Dict.get k0 sl = Some y0 /\
                          is_list_at k0 sr = true /\ is_list y0 = false).
  { intros z Hz Hm'.
    destruct (IH _ _ Hm') as (k' & y' & Hk' & ?); [by apply covers_set | done |].
    exists k', y'. split; [by apply list_elem_of_further | done]. }
  destruct (is_list_at k sr) eqn:Hlist.
  - unfold is_list_at in Hlist.
    destruct (Dict.get k sr) as [v|] eqn:Hv; [|done].
    destruct (Hcov k v Hv) as (x & Hx & Hxl). rewrite Hx in Hm.
    pose proof (py_add_list x y (Hxl Hlist)) as Hadd.
    destruct (is_list y) eqn:Hyl.
    + destruct Hadd as (z & Hz & Hzl). rewrite Hz in Hm. by apply (Hnext z).
    + exists k, y. split; [apply list_elem_of_here|]. split; [done|].
      split; [|done]. unfold is_list_at. by rewrite Hv.
  - by apply (Hnext y).
Qed.

Section Clash.

Variables (st0 : store) (cs50 root_cs50 : nat) (cr cl : Dict.t nat).
Variable memo : gmap nat nat.
Hypothesis Hok : store_ok st0.
Hypothesis Hcl : configs st0 !! cs50 = Some cl.
Hypothesis Hcr : configs st0 !! root_cs50 = Some cr.

Lemma merge_tool_clash (tool : string) (st st' : store) :
  tool ∈ Dict.keys cl ->
  merge_inv st0 cr memo st ->
  merge_tool cs50 root_cs50 (length (configs st0)) tool st
    = Some (Raise TypeError, st') ->
  exists key xs v,
    lookup st0 root_cs50 tool key = Some (YList xs) /\
    lookup st0 cs50 tool key = Some v /\ is_list v = false.
Proof using Hok Hcl Hcr.
  intros Htool (cres & news & Hcs & Hss & Hres & Hmemo & Hinj).
  destruct (keys_get_Some _ _ Htool) as [la Hla].
  assert (Hcl' : configs st !! cs50 = Some cl)
    by (rewrite Hcs; by apply lookup_app_l_Some).
  assert (Hcr' : configs st !! root_cs50 = Some cr)
    by (rewrite Hcs; by apply lookup_app_l_Some).
  assert (Hcres : configs st !! length (configs st0) = Some cres)
    by (rewrite Hcs; by rewrite lookup_app_r, Nat.sub_diag).
  destruct (Dict.get tool cr) as [ra|] eqn:Hra.
  - destruct (Hres tool ra Hra) as (a & Hma & Ha).
    destruct (Hmemo ra a Hma) as (Hfresh & sr & sa & Hsr & Hsa & Hcov).
    destruct (local_section st0 cs50 cl Hok Hcl tool la Hla) as [sl Hsl].
    assert (Hlt_ra : (ra < length (sections st0))%nat) by by eapply lookup_lt_Some.
    assert (Hlt_la : (la < length (sections st0))%nat) by by eapply lookup_lt_Some.
    assert (Hready : tool_ready cs50 root_cs50 (length (configs st0)) tool
                       cr cl cres ra la a sr sl st sa).
    { unfold tool_ready. rewrite Hss.
      rewrite !(lookup_app_l_Some (sections st0)) with (x := sr) by done.
      split; [done|]. split; [done|]. split; [done|].
      split; [done|]. split; [done|].
      split; [by apply lookup_app_l_Some|].
      split; [done|]. split; [done|]. by rewrite <- Hss. }
    assert (Hne_ra : a <> ra) by lia.
    assert (Hne_la : a <> la) by lia.
    rewrite (merge_tool_present _ _ _ _ _ _ _ _ _ _ _ _ st sa Hne_ra Hne_la Hready).
    destruct (merge_keys sr sl (Dict.keys sl) sa) as [r sa'] eqn:Hmk.
    intros [= -> _].
    destruct (merge_keys_clash _ _ _ _ _ Hmk Hcov) as (key & y & _ & Hy & Hl & Hyl).
    { intros k. apply keys_get_Some. }
    unfold is_list_at in Hl. destruct (Dict.get key sr) as [v|] eqn:Hv; [|done].
    apply is_list_YList in Hl as [xs ->].
    exists key, xs, y. unfold lookup. rewrite Hcr, Hcl. simpl.
    rewrite Hra, Hla. simpl. rewrite Hsr, Hsl. simpl. done.
  - rewrite (merge_tool_absent _ _ _ _ cr cl cres la st) by done. done.
Qed.

End Clash.

(** X11.  The merge has no result exactly when somewhere the root holds a list
    and the local configuration holds something else under the same tool and
    key; the exception is then [TypeError].  This holds with roots whose tools
    share sections as well. *)
Theorem merge_fails_only_on_clash (st : store) (cs50 root_cs50 : nat) :
  store_ok st ->
  is_Some (configs st !! cs50) ->
  is_Some (configs st !! root_cs50) ->
  ((exists res st', _merge_cs50_yaml cs50 root_cs50 st = Some (Ok res, st'))
   <-> forall tool, no_clash st cs50 root_cs50 tool) /\
  (forall e st',
     _merge_cs50_yaml cs50 root_cs50 st = Some (Raise e, st') ->
     e = TypeError /\
     exists tool key xs v,
       lookup st root_cs50 tool key = Some (YList xs) /\
       lookup st cs50 tool key = Some v /\ is_list v = false).
Proof.
  intros Hok [cl Hcl] [cr Hcr].
  assert (Hraise : forall e st',
     _merge_cs50_yaml cs50 root_cs50 st = Some (Raise e, st') ->
     e = TypeError /\
     exists tool key xs v,
       lookup st root_cs50 tool key = Some (YList xs) /\
       lookup st cs50 tool key = Some v /\ is_list v = false).
  { destruct (deepcopy_spec _ _ _ Hok Hcr)
      as (copied & memo & secs' & Hdc & ((news & ->) & Hmemo & Hinj) & Hall).
    set (st1 := {| configs := configs st ++ [copied];
                   sections := sections st ++ news |}) in *.
    assert (Hinv1 : merge_inv st cr memo st1).
    { exists copied, news. split; [done|]. split; [done|]. split; [|split; [|done]].
      - intros tool ra Hra. pose proof (copied_get _ _ _ Hall tool) as Hget.
        by rewrite Hra in Hget.
      - intros ra a [Hfresh (s & Hs & Hs')]%Hmemo. split; [done|].
        exists s, s. split; [done|]. split; [done|]. apply covers_refl. }
    destruct (for_each_spec
                (fun _ st' => merge_inv st cr memo st')
                (fun e _ => e = TypeError /\
                   exists tool key xs v,
                     lookup st root_cs50 tool key = Some (YList xs) /\
                     lookup st cs50 tool key = Some v /\ is_list v = false)
                (Dict.keys cl)
                (merge_tool cs50 root_cs50 (length (configs st))))
      with (st := st1) as (r & st2 & Hloop & Hpost); [|done|].
    { intros done tool rest st' Hsplit Hinv.
      assert (Htool : tool ∈ Dict.keys cl).
      { rewrite Hsplit. rewrite elem_of_app, elem_of_cons. auto. }
      destruct (merge_tool_weak st cs50 root_cs50 cr cl memo Hok Hcl Hcr tool st')
        as (r & st'' & Hstep & Hinv' & Hr & _); [done..|].
      exists r, st''. split; [done|].
      destruct Hr as [->| ->]; [done|]. split; [done|].
      destruct (merge_tool_clash st cs50 root_cs50 cr cl memo Hok Hcl Hcr
                  tool st' st'' Htool Hinv Hstep) as (key & xs & v & ?).
      by exists tool, key, xs, v. }
    intros e st'. unfold _merge_cs50_yaml. unfold bind at 1. rewrite Hdc.
    unfold bind at 1. rewrite (config_keys_eq st1 cs50 cl)
      by by apply lookup_app_l_Some.
    unfold bind at 1. rewrite Hloop. destruct r as [[]|e']; [done|].
    by intros [= <- _]. }
  split; [|done]. split.
  - intros (res & st' & Hmerge) tool key xs v Hroot Hlocal.
    destruct (merge_weak st cs50 root_cs50 cr cl Hok Hcl Hcr)
      as (r & st'' & memo & Hm & _ & [[-> Hclash]| ->]); [|congruence].
    apply (Hclash tool) with (key := key) (xs := xs); [|done..].
    unfold lookup in Hlocal. rewrite Hcl in Hlocal. simpl in Hlocal.
    destruct (Dict.get tool cl) as [la|] eqn:Hla; [|done].
    by eapply get_Some_keys.
  - intros Hclash.
    destruct (merge_weak st cs50 root_cs50 cr cl Hok Hcl Hcr)
      as (r & st'' & memo & Hm & _ & [[-> _]| ->]); [by eexists _, _|].
    destruct (Hraise _ _ Hm) as (_ & tool & key & xs & v & Hroot & Hlocal & Hv).
    pose proof (Hclash tool key xs v Hroot Hlocal). congruence.
Qed.

(** ** The deep copy *)

(** X12.  The deep copy of a configuration is a new configuration with the same
    tools and, under each tool and key, the same value; its sections are new
    objects, and two tools share a section in the copy exactly when they do in
    the original.  Nothing that existed is changed. *)
Theorem deepcopy_keeps_content_and_sharing (st : store) (a : nat)
    (c : Dict.t nat) :
  store_ok st -> configs st !! a = Some c ->
  exists cres news,
    deepcopy a st =
      Some (Ok (length (configs st)),
            {| configs := configs st ++ [cres];
               sections := sections st ++ news |}) /\
    let st' := {| configs := configs st ++ [cres];
                  sections := sections st ++ news |} in
    (forall tool key,
       lookup st' (length (configs st)) tool key = lookup st a tool key) /\
    (forall tool,
       has_tool st' (length (configs st)) tool = has_tool st a tool) /\
    (forall tool x,
       Dict.get tool cres = Some x -> (length (sections st) <= x)%nat) /\
    (forall tool tool' x x' y y',
       Dict.get tool c = Some x -> Dict.get tool' c = Some x' ->
       Dict.get tool cres = Some y -> Dict.get tool' cres = Some y' ->
       (x = x' <-> y = y')).
Proof.
  intros Hok Hc.
  destruct (deepcopy_spec _ _ _ Hok Hc)
    as (copied & memo & secs' & Hdc & ((news & ->) & Hmemo & Hinj) & Hall).
  exists copied, news. split; [done|]. cbv zeta.
  pose proof (copied_get _ _ _ Hall) as Hget.
  assert (Hnew : forall (X : Type) (l : list X) (x : X),
            (l ++ [x]) !! length l = Some x).
  { intros X l x. by rewrite lookup_app_r, Nat.sub_diag. }
  split; [|split; [|split]].
  - intros tool key. unfold lookup. cbn [configs sections].
    rewrite Hnew, Hc. simpl. specialize (Hget tool).
    destruct (Dict.get tool c) as [ra|].
    + destruct Hget as (x & Hx & ->). simpl.
      destruct (Hmemo ra x Hx) as (_ & s & Hs & Hs'). by rewrite Hs, Hs'.
    + by rewrite Hget.
  - intros tool. unfold has_tool. cbn [configs]. rewrite Hnew, Hc.
    unfold Dict.has. specialize (Hget tool).
    destruct (Dict.get tool c) as [ra|].
    + by destruct Hget as (x & _ & ->).
    + by rewrite Hget.
  - intros tool x Hx. pose proof (Hget tool) as Ht.
    destruct (Dict.get tool c) as [ra|].
    + destruct Ht as (x' & Hm & Hx'). assert (x' = x) as -> by congruence.
      by destruct (Hmemo ra x Hm).
    + congruence.
  - intros tool tool' x x' y y' Hx Hx' Hy Hy'.
    pose proof (Hget tool) as Ht. pose proof (Hget tool') as Ht'.
    rewrite Hx in Ht. rewrite Hx' in Ht'.
    destruct Ht as (z & Hz & Hyz), Ht' as (z' & Hz' & Hyz').
    assert (z = y) as -> by congruence. assert (z' = y') as -> by congruence.
    split; [intros ->; congruence | intros ->; by eapply Hinj].
Qed.

(** ** The exclude file: [_convert_yaml_to_exclude] *)

Lemma str_items_strings (xs : list string) : str_items (map YStr xs) = Some xs.
Proof. induction xs as [|x xs IH]; [done|]. simpl. by rewrite IH. Qed.

Lemma globbed_fold (pw : PrepWorld) (patterns acc : list string) :
  fold_left (fun includes include => includes ++ w_glob pw include) patterns acc
  = acc ++ mjoin (w_glob pw <$> patterns).
Proof.
  revert acc. induction patterns as [|p ps IH]; intros acc; simpl.
  - by rewrite app_nil_r.
  - by rewrite IH, app_assoc.
Qed.

Lemma not_in_spec (req : string) (includes : list string) :
  not_in req includes = true <-> req ∉ includes.
Proof.
  unfold not_in. rewrite negb_true_iff, <- not_true_iff_false, existsb_exists.
  split.
  - intros H Hin. apply H. exists req. split; [by apply list_elem_of_In|].
    apply String.eqb_refl.
  - intros H (x & Hx & ->%String.eqb_eq). apply H. by apply list_elem_of_In.
Qed.

(** X13.  Without [include] nothing is excluded, required files or not.  With
    [include], everything is excluded but the files that the patterns match,
    listed in the order of the patterns, and after them the required files that
    no pattern matched: a file is let through exactly if it is matched or
    required. *)
Theorem exclude_lets_through (pw : PrepWorld) (tool_yaml : Dict.t yaml) :
  (Dict.get "include" tool_yaml = None ->
   _convert_yaml_to_exclude pw tool_yaml = Some "") /\
  (forall patterns,
     Dict.get "include" tool_yaml = Some (YList (map YStr patterns)) ->
     Dict.get "required" tool_yaml = None ->
     _convert_yaml_to_exclude pw tool_yaml =
       Some ("*" +:+ String.concat ""
                       (map (fun i => newline +:+ "!" +:+ i)
                            (mjoin (w_glob pw <$> patterns))))) /\
  (forall patterns required,
     Dict.get "include" tool_yaml = Some (YList (map YStr patterns)) ->
     Dict.get "required" tool_yaml = Some (YList (map YStr required)) ->
     let matched := mjoin (w_glob pw <$> patterns) in
     exists others,
       _convert_yaml_to_exclude pw tool_yaml =
         Some ("*" +:+ String.concat ""
                         (map (fun i => newline +:+ "!" +:+ i)
                              (matched ++ others))) /\
       sublist others required /\
       (forall f, f ∈ others <-> f ∈ required /\ f ∉ matched) /\
       (forall f, f ∈ matched ++ others <-> f ∈ matched \/ f ∈ required)).
Proof.
  split; [|split].
  - unfold _convert_yaml_to_exclude, Dict.has. by intros ->.
  - unfold _convert_yaml_to_exclude, Dict.has.
    intros patterns -> ->. cbn [negb]. rewrite str_items_strings.
    cbn [mbind option_bind]. by rewrite globbed_fold.
  - intros patterns required Hinc Hreq matched.
    exists (List.filter (fun req => not_in req matched) required).
    assert (Hin : forall f,
              f ∈ List.filter (fun req => not_in req matched) required
              <-> f ∈ required /\ f ∉ matched).
    { intros f. rewrite list_elem_of_In, filter_In, <- list_elem_of_In.
      by rewrite not_in_spec. }
    split; [|split; [|split; [done|]]].
    + unfold _convert_yaml_to_exclude, Dict.has. rewrite Hinc, Hreq.
      cbn [negb]. rewrite !str_items_strings. cbn [mbind option_bind].
      by rewrite globbed_fold.
    + clear. induction required as [|f required IH]; simpl; [done|].
      destruct (not_in f matched); by constructor.
    + intros f. rewrite elem_of_app, Hin. split.
      * intros [?|[? _]]; auto.
      * intros [?|?]; [by left|].
        destruct (decide (f ∈ matched)); [by left | by right].
Qed.

(** ** [authenticate]: SSH first *)

Lemma authenticate_after_user {A} (w : AuthWorld) (org : string)
    (body : User -> IO A) (u : User) (evs t : list event) :
  yields (fun A => @_authenticate_ssl A w org) (Some u) evs ->
  authenticate w org body t = body u (t ++ evs).
Proof.
  intros Hy. unfold authenticate. unfold bind at 1. rewrite Hy.
  unfold bind, ret. by destruct (body u (t ++ evs)) as [[[x|e] t']|].
Qed.

Lemma authenticate_after_none {A} (w : AuthWorld) (org : string)
    (body : User -> IO A) (evs t : list event) :
  yields (fun A => @_authenticate_ssl A w org) None evs ->
  authenticate w org body t
    = _authenticate_https w org body (t ++ evs ++ [EProgressStop]).
Proof.
  intros Hy. unfold authenticate. unfold bind at 1. rewrite Hy.
  unfold ret. io_unfold. by rewrite app_assoc.
Qed.

(** X14.  [authenticate] follows the SSH probe.  If the probe yields a user, the
    block of the [with] statement runs on that user, right after the probe.  If
    it yields nothing, the progress bar is stopped and HTTPS authentication
    takes over, with the block of the caller as its own.  If it fails (ssh
    cannot be spawned, or answers with none of the four patterns) [authenticate]
    fails with the same exception:  HTTPS authentication is tried only after a
    probe that yielded nothing. *)
Theorem authenticate_follows_probe (w : AuthWorld) (org : string) :
  (forall u evs,
     yields (fun A => @_authenticate_ssl A w org) (Some u) evs ->
     yields (fun A => @authenticate A w org) u evs) /\
  (forall evs,
     yields (fun A => @_authenticate_ssl A w org) None evs ->
     forall A (body : User -> IO A) (t : list event),
       authenticate w org body t
         = _authenticate_https w org body (t ++ evs ++ [EProgressStop])) /\
  (forall e evs,
     fails (fun A => @_authenticate_ssl A w org) e evs ->
     fails (fun A => @authenticate A w org) e evs) /\
  (forall e,
     w_spawn w ssh_cmd = Raise e ->
     fails (fun A => @authenticate A w org) e [ESpawn ssh_cmd]) /\
  (forall e,
     w_spawn w ssh_cmd = Ok tt -> w_expect w ssh_cmd = Raise e ->
     fails (fun A => @authenticate A w org) e
       [ESpawn ssh_cmd; EExpect ssh_cmd ssh_patterns]).
Proof.
  assert (Hfail : forall e evs,
     fails (fun A => @_authenticate_ssl A w org) e evs ->
     fails (fun A => @authenticate A w org) e evs).
  { intros e evs Hf A body t. unfold authenticate. unfold bind at 1.
    by rewrite Hf. }
  split; [|split; [|split; [done|split]]].
  - intros u evs Hy A body t. by apply authenticate_after_user.
  - intros evs Hy A body t. by apply authenticate_after_none.
  - intros e Hsp. apply Hfail. intros A body t.
    unfold _authenticate_ssl. io_run. by rewrite Hsp.
  - intros e Hsp Hex. apply Hfail. intros A body t.
    unfold _authenticate_ssl. io_run. rewrite Hsp, Hex. by trace_norm.
Qed.

(** ** [push] *)

Lemma ssl_user_without_password (w : AuthWorld) (org : string) (u : User)
    (evs : list event) :
  yields (fun A => @_authenticate_ssl A w org) (Some u) evs ->
  password u = None.
Proof.
  intros Hy.
  destruct (authenticate_ssl_cases w org)
    as [(e & evs' & Hf)|[(evs' & Hy')|(username & evs' & Hy')]];
    specialize (Hy _ ret []); rewrite ?Hf, ?Hy' in Hy; try done.
  unfold ret in Hy. by injection Hy as <- _.
Qed.

Lemma push_authenticates (w : SlugWorld) (dw : DepWorld)
    (fw : FetchWorld) (aw : AuthWorld) (pw : PrepWorld)
    (org branch tool : string) (st st' : store) (t : list event) (sec : nat) :
  check_dependencies w dw = Ok tt ->
  connect w fw org branch tool st = Some (Ok sec, st') ->
  exists s,
    sections st' !! sec = Some s /\
    push w dw fw aw pw org branch tool st t =
      match authenticate aw org
              (fun user =>
                 let* _ := pure_step (prepare w pw org branch user s) in
                 lift (upload branch user)) t with
      | None => None
      | Some (r, t') => Some (r, st', t')
      end.
Proof.
  intros Hdep Hconn.
  destruct (connect_ends _ _ _ _ _ _ _ _ Hconn) as (cfg & st1 & Hfin).
  apply connect_finish_ok in Hfin as (-> & s & Hs & _).
  exists s. split; [done|]. unfold push. by rewrite Hdep, Hconn, Hs.
Qed.

(** X15.  [push] stops at the first failure.  When [check_dependencies] or
    [connect] raises, it ends with that exception and nothing of authentication
    has happened.  When git refuses the clone, it ends with the program's
    [Error]: for a user who came in by SSH the message points at [~/.gitconfig],
    and nothing has happened but the probe; for a user who came in by HTTPS with
    a password it says that the organisation is not enabled, and before the
    error leaves, the handler of HTTPS authentication has run its two git
    commands, in this order and after everything else: [credential_cache] with
    the arguments the code gives it (Python's [exit] object and the socket),
    then [credential_osxkeychain] with [erase].  What git makes of the two
    commands is not part of the statement. *)
Theorem push_stops_at_first_failure (w : SlugWorld) (dw : DepWorld)
    (fw : FetchWorld) (aw : AuthWorld) (pw : PrepWorld)
    (org branch tool : string) (st : store) (t : list event) :
  (forall e,
     check_dependencies w dw = Raise e ->
     push w dw fw aw pw org branch tool st t = Some (Raise e, st, t)) /\
  (forall e st',
     check_dependencies w dw = Ok tt ->
     connect w fw org branch tool st = Some (Raise e, st') ->
     push w dw fw aw pw org branch tool st t = Some (Raise e, st', t)) /\
  (forall sec st' u evs msg,
     check_dependencies w dw = Ok tt ->
     connect w fw org branch tool st = Some (Ok sec, st') ->
     yields (fun A => @_authenticate_ssl A aw org) (Some u) evs ->
     w_clone_from pw (repo u) = Raise (GitError msg) ->
     push w dw fw aw pw org branch tool st t =
       Some (Raise (Error (w_gettext w (wrong_username_msg org))), st',
             t ++ evs)) /\
  (forall sec st' u evs0 evs msg out,
     check_dependencies w dw = Ok tt ->
     connect w fw org branch tool st = Some (Ok sec, st') ->
     yields (fun A => @_authenticate_ssl A aw org) None evs0 ->
     yields_under (fun A => @_authenticate_https A aw org)
       (fun A => https_except aw (socket_path aw)) u evs ->
     truthy (password u) = true ->
     w_clone_from pw (repo u) = Raise (GitError msg) ->
     w_git aw (cache_exit_call (socket_path aw)) = Ok out ->
     (forall e, w_git aw keychain_erase_call = Raise e ->
                is_GitError e = true) ->
     push w dw fw aw pw org branch tool st t =
       Some (Raise (Error (w_gettext w (not_enabled_msg org))), st',
             t ++ evs0 ++ [EProgressStop] ++ evs ++
             [EGit (cache_exit_call (socket_path aw));
              EGit keychain_erase_call])).
Proof.
  split; [|split; [|split]].
  - unfold push. by intros e ->.
  - unfold push. by intros e st' -> ->.
  - intros sec st' u evs msg Hdep Hconn Hy Hclone.
    destruct (push_authenticates w dw fw aw pw org branch tool st st' t sec
                Hdep Hconn) as (s & Hs & ->).
    assert (Hpw : password u = None) by by eapply ssl_user_without_password.
    rewrite (authenticate_after_user _ _ _ u evs) by done.
    unfold bind, pure_step, prepare. rewrite Hclone, Hpw. done.
  - intros sec st' u evs0 evs msg out Hdep Hconn Hnone Hy Htr Hclone Hexit Hkey.
    destruct (push_authenticates w dw fw aw pw org branch tool st st' t sec
                Hdep Hconn) as (s & Hs & ->).
    rewrite (authenticate_after_none _ _ _ evs0) by done.
    rewrite Hy. unfold try_catch at 1.
    unfold bind, pure_step, prepare. rewrite Hclone, Htr. simpl.
    rewrite https_except_eq, Hexit.
    destruct (w_git aw keychain_erase_call) as [?|e2] eqn:Hk.
    + cbv zeta. by rewrite <- !app_assoc.
    + rewrite (Hkey e2) by done. cbv zeta. by rewrite <- !app_assoc.
Qed.

(** ** HTTPS authentication: credentials and their validation *)

(** X16.  Credentials that the cache returns are used without a prompt.  When
    the cache has none, the user is asked for a name and then for a password;
    and the end of input at the name prompt does not stop this: the password is
    still asked for, and the credentials go on without a name. *)
Theorem credentials_cached_or_prompted (w : AuthWorld) (socket : string)
    (m : expect_result) :
  w_spawn w (fill_cmd socket) = Ok tt ->
  w_sendline w (fill_cmd socket) = Ok tt ->
  w_expect w (fill_cmd socket) = Ok m ->
  let asked := [ESpawn (fill_cmd socket); ESendline (fill_cmd socket) "";
                EExpect (fill_cmd socket) fill_patterns;
                EClose (fill_cmd socket)] in
  (forall u p,
     matched m = 2%nat -> groups m = [u; p] -> p <> "" ->
     settles (https_credentials w socket) (Ok (Some u, Some p)) asked) /\
  (forall line pwd,
     matched m <> 2%nat ->
     w_input w "Github username: " = Ok line ->
     w_get_password w "Github password: " = Ok pwd ->
     settles (https_credentials w socket)
       (Ok (Some (rstrip_space (lstrip_space line)), Some pwd))
       (asked ++ [EInput "Github username: ";
                  EGetPassword "Github password: "])) /\
  (forall msg pwd,
     matched m <> 2%nat ->
     w_input w "Github username: " = Raise (PyExn "EOFError" msg) ->
     w_get_password w "Github password: " = Ok pwd ->
     settles (https_credentials w socket) (Ok (None, Some pwd))
       (asked ++ [EInput "Github username: ";
                  EGetPassword "Github password: "])).
Proof.
  intros Hsp Hsl Hex asked. split; [|split].
  - intros u p Hm Hg Hp t. unfold https_credentials. io_run.
    rewrite Hsp, Hsl, Hex, Hm, Hg. simpl.
    destruct p as [|c p]; [done|]. simpl. by trace_norm.
  - intros line pwd Hm Hin Hpw t. unfold https_credentials. cbv zeta.
    unfold _get_username, _get_password. io_run.
    rewrite Hsp, Hsl, Hex. apply Nat.eqb_neq in Hm. rewrite Hm. simpl.
    rewrite Hin, Hpw. by trace_norm.
  - intros msg pwd Hm Hin Hpw t. unfold https_credentials. cbv zeta.
    unfold _get_username, _get_password. io_run.
    rewrite Hsp, Hsl, Hex. apply Nat.eqb_neq in Hm. rewrite Hm. simpl.
    rewrite Hin. simpl. rewrite Hpw. by trace_norm.
Qed.


(** ** The user's name: [_get_username] *)

Lemma lstrip_space_spec (s : string) :
  exists pre,
    s = pre +:+ lstrip_space s /\
    forallb is_space (chars pre) = true /\
    forall c r, lstrip_space s = String c r -> is_space c = false.
Proof.
  induction s as [|a s (pre & Hs & Hpre & Hhead)]; [by exists ""|].
  simpl. destruct (is_space a) eqn:Ha.
  - exists (String a pre). rewrite append_cons, <- Hs. split; [done|].
    split; [|done]. unfold chars in *. simpl. by rewrite Ha.
  - exists "". split; [done|]. split; [done|]. by intros c r [= <- _].
Qed.

Lemma snoc_single (r : string) (c a : ascii) :
  r +:+ String c "" = String a "" -> r = "" /\ c = a.
Proof.
  destruct r as [|b r]; [by intros [= ->]|].
  rewrite append_cons. intros [= _ H]. by destruct r.
Qed.

Lemma rstrip_space_spec (s : string) :
  exists post,
    s = rstrip_space s +:+ post /\
    forallb is_space (chars post) = true /\
    forall r c, rstrip_space s = r +:+ String c "" -> is_space c = false.
Proof.
  induction s as [|a s (post & Hs & Hpost & Hlast)].
  { exists "". split; [done|]. split; [done|]. intros r c H. by destruct r. }
  simpl. destruct (rstrip_space s) as [|b r'] eqn:Hr.
  - rewrite append_nil in Hs. subst post. destruct (is_space a) eqn:Ha.
    + exists (String a s). split; [done|]. split.
      * unfold chars in *. simpl. by rewrite Ha.
      * intros r c H. by destruct r.
    + exists s. split; [done|]. split; [done|].
      intros r c [-> ->]%eq_sym%snoc_single. done.
  - exists post. split; [by rewrite append_cons, <- Hs|]. split; [done|].
    intros r c H. destruct r as [|a' r].
    + rewrite append_nil in H. by injection H.
    + rewrite append_cons in H. injection H as _ H. by eapply Hlast.
Qed.

Lemma rstrip_space_head (s : string) (c : ascii) (r : string) :
  rstrip_space s = String c r -> exists r', s = String c r'.
Proof.
  destruct s as [|a s]; [done|]. simpl.
  destruct (rstrip_space s); [destruct (is_space a)|]; intros [= <- _]; eauto.
Qed.

(** X18.  The name that is read is the line without the white space at its
    two ends, however much there is (for a line of ASCII characters, whose
    white space is what [is_space] says).  The end of input gives no name,
    and no exception; any other exception of the read is passed on. *)
Theorem get_username_strips (w : AuthWorld) (prompt : string) :
  (forall line,
     w_input w prompt = Ok line ->
     Forall (fun c => (nat_of_ascii c < 128)%nat) (chars line) ->
     exists name pre post,
       settles (_get_username w prompt) (Ok (Some name)) [EInput prompt] /\
       line = pre +:+ name +:+ post /\
       forallb is_space (chars pre) = true /\
       forallb is_space (chars post) = true /\
       (forall c r, name = String c r -> is_space c = false) /\
       (forall r c, name = r +:+ String c "" -> is_space c = false)) /\
  (forall e,
     w_input w prompt = Raise e ->
     settles (_get_username w prompt)
       (if is_EOFError e then Ok None else Raise e) [EInput prompt]).
Proof.
  split.
  - intros line Hin _.
    destruct (lstrip_space_spec line) as (pre & Hline & Hpre & Hhead).
    destruct (rstrip_space_spec (lstrip_space line)) as (post & Hl & Hpost & Hlast).
    exists (rstrip_space (lstrip_space line)), pre, post.
    split; [|split; [by rewrite <- Hl|split; [done|split; [done|split; [|done]]]]].
    + intros t. unfold _get_username. io_run. by rewrite Hin.
    + intros c r [r' Hr]%rstrip_space_head. by eapply Hhead.
  - intros e Hin t. unfold _get_username. io_run. rewrite Hin.
    by destruct (is_EOFError e).
Qed.

Section PasswordFacts.

Import Terminal.

(** ** The password: [_get_password] *)

Lemma read_password_run (fuel : nat) :
  forall (password : list ascii) (st : tty),
    (length (pending st) <= fuel)%nat ->
    read_password fuel password st =
      match run_keys (pending st) password with
      | Some (r, rest, out) =>
          Some (r, {| is_a_tty := is_a_tty st; settings := settings st;
                      pending := rest; screen := screen st ++ out |})
      | None => None
      end.
Proof.
  induction fuel as [|fuel IH]; intros password st Hfuel.
  { destruct st as [tty_ mode_ [|ch input] scr]; simpl in *; [done|lia]. }
  destruct st as [tty_ mode_ input scr]. simpl in *.
  destruct input as [|ch input]; simpl; [done|].
  unfold bind at 1, read1. simpl.
  destruct ((_ =? 13)%nat || _ || _); simpl; [done|].
  destruct (_ =? 127)%nat; simpl.
  { destruct password as [|p password]; [unfold raise; by rewrite app_nil_r|].
    unfold bind, print. simpl. rewrite IH by (simpl in *; lia). simpl.
    destruct (run_keys input _) as [[[r rest] out]|]; [|done].
    by rewrite <- app_assoc. }
  destruct (_ =? 3)%nat; simpl; [done|].
  unfold bind, print. simpl. rewrite IH by (simpl in *; lia). simpl.
  destruct (run_keys input _) as [[[r rest] out]|]; [|done].
  by rewrite <- app_assoc.
Qed.

Lemma get_password_run (decode : list ascii -> outcome string)
    (prompt : string) (st : tty) :
  is_a_tty st = true ->
  _get_password decode prompt st =
    match run_keys (pending st) [] with
    | Some (r, rest, out) =>
        Some (match r with
              | Ok password => decode password
              | Raise e => Raise e
              end,
              {| is_a_tty := true; settings := settings st;
                 pending := rest; screen := screen st ++ prompt :: out |})
    | None => None
    end.
Proof.
  intros Htty. unfold _get_password.
  unfold bind at 1, tcgetattr. rewrite Htty.
  unfold bind at 1, setraw, tcsetattr. rewrite Htty.
  unfold bind at 1, print. cbn [is_a_tty settings pending screen].
  unfold bind at 1, try_finally. cbn [is_a_tty settings pending screen].
  rewrite read_password_run by (simpl; lia).
  cbn [is_a_tty settings pending screen].
  destruct (run_keys (pending st) []) as [[[r rest] out]|]; [|done].
  unfold tcsetattr. cbn [is_a_tty settings pending screen].
  rewrite <- app_assoc. by destruct r.
Qed.

Lemma run_keys_rest (input : list ascii) :
  forall password r rest out,
    run_keys input password = Some (r, rest, out) ->
    exists n, rest = drop n input.
Proof.
  induction input as [|ch input IH]; intros password r rest out; [done|].
  simpl.
  destruct ((_ =? 13)%nat || _ || _); [intros [= _ <- _]; by exists 1%nat|].
  destruct (_ =? 127)%nat.
  { destruct password as [|p password]; [intros [= _ <- _]; by exists 1%nat|].
    destruct (run_keys input _) as [[[r0 rest0] out0]|] eqn:Hrun; [|done].
    intros [= _ <- _]. destruct (IH _ _ _ _ Hrun) as [n Hn]. by exists (S n). }
  destruct (_ =? 3)%nat; [intros [= _ <- _]; by exists 1%nat|].
  destruct (run_keys input _) as [[[r0 rest0] out0]|] eqn:Hrun; [|done].
  intros [= _ <- _]. destruct (IH _ _ _ _ Hrun) as [n Hn]. by exists (S n).
Qed.

Lemma run_keys_masked (input : list ascii) :
  forall password r rest out,
    run_keys input password = Some (r, rest, out) ->
    Forall (fun s => s ∈ ["*"; wipe; "^C"; end_of_line]) out.
Proof.
  induction input as [|ch input IH]; intros password r rest out; [done|].
  simpl.
  destruct ((_ =? 13)%nat || _ || _).
  { intros [= _ _ <-]. repeat constructor. }
  destruct (_ =? 127)%nat.
  { destruct password as [|p password]; [intros [= _ _ <-]; by constructor|].
    destruct (run_keys input _) as [[[r0 rest0] out0]|] eqn:Hrun; [|done].
    intros [= _ _ <-]. constructor; [|by eapply IH]. repeat constructor. }
  destruct (_ =? 3)%nat; [intros [= _ _ <-]; repeat constructor|].
  destruct (run_keys input _) as [[[r0 rest0] out0]|] eqn:Hrun; [|done].
  intros [= _ _ <-]. constructor; [|by eapply IH]. repeat constructor.
Qed.

(** A byte that ends the read: Enter, ctrl-d or ctrl-c. *)
Lemma run_keys_ends (input : list ascii) :
  (exists key, key ∈ input /\ nat_of_ascii key ∈ [13; 10; 4; 3]%nat) ->
  forall password, is_Some (run_keys input password).
Proof.
  induction input as [|ch input IH]; intros (key & Hin & Hkey) password.
  { by apply elem_of_nil in Hin. }
  assert (Hnext : key <> ch -> forall password',
            is_Some (run_keys input password')).
  { intros Hne. apply IH. exists key. split; [|done].
    apply elem_of_cons in Hin as [?|?]; done. }
  simpl.
  destruct ((nat_of_ascii ch =? 13)%nat || _ || _) eqn:Henter; [done|].
  rewrite !orb_false_iff, !Nat.eqb_neq in Henter.
  destruct Henter as [[H13 H10] H4].
  destruct (nat_of_ascii ch =? 127)%nat eqn:H127.
  { destruct password as [|p password]; [done|].
    apply Nat.eqb_eq in H127.
    destruct (Hnext ltac:(intros ->; rewrite H127 in Hkey;
                          repeat (apply elem_of_cons in Hkey as [Hkey|Hkey];
                                  [done|]);
                          by apply elem_of_nil in Hkey)
                (removelast (p :: password))) as [[[r rest] out] ->].
    done. }
  destruct (nat_of_ascii ch =? 3)%nat eqn:H3; [done|].
  apply Nat.eqb_neq in H3.
  destruct (Hnext ltac:(intros ->;
                        repeat (apply elem_of_cons in Hkey as [Hkey|Hkey];
                                [done|]);
                        by apply elem_of_nil in Hkey)
              (password ++ [ch])) as [[[r rest] out] ->].
  done.
Qed.

(** X20.  The terminal gets its settings back.  Whenever [_get_password] ends,
    with a password or with an exception, the terminal is in the mode it was in
    before the call and what is left of the input is the input without the
    bytes that were read; and it does end as soon as Enter, ctrl-d or ctrl-c is
    among the bytes the terminal delivers. *)
Theorem get_password_restores_terminal (decode : list ascii -> outcome string)
    (prompt : string) (st : tty) :
  (forall r st',
     _get_password decode prompt st = Some (r, st') ->
     settings st' = settings st /\
     is_a_tty st' = is_a_tty st /\
     exists n, pending st' = drop n (pending st)) /\
  ((exists key, key ∈ pending st /\ nat_of_ascii key ∈ [13; 10; 4; 3]%nat) ->
   exists r st', _get_password decode prompt st = Some (r, st')).
Proof.
  destruct (is_a_tty st) eqn:Htty.
  - rewrite get_password_run by done. split.
    + intros r st'.
      destruct (run_keys (pending st) []) as [[[r0 rest] out]|] eqn:Hrun;
        [|done].
      intros [= _ <-]. simpl. split; [done|]. split; [done|].
      by eapply run_keys_rest.
    + intros Hkey.
      destruct (run_keys_ends _ Hkey []) as [[[r0 rest] out] ->]. eauto.
  - assert (Hrun : _get_password decode prompt st
                   = Some (Raise termios_error, st)).
    { unfold _get_password, bind, tcgetattr. by rewrite Htty. }
    rewrite Hrun. split; [|eauto].
    intros r st' [= _ <-]. split; [done|]. split; [done|]. by exists 0%nat.
Qed.

(** X21.  No byte of the password reaches the screen: after the prompt, all that
    is printed is stars, the three characters that wipe a star, [^C] and the end
    of the line. *)
Theorem get_password_never_echoes (decode : list ascii -> outcome string)
    (prompt : string) (st st' : tty) (r : outcome string) :
  _get_password decode prompt st = Some (r, st') ->
  screen st' = screen st \/
  exists printed,
    screen st' = screen st ++ prompt :: printed /\
    Forall (fun s => s ∈ ["*"; wipe; "^C"; end_of_line]) printed.
Proof.
  destruct (is_a_tty st) eqn:Htty.
  - rewrite get_password_run by done.
    destruct (run_keys (pending st) []) as [[[r0 rest] out]|] eqn:Hrun; [|done].
    intros [= _ <-]. right. exists out. split; [done|].
    by eapply run_keys_masked.
  - unfold _get_password, bind, tcgetattr. rewrite Htty.
    intros [= _ <-]. by left.
Qed.

Lemma run_keys_typed (typed : list ascii) :
  forallb ordinary typed = true ->
  forall input password,
    run_keys (typed ++ input) password =
      match run_keys input (password ++ typed) with
      | Some (r, rest, out) =>
          Some (r, rest, replicate (length typed) "*" ++ out)
      | None => None
      end.
Proof.
  induction typed as [|ch typed IH]; intros Hord input password.
  - simpl. rewrite app_nil_r.
    by destruct (run_keys input password) as [[[??]?]|].
  - simpl in Hord. apply andb_true_iff in Hord as [Hch Hord].
    unfold ordinary in Hch. apply negb_true_iff in Hch.
    rewrite !orb_false_iff in Hch. destruct Hch as [[[[H13 H10] H4] H127] H3].
    cbn [app run_keys]. rewrite H13, H10, H4, H127, H3. cbn [orb].
    rewrite IH by done. rewrite <- app_assoc. simpl.
    by destruct (run_keys input _) as [[[??]?]|].
Qed.

(** X22.  What is typed before Enter comes back: when the input is bytes that
    are none of Enter, ctrl-d, DEL and ctrl-c, and then Enter (a carriage return
    or a line feed) or ctrl-d, the password is those bytes decoded, one star has
    been printed for each byte, and the input after the Enter is still to be
    read. *)
Theorem get_password_reads_a_line (decode : list ascii -> outcome string)
    (prompt : string) (st : tty) (typed : list ascii) (enter : ascii)
    (rest : list ascii) :
  is_a_tty st = true ->
  forallb ordinary typed = true ->
  nat_of_ascii enter = 13%nat \/ nat_of_ascii enter = 10%nat \/
    nat_of_ascii enter = 4%nat ->
  pending st = typed ++ enter :: rest ->
  _get_password decode prompt st =
    Some (decode typed,
          {| is_a_tty := true; settings := settings st; pending := rest;
             screen := screen st ++ prompt ::
                       replicate (length typed) "*" ++ [end_of_line] |}).
Proof.
  intros Htty Hord Henter Hin. rewrite get_password_run by done.
  rewrite Hin, run_keys_typed by done. cbn [app run_keys].
  assert (((nat_of_ascii enter =? 13) || (nat_of_ascii enter =? 10)
           || (nat_of_ascii enter =? 4))%nat = true) as ->.
  { destruct Henter as [-> | [-> | ->]]; done. }
  done.
Qed.

Lemma run_keys_undo (pre : list ascii) (ch : ascii) (post : list ascii) :
  ordinary ch = true ->
  forall password,
    (fun run => run.1.1) <$> run_keys (pre ++ ch :: DEL :: post) password
    = (fun run => run.1.1) <$> run_keys (pre ++ post) password.
Proof.
  intros Hch. unfold ordinary in Hch. apply negb_true_iff in Hch.
  rewrite !orb_false_iff in Hch. destruct Hch as [[[[H13 H10] H4] H127] H3].
  induction pre as [|k pre IH]; intros password.
  - cbn [app run_keys]. rewrite H13, H10, H4, H127, H3. cbn [orb].
    change (nat_of_ascii DEL) with 127%nat. cbn [Nat.eqb orb].
    destruct (password ++ [ch]) as [|p l] eqn:Hl.
    { by destruct password. }
    rewrite <- Hl, removelast_last.
    by destruct (run_keys post password) as [[[??]?]|].
  - cbn [app run_keys].
    destruct ((nat_of_ascii k =? 13)%nat || _ || _); [done|].
    destruct (nat_of_ascii k =? 127)%nat.
    { destruct password as [|p password]; [done|].
      specialize (IH (removelast (p :: password))).
      destruct (run_keys (pre ++ ch :: DEL :: post) _) as [[[??]?]|],
               (run_keys (pre ++ post) _) as [[[??]?]|];
        simpl in *; congruence. }
    destruct (nat_of_ascii k =? 3)%nat; [done|].
    specialize (IH (password ++ [k])).
    destruct (run_keys (pre ++ ch :: DEL :: post) _) as [[[??]?]|],
             (run_keys (pre ++ post) _) as [[[??]?]|];
      simpl in *; congruence.
Qed.

(** X23.  DEL takes back the byte typed before it: an input in which a byte that
    is kept is followed by DEL ends as the input without the two, with the same
    password or the same exception, whatever comes before and after. *)
Theorem get_password_del_undoes (decode : list ascii -> outcome string)
    (prompt : string) (st : tty) (pre : list ascii) (ch : ascii)
    (post : list ascii) :
  ordinary ch = true ->
  fst <$> _get_password decode prompt (with_input st (pre ++ ch :: DEL :: post))
  = fst <$> _get_password decode prompt (with_input st (pre ++ post)).
Proof.
  intros Hch. destruct (is_a_tty st) eqn:Htty.
  - rewrite !get_password_run by done. simpl.
    pose proof (run_keys_undo pre ch post Hch []) as H.
    destruct (run_keys (pre ++ ch :: DEL :: post) []) as [[[r1 ?] ?]|],
             (run_keys (pre ++ post) []) as [[[r2 ?] ?]|];
      simpl in *; try done.
    by injection H as ->.
  - unfold _get_password, bind, tcgetattr. simpl. by rewrite Htty.
Qed.

Lemma run_keys_dels (n : nat) :
  forall password input,
    length password = n ->
    (fun run => run.1.1) <$> run_keys (replicate (S n) DEL ++ input) password
    = Some (Raise (IndexError "pop from empty list")).
Proof.
  induction n as [|n IH]; intros password input Hlen.
  - destruct password; [done|done].
  - destruct password as [|p password]; [done|].
    assert (Hlen' : length (removelast (p :: password)) = n).
    { assert (p :: password <> []) as Hne by done.
      destruct (exists_last Hne) as (front & a & Heq). rewrite Heq in *.
      rewrite removelast_last. rewrite length_app in Hlen. simpl in Hlen. lia. }
    change (replicate (S (S n)) DEL ++ input)
      with (DEL :: (replicate (S n) DEL ++ input)).
    cbn [run_keys]. change (nat_of_ascii DEL) with 127%nat. cbn [Nat.eqb orb].
    specialize (IH _ input Hlen').
    destruct (run_keys (replicate (S n) DEL ++ input) _) as [[[??]?]|];
      simpl in *; congruence.
Qed.

(** X24.  The read does not always end with a password.  One DEL more than there
    are bytes to take back raises [IndexError], which the handler for
    [ValueError] around [pop] does not catch; and ctrl-c raises
    [KeyboardInterrupt].  The password typed so far is then lost. *)
Theorem get_password_exceptions (decode : list ascii -> outcome string)
    (prompt : string) (st : tty) (typed rest : list ascii) :
  is_a_tty st = true ->
  forallb ordinary typed = true ->
  (pending st = typed ++ replicate (S (length typed)) DEL ++ rest ->
   fst <$> _get_password decode prompt st
   = Some (Raise (IndexError "pop from empty list"))) /\
  (pending st = typed ++ ascii_of_nat 3 :: rest ->
   fst <$> _get_password decode prompt st = Some (Raise KeyboardInterrupt)).
Proof.
  intros Htty Hord. split; intros Hin;
    rewrite get_password_run by done; rewrite Hin.
  - rewrite run_keys_typed by done.
    pose proof (run_keys_dels (length typed) ([] ++ typed) rest eq_refl) as H.
    destruct (run_keys _ ([] ++ typed)) as [[[r ?] ?]|]; simpl in *; [|done].
    by injection H as ->.
  - rewrite run_keys_typed by done. done.
Qed.

End PasswordFacts.

(* ================================================================== *)
(** * Further instances *)

Lemma check_dependencies_sound_witness :
  exists path major minor patch rest,
    w_which (sample_deps ("git version 2.39.2" +:+ newline)) "git" = Some path /\
    w_check_output (sample_deps ("git version 2.39.2" +:+ newline))
      ["git"; "--version"]
    = Ok ("git version " +:+ major +:+ "." +:+ minor +:+ "." +:+ patch
          +:+ rest) /\
    numeral major = true /\ numeral minor = true /\ numeral patch = true /\
    (2 < int major \/ int major = 2 /\ 7 <= int minor)%N.
Proof.
  apply (check_dependencies_sound sample_world
           (sample_deps ("git version 2.39.2" +:+ newline))).
  reflexivity.
Defined.

Lemma git_version_by_numbers_witness :
  check_dependencies sample_world
    (sample_deps ("git version 2.10.0 (Apple Git-1)" +:+ newline)) = Ok tt /\
  check_dependencies sample_world (sample_deps "git version 2.6.9")
    = Raise (Error old_git_msg).
Proof.
  split.
  - rewrite (git_version_by_numbers sample_world
               (sample_deps ("git version 2.10.0 (Apple Git-1)" +:+ newline))
               "/usr/bin/git" "2" "10" "0" " (Apple Git-1)" newline).
    + reflexivity.
    + reflexivity.
    + discriminate.
    + reflexivity.
    + reflexivity.
    + reflexivity.
    + intros c r H. injection H as <- _. split; [reflexivity|]. vm_compute. lia.
    + vm_compute. intros H. by repeat (apply elem_of_cons in H as [H|H]; [done|]);
        apply elem_of_nil in H.
    + by right.
    + reflexivity.
  - rewrite (git_version_by_numbers sample_world
               (sample_deps "git version 2.6.9")
               "/usr/bin/git" "2" "6" "9" "" "").
    + reflexivity.
    + reflexivity.
    + discriminate.
    + reflexivity.
    + reflexivity.
    + reflexivity.
    + intros c r H. discriminate H.
    + apply not_elem_of_nil.
    + by left.
    + reflexivity.
Defined.

Lemma parse_slug_too_short_witness :
  _parse_slug sample_world "cs50/problems2" false
    = Raise (InvalidSlug "cs50/problems2").
Proof.
  apply parse_slug_too_short.
  - reflexivity.
  - reflexivity.
  - vm_compute. lia.
Defined.

Lemma parse_slug_decomposes_witness :
  _parse_slug sample_world "cs50/problems2/master/./hello//sub" true
    = Ok ("cs50", "problems2", "master", {| path_arg := "hello/sub" |}) /\
  exists text,
    "cs50/problems2/master/./hello//sub"
      = "cs50" +:+ "/" +:+ "problems2" +:+ "/" +:+ "master" +:+ "/" +:+ text /\
    {| path_arg := "hello/sub" |} = PosixPath text /\
    ("/"%char ∉ chars "cs50") /\ ("/"%char ∉ chars "problems2") /\
    "cs50" <> "" /\ text <> "" /\
    (forall parts,
       parts <> [] ->
       Forall (fun x => x <> "" /\ x <> "." /\ "/"%char ∉ chars x) parts ->
       text = String.concat "/" parts ->
       path_arg {| path_arg := "hello/sub" |} = text).
Proof.
  split; [reflexivity|].
  apply (parse_slug_decomposes sample_world
           "cs50/problems2/master/./hello//sub" true).
  reflexivity.
Defined.

Lemma parse_slug_no_git_error_witness :
  is_GitError (InvalidSlug "cs50/problems2/2019/x/hello") = false.
Proof.
  apply (parse_slug_no_git_error sample_world "cs50/problems2/2019/x/hello"
           false).
  reflexivity.
Defined.

Lemma remote_heads_are_candidates_witness :
  parse_branch remote_world "cs50/problems2/2019/x/hello" "cs50" "problems2"
    "2019/x/hello" false
  = match_branch "cs50/problems2/2019/x/hello" "2019/x/hello"
      (map (fun head => Ok head.2) sample_heads).
Proof.
  apply (remote_heads_are_candidates remote_world "cs50/problems2/2019/x/hello"
           "cs50" "problems2" "2019/x/hello").
  - reflexivity.
  - discriminate.
  - repeat constructor; simpl;
      try (vm_compute; intros H;
           by repeat (apply elem_of_cons in H as [H|H]; [done|]);
             apply elem_of_nil in H).
  - reflexivity.
Defined.

Lemma check_required_spec_witness :
  exists r,
    _check_required sample_world only_hello 0 required_store
      = Some (r, required_store) /\
    (r = Ok tt <->
     forall f, f ∈ ["hello.c"; "README.md"] -> w_isfile only_hello f = true) /\
    (forall e, r = Raise e ->
       exists missing,
         e = Error (w_gettext sample_world "You seem to be missing these files:"
                    +:+ newline +:+ String.concat newline missing
                    +:+ newline +:+
                    w_gettext sample_world
                      "Ensure you have the required files before submitting.") /\
         sublist missing ["hello.c"; "README.md"] /\
         forall f, f ∈ missing <->
                   f ∈ ["hello.c"; "README.md"] /\ w_isfile only_hello f = false).
Proof.
  destruct (check_required_spec sample_world only_hello required_store 0
              sample_section) as [_ H].
  - reflexivity.
  - apply (H [YStr "hello.c"; YStr "README.md"]); reflexivity.
Defined.

Lemma connect_returns_checked_section_witness :
  connect sample_world both_present
    "check50" "cs50/problems2/master/hello" "check50" empty_store
    = Some (Ok 0%nat, install requiring_local empty_store) /\
  sections (install requiring_local empty_store) !! 0%nat
    = Some sample_section /\
  Dict.get "required" sample_section
    = Some (YList [YStr "hello.c"; YStr "README.md"]) /\
  w_isfile both_present "util.c" = false /\
  exists s,
    sections (install requiring_local empty_store) !! 0%nat = Some s /\
    forall items files,
      Dict.get "required" s = Some (YList items) ->
      str_items items = Some files ->
      forall f, f ∈ files -> w_isfile both_present f = true.
Proof.
  split; [reflexivity|]. split; [reflexivity|].
  split; [reflexivity|]. split; [reflexivity|].
  apply (connect_returns_checked_section sample_world both_present
           "check50" "cs50/problems2/master/hello" "check50" empty_store).
  reflexivity.
Defined.

Lemma connect_needs_local_config_witness :
  connect sample_world (sample_fetch (Ok (false, "")))
    "check50" "cs50/problems2/master/hello" "submit50" empty_store
  = Some (Raise (InvalidSlug
                   "Invalid slug for submit50, did you mean something else?"),
          install sample_local empty_store).
Proof.
  destruct (connect_needs_local_config sample_world
              (sample_fetch (Ok (false, "")))
              "check50" "cs50/problems2/master/hello" "submit50" empty_store
              "cs50" "problems2" "master" {| path_arg := "hello" |})
    as (_ & _ & H).
  - reflexivity.
  - apply (H "local" sample_local); reflexivity.
Defined.

Lemma exclude_lets_through_witness :
  exists others,
    _convert_yaml_to_exclude sample_prep sample_section =
      Some ("*" +:+ String.concat ""
                      (map (fun i => newline +:+ "!" +:+ i)
                           (mjoin (w_glob sample_prep <$> ["*.c"]) ++ others))) /\
    sublist others ["hello.c"; "README.md"] /\
    (forall f, f ∈ others <->
               f ∈ ["hello.c"; "README.md"] /\
               f ∉ mjoin (w_glob sample_prep <$> ["*.c"])) /\
    (forall f, f ∈ mjoin (w_glob sample_prep <$> ["*.c"]) ++ others <->
               f ∈ mjoin (w_glob sample_prep <$> ["*.c"]) \/
               f ∈ ["hello.c"; "README.md"]).
Proof.
  destruct (exclude_lets_through sample_prep sample_section) as (_ & _ & H).
  apply (H ["*.c"] ["hello.c"; "README.md"]); reflexivity.
Defined.

Lemma push_stops_at_first_failure_witness :
  push sample_world (sample_deps "git version 2.39.2")
    (sample_fetch (Ok (false, "")))
    (sample_auth ssh_banner (Ok ok_response) git_works) sample_prep
    "cs50" "cs50/problems2/master/hello" "check50" empty_store []
  = Some (Raise (Error (wrong_username_msg "cs50")),
          install sample_local empty_store,
          [ESpawn ssh_cmd; EExpect ssh_cmd ssh_patterns; EClose ssh_cmd]) /\
  exists evs,
    push sample_world (sample_deps "git version 2.39.2")
      (sample_fetch (Ok (false, "")))
      (sample_auth permission_denied (Ok ok_response) git_works) sample_prep
      "cs50" "cs50/problems2/master/hello" "check50" empty_store []
    = Some (Raise (Error (not_enabled_msg "cs50")),
            install sample_local empty_store,
            evs ++ [EGit (cache_exit_call "/home/octocat/.git-credential-cache/push50");
                    EGit keychain_erase_call]).
Proof.
  split.
  - destruct (push_stops_at_first_failure sample_world
                (sample_deps "git version 2.39.2")
                (sample_fetch (Ok (false, "")))
                (sample_auth ssh_banner (Ok ok_response) git_works) sample_prep
                "cs50" "cs50/problems2/master/hello" "check50" empty_store [])
      as (_ & _ & Hssh & _).
    apply (Hssh 0%nat (install sample_local empty_store)
             {| name := "octocat"; password := None;
                email := "octocat@users.noreply.github.com";
                repo := "git@github.com/cs50/octocat" |}
             [ESpawn ssh_cmd; EExpect ssh_cmd ssh_patterns; EClose ssh_cmd]
             "repository not found").
    + reflexivity.
    + reflexivity.
    + intros A body t. unfold _authenticate_ssl. io_run. trace_norm.
      reflexivity.
    + reflexivity.
  - destruct (push_stops_at_first_failure sample_world
                (sample_deps "git version 2.39.2")
                (sample_fetch (Ok (false, "")))
                (sample_auth permission_denied (Ok ok_response) git_works)
                sample_prep
                "cs50" "cs50/problems2/master/hello" "check50" empty_store [])
      as (_ & _ & _ & Hhttps).
    + eexists.
      rewrite (Hhttps 0%nat (install sample_local empty_store)
                 {| name := "octocat"; password := Some "hunter2";
                         email := "octocat@users.noreply.github.com";
                         repo := "https://octocat@github.com/cs50/octocat" |}
                 [ESpawn ssh_cmd; EExpect ssh_cmd ssh_patterns; EClose ssh_cmd]
                 [EMkdir "/home/octocat/.git-credential-cache";
                  ESpawn (fill_cmd "/home/octocat/.git-credential-cache/push50");
                  ESendline (fill_cmd "/home/octocat/.git-credential-cache/push50") "";
                  EExpect (fill_cmd "/home/octocat/.git-credential-cache/push50")
                    fill_patterns;
                  EClose (fill_cmd "/home/octocat/.git-credential-cache/push50");
                  EInput "Github username: ";
                  EGetPassword "Github password: ";
                  EHttpGet api_url (Some "octocat") (Some "hunter2");
                  EGit (approve_call "octocat" (Some "hunter2"))]
                 "repository not found" "").
      * rewrite !app_assoc. reflexivity.
      * reflexivity.
      * reflexivity.
      * intros A body t. unfold _authenticate_ssl. io_run. trace_norm.
        reflexivity.
      * intros A body t. unfold _authenticate_https, https_try,
          https_credentials, https_validate, _get_username, _get_password.
        io_run. trace_norm. reflexivity.
      * reflexivity.
      * reflexivity.
      * reflexivity.
      * intros e H. discriminate H.
Defined.

Lemma credentials_cached_or_prompted_witness :
  settles (https_credentials cached_auth "/tmp/socket")
    (Ok (Some "octocat", Some "hunter2"))
    [ESpawn (fill_cmd "/tmp/socket"); ESendline (fill_cmd "/tmp/socket") "";
     EExpect (fill_cmd "/tmp/socket") fill_patterns;
     EClose (fill_cmd "/tmp/socket")].
Proof.
  destruct (credentials_cached_or_prompted cached_auth "/tmp/socket"
              {| matched := 2; groups := ["octocat"; "hunter2"] |})
    as [H _].
  - reflexivity.
  - reflexivity.
  - reflexivity.
  - apply (H "octocat" "hunter2"); [reflexivity | reflexivity | discriminate].
Defined.


Lemma merge_fails_only_on_clash_witness :
  ((exists res st', _merge_cs50_yaml 0 1 clash_store = Some (Ok res, st'))
   <-> forall tool, no_clash clash_store 0 1 tool) /\
  (forall e st',
     _merge_cs50_yaml 0 1 clash_store = Some (Raise e, st') ->
     e = TypeError /\
     exists tool key xs v,
       lookup clash_store 1 tool key = Some (YList xs) /\
       lookup clash_store 0 tool key = Some v /\ is_list v = false).
Proof.
  apply (merge_fails_only_on_clash clash_store 0 1).
  - apply clash_store_ok.
  - by eexists.
  - by eexists.
Defined.

Lemma deepcopy_keeps_content_and_sharing_witness :
  exists cres news,
    deepcopy 1 aliased_store =
      Some (Ok 2%nat,
            {| configs := configs aliased_store ++ [cres];
               sections := sections aliased_store ++ news |}) /\
    lookup {| configs := configs aliased_store ++ [cres];
              sections := sections aliased_store ++ news |} 2 "b" "include"
    = Some (YList [YStr "y"]).
Proof.
  destruct (deepcopy_keeps_content_and_sharing aliased_store 1
              [("a", 1%nat); ("b", 1%nat)])
    as (cres & news & Hdc & Hlookup & _).
  - apply aliased_store_ok.
  - reflexivity.
  - exists cres, news. split; [exact Hdc|].
    transitivity (lookup aliased_store 1 "b" "include");
      [exact (Hlookup "b" "include") | reflexivity].
Defined.

Section TerminalInstances.

Import Terminal.

Lemma get_password_reads_a_line_witness :
  _get_password utf8 "Password: " (sample_tty ("hunter2" +:+ String CR "ls"))
  = Some (Ok "hunter2",
          {| is_a_tty := true; settings := Cooked; pending := chars "ls";
             screen := ["Password: "; "*"; "*"; "*"; "*"; "*"; "*"; "*";
                        end_of_line] |}).
Proof.
  apply (get_password_reads_a_line utf8 "Password: "
           (sample_tty ("hunter2" +:+ String CR "ls"))
           (chars "hunter2") CR (chars "ls")).
  - reflexivity.
  - reflexivity.
  - left. reflexivity.
  - reflexivity.
Defined.

Lemma get_password_never_echoes_witness :
  screen {| is_a_tty := true; settings := Cooked; pending := chars "ls";
            screen := ["Password: "; "*"; "*"; "*"; "*"; "*"; "*"; "*";
                       end_of_line] |}
  = screen (sample_tty ("hunter2" +:+ String CR "ls")) \/
  exists printed,
    screen {| is_a_tty := true; settings := Cooked; pending := chars "ls";
              screen := ["Password: "; "*"; "*"; "*"; "*"; "*"; "*"; "*";
                         end_of_line] |}
    = screen (sample_tty ("hunter2" +:+ String CR "ls"))
      ++ "Password: " :: printed /\
    Forall (fun s => s ∈ ["*"; wipe; "^C"; end_of_line]) printed.
Proof.
  apply (get_password_never_echoes utf8 "Password: "
           (sample_tty ("hunter2" +:+ String CR "ls")) _ (Ok "hunter2")).
  reflexivity.
Defined.

Lemma get_password_del_undoes_witness :
  fst <$> _get_password utf8 "Password: "
            (with_input (sample_tty "")
               (chars "hunter" ++ "3"%char :: DEL :: chars ("2" +:+ String CR "")))
  = fst <$> _get_password utf8 "Password: "
              (with_input (sample_tty "")
                 (chars "hunter" ++ chars ("2" +:+ String CR ""))).
Proof.
  apply (get_password_del_undoes utf8 "Password: " (sample_tty "")
           (chars "hunter") "3"%char (chars ("2" +:+ String CR ""))).
  reflexivity.
Defined.

Lemma get_password_exceptions_witness :
  fst <$> _get_password utf8 "Password: "
            (sample_tty ("ab" +:+ String DEL (String DEL (String DEL "c"))))
  = Some (Raise (IndexError "pop from empty list")).
Proof.
  destruct (get_password_exceptions utf8 "Password: "
              (sample_tty ("ab" +:+ String DEL (String DEL (String DEL "c"))))
              (chars "ab") (chars "c")) as [H _].
  - reflexivity.
  - reflexivity.
  - apply H. reflexivity.
Defined.

Lemma get_password_restores_terminal_witness :
  exists r st',
    _get_password utf8 "Password: "
      (sample_tty ("hun" +:+ String (ascii_of_nat 3) "ls")) = Some (r, st') /\
    settings st' = Cooked /\
    is_a_tty st' = true /\
    exists n, pending st' = drop n (chars "hun" ++ ascii_of_nat 3 :: chars "ls").
Proof.
  destruct (get_password_restores_terminal utf8 "Password: "
              (sample_tty ("hun" +:+ String (ascii_of_nat 3) "ls")))
    as [Hrestored Hends].
  destruct Hends as (r & st' & Hrun).
  { exists (ascii_of_nat 3). split.
    - do 3 apply list_elem_of_further. apply list_elem_of_here.
    - do 3 apply list_elem_of_further. apply list_elem_of_here. }
  exists r, st'. split; [exact Hrun|]. exact (Hrestored r st' Hrun).
Defined.

End TerminalInstances.
